(** * SoupaWhisper (dictate.py): a shallow embedding and its properties

    The program is a push-to-talk dictation tool.  This development
    embeds [src/dictate.py]:

    - Python strings as lists of code points, with [str.strip],
      [str.join], [str.endswith] and slicing written out;
    - [load_config], [get_hotkey] and the module-level construction of
      [HOTKEY_TO_LANG];
    - the [Dictation] object as a record, its methods in a small
      state-and-exception monad over the object and the outside world
      (file system, child processes, console, loader threads);
    - the model cache as a dictionary of references to shared entry
      objects on a heap, with the loader thread as a small step machine
      that interleaves with the callers of [_get_or_load_model]. *)

From Stdlib Require Import Ascii String.
From stdpp Require Import base decidable option list gmap sets fin_maps.

Local Open Scope N_scope.

(** ** Python strings *)

(** A Python [str] is a sequence of Unicode code points. *)
Abbreviation pystr := (list N).

(** Literals are written as ASCII strings and read as code points. *)
Definition str (s : string) : pystr :=
  N_of_ascii <$> list_ascii_of_string s.

Definition pystr_eqb (a b : pystr) : bool := bool_decide (a = b).

(** [str.isspace] on one code point: the interpreter's white-space table. *)
Definition isspace (c : N) : bool :=
  ((9 <=? c) && (c <=? 13)) || ((28 <=? c) && (c <=? 32))
  || (c =? 133) || (c =? 160) || (c =? 5760)
  || ((8192 <=? c) && (c <=? 8202))
  || (c =? 8232) || (c =? 8233) || (c =? 8239) || (c =? 8287)
  || (c =? 12288).

Fixpoint lstrip (s : pystr) : pystr :=
  match s with
  | c :: s' => if isspace c then lstrip s' else s
  | [] => []
  end.

Definition rstrip (s : pystr) : pystr := rev (lstrip (rev s)).

(** [s.strip()] *)
Definition strip (s : pystr) : pystr := rstrip (lstrip s).

(** [sep.join(parts)] *)
Fixpoint join (sep : pystr) (parts : list pystr) : pystr :=
  match parts with
  | [] => []
  | p :: rest =>
      match rest with
      | [] => p
      | _ :: _ => p ++ sep ++ join sep rest
      end
  end.

(** [s.endswith(suffix)] *)
Definition endswith (s suffix : pystr) : bool :=
  let n := length s in
  let k := length suffix in
  (k <=? n)%nat && pystr_eqb (drop (n - k) s) suffix.

Fixpoint startswith (s pre : pystr) : bool :=
  match pre, s with
  | [], _ => true
  | p :: pre', c :: s' => (p =? c) && startswith s' pre'
  | _ :: _, [] => false
  end.

(** [needle in s] *)
Fixpoint contains (s needle : pystr) : bool :=
  startswith s needle ||
  match s with
  | [] => false
  | _ :: s' => contains s' needle
  end.

(** [bool(s)] for a string *)
Definition truthy (s : pystr) : bool :=
  match s with [] => false | _ :: _ => true end.

(** ** Python dictionaries that are iterated

    [languages] and [HOTKEY_TO_LANG] are iterated in insertion order, and a
    later assignment to a present key replaces the value in place. *)

Section Dict.
Context {K V : Type} `{EqDecision K}.

Fixpoint dict_get (k : K) (d : list (K * V)) : option V :=
  match d with
  | [] => None
  | (k', v) :: d' => if decide (k' = k) then Some v else dict_get k d'
  end.

Fixpoint dict_set (k : K) (v : V) (d : list (K * V)) : list (K * V) :=
  match d with
  | [] => [(k, v)]
  | (k', v') :: d' =>
      if decide (k' = k) then (k, v) :: d' else (k', v') :: dict_set k v d'
  end.

Definition dict_in (k : K) (d : list (K * V)) : bool :=
  match dict_get k d with Some _ => true | None => false end.

End Dict.

(** ** Keys of the keyboard library *)

(** A key object is a member of [keyboard.Key], found by its name, or a
    [keyboard.KeyCode] made from a character. *)
Inductive key : Type :=
  | Key_ (name : pystr)
  | KeyCode_from_char (char : pystr).

Global Instance key_eq_dec : EqDecision key.
Proof. solve_decision. Defined.

(** [hotkey.name if hasattr(hotkey, 'name') else hotkey.char] *)
Definition hotkey_name (k : key) : pystr :=
  match k with
  | Key_ name => name
  | KeyCode_from_char char => char
  end.

(** ** What the program takes from outside

    An exception is carried as its message, [str(e)]. *)
Abbreviation exn := (list N) (only parsing).

Inductive result (A : Type) : Type :=
  | Ok (a : A)
  | Raise (e : exn).
Arguments Ok {A} a.
Arguments Raise {A} e.

Abbreviation handle := nat (only parsing).
Abbreviation path := nat (only parsing).

(** The keyword arguments of a [transcribe] call. *)
Record transcribe_kwargs : Type := {
  beam_size : Z;
  vad_filter : bool;
  language : option pystr;
}.

Record Env : Type := {
  (** [str.lower] and [str.upper], the interpreter's case mappings *)
  lower : pystr -> pystr;
  upper : pystr -> pystr;
  (** the attribute table of [keyboard.Key]: [hasattr] / [getattr] *)
  Key_attr : pystr -> option key;
  (** [WhisperModel(model_name, device=..., compute_type=...)] *)
  WhisperModel : option pystr -> pystr -> pystr -> result handle;
  (** [model.transcribe(path, **kwargs)] and the consumption of its
      segments: the texts of the segments in emission order *)
  engine_transcribe : handle -> path -> transcribe_kwargs -> result (list pystr);
  (** the child processes: [None] when the call returns *)
  xclip : pystr -> option exn;
  xdotool : pystr -> option exn;
  notify_send : pystr -> pystr -> pystr -> Z -> option exn;
}.

(** ** Configuration *)

(** The parsed settings file, seen through the calls [load_config] makes.
    It stands for a file that [config.read] has read and whose values
    [config.get] and [config.items] return: a file with a syntax error, an
    option given twice or a value with a stray [%] makes these calls raise,
    the program ends at the import of the module, and nothing of what
    follows is reached.  Of the calls of [load_config] only [getboolean]
    is modelled as one that may raise. *)
Record ConfigParser : Type := {
  cp_has_section : pystr -> bool;
  cp_items : pystr -> list (pystr * pystr);
  cp_option : pystr -> pystr -> option pystr;
  cp_boolean : pystr -> pystr -> option (result bool);
}.

(** [config.get(section, option, fallback=d)] *)
Definition cp_get (c : ConfigParser) (section option d : pystr) : pystr :=
  default d (cp_option c section option).

(** [config.getboolean(section, option, fallback=d)] *)
Definition cp_getboolean (c : ConfigParser) (section option : pystr) (d : bool)
  : result bool :=
  default (Ok d) (cp_boolean c section option).

Record lang_config : Type := {
  lc_key : pystr;
  lc_model : pystr;
}.

Record config : Type := {
  cfg_model_size : pystr;
  cfg_device : pystr;
  cfg_compute_type : pystr;
  cfg_languages : list (pystr * lang_config);
  cfg_auto_type : bool;
  cfg_notifications : bool;
}.

(** Lines 51-54: the model of one language. *)
Definition derive_model (lang model_size : pystr) : pystr :=
  if pystr_eqb lang (str "en") then model_size ++ str ".en" else model_size.

(** Lines 49-55: the loop over [config.items("languages")]. *)
Fixpoint load_languages (model_size : pystr) (items : list (pystr * pystr))
    (languages : list (pystr * lang_config)) : list (pystr * lang_config) :=
  match items with
  | [] => languages
  | (lang, hotkey) :: items' =>
      let model := derive_model lang model_size in
      load_languages model_size items'
        (dict_set lang {| lc_key := strip hotkey; lc_model := model |} languages)
  end.

Definition load_config (c : ConfigParser) : result config :=
  let model_size := cp_get c (str "whisper") (str "model_size") (str "base") in
  let languages :=
    if cp_has_section c (str "languages")
    then load_languages model_size (cp_items c (str "languages")) []
    else [(str "auto",
           {| lc_key := cp_get c (str "hotkey") (str "key") (str "f12");
              lc_model := model_size |})] in
  let device := cp_get c (str "whisper") (str "device") (str "cpu") in
  let compute_type :=
    cp_get c (str "whisper") (str "compute_type") (str "int8") in
  match cp_getboolean c (str "behavior") (str "auto_type") true with
  | Raise e => Raise e
  | Ok auto_type =>
      match cp_getboolean c (str "behavior") (str "notifications") true with
      | Raise e => Raise e
      | Ok notifications =>
          Ok {| cfg_model_size := model_size;
                cfg_device := device;
                cfg_compute_type := compute_type;
                cfg_languages := languages;
                cfg_auto_type := auto_type;
                cfg_notifications := notifications |}
      end
  end.

(** ** Hotkeys *)

(** [get_hotkey(key_name)]: the key, and the lines it prints. *)
Definition get_hotkey (E : Env) (key_name : pystr) : key * list pystr :=
  let key_name := lower E key_name in
  match Key_attr E key_name with
  | Some k => (k, [])
  | None =>
      if (length key_name =? 1)%nat
      then (KeyCode_from_char key_name, [])
      else (Key_ (str "f12"),
            [str "Unknown key: " ++ key_name ++ str ", defaulting to f12"])
  end.

Record binding : Type := {
  b_lang : pystr;
  b_model : pystr;
}.

(** Lines 89-92: the loop that fills [HOTKEY_TO_LANG]. *)
Fixpoint build_hotkey_to_lang (E : Env) (languages : list (pystr * lang_config))
    (table : list (key * binding)) (out : list pystr)
  : list (key * binding) * list pystr :=
  match languages with
  | [] => (table, out)
  | (lang, lc) :: languages' =>
      let '(hotkey, printed) := get_hotkey E (lc_key lc) in
      build_hotkey_to_lang E languages'
        (dict_set hotkey {| b_lang := lang; b_model := lc_model lc |} table)
        (out ++ printed)
  end.

(** The module-level names the methods read. *)
Record Globals : Type := {
  HOTKEY_TO_LANG : list (key * binding);
  DEVICE : pystr;
  COMPUTE_TYPE : pystr;
  AUTO_TYPE : bool;
  NOTIFICATIONS : bool;
}.

(** Lines 73-97: what importing the module computes from the settings. *)
Definition module_init (E : Env) (c : ConfigParser)
  : result (Globals * list pystr) :=
  match load_config c with
  | Raise e => Raise e
  | Ok CONFIG =>
      let '(table, out) := build_hotkey_to_lang E (cfg_languages CONFIG) [] [] in
      Ok ({| HOTKEY_TO_LANG := table;
             DEVICE := cfg_device CONFIG;
             COMPUTE_TYPE := cfg_compute_type CONFIG;
             AUTO_TYPE := cfg_auto_type CONFIG;
             NOTIFICATIONS := cfg_notifications CONFIG |}, out)
  end.

(** ** The object and the world around it *)

(** An entry of the model cache: the dictionary
    [{"model": ..., "loaded": Event, "error": ...}].  Entries are objects:
    the cache, the loader thread and the callers hold references to them. *)
Record entry : Type := {
  e_model : option handle;
  e_loaded : bool;
  e_error : option pystr;
}.

Abbreviation loc := nat (only parsing).

(** Where a loader thread stands in [_load_model]. *)
Inductive loader_pc : Type :=
  | LStart                (* before [model_info = self.models[model_name]] *)
  | LConstruct (l : loc)  (* before the [try] block *)
  | LFinally (l : loc)    (* before [model_info["loaded"].set()] *)
  | LDone.

Record thread : Type := {
  t_model_name : option pystr;
  t_pc : loader_pc;
}.

Inductive proc_state : Type := Running | Exited.

Inductive event : Type :=
  | Stdout (line : pystr)
  | Notify (title message icon : pystr) (timeout : Z)
  | Tempfile (p : path)
  | Arecord (pid : nat) (p : path)
  | Terminate (pid : nat)
  | Transcribe (h : handle) (p : path) (kw : transcribe_kwargs)
  | Xclip (text : pystr)
  | Xdotool (text : pystr)
  | Unlink (p : path)
  | Thread_start (model_name : option pystr).

Record World : Type := {
  heap : list entry;
  threads : list thread;
  files : gset nat;
  procs : list proc_state;
  log : list event;
}.

Record Dictation : Type := {
  recording : bool;
  record_process : option nat;
  temp_file : option nat;
  running : bool;
  active_language : option pystr;
  active_model_name : option pystr;
  models : gmap (option pystr) nat;
}.

Definition set_heap (f : list entry -> list entry) (w : World) : World :=
  {| heap := f (heap w); threads := threads w; files := files w;
     procs := procs w; log := log w |}.
Definition set_threads (f : list thread -> list thread) (w : World) : World :=
  {| heap := heap w; threads := f (threads w); files := files w;
     procs := procs w; log := log w |}.
Definition set_files (f : gset nat -> gset nat) (w : World) : World :=
  {| heap := heap w; threads := threads w; files := f (files w);
     procs := procs w; log := log w |}.
Definition set_procs (f : list proc_state -> list proc_state) (w : World)
  : World :=
  {| heap := heap w; threads := threads w; files := files w;
     procs := f (procs w); log := log w |}.
Definition emit (ev : event) (w : World) : World :=
  {| heap := heap w; threads := threads w; files := files w;
     procs := procs w; log := log w ++ [ev] |}.

Definition set_recording (b : bool) (d : Dictation) : Dictation :=
  {| recording := b; record_process := record_process d;
     temp_file := temp_file d; running := running d;
     active_language := active_language d;
     active_model_name := active_model_name d; models := models d |}.
Definition set_record_process (p : option nat) (d : Dictation) : Dictation :=
  {| recording := recording d; record_process := p;
     temp_file := temp_file d; running := running d;
     active_language := active_language d;
     active_model_name := active_model_name d; models := models d |}.
Definition set_temp_file (p : option nat) (d : Dictation) : Dictation :=
  {| recording := recording d; record_process := record_process d;
     temp_file := p; running := running d;
     active_language := active_language d;
     active_model_name := active_model_name d; models := models d |}.
Definition set_active_language (l : option pystr) (d : Dictation) : Dictation :=
  {| recording := recording d; record_process := record_process d;
     temp_file := temp_file d; running := running d;
     active_language := l;
     active_model_name := active_model_name d; models := models d |}.
Definition set_active_model_name (m : option pystr) (d : Dictation)
  : Dictation :=
  {| recording := recording d; record_process := record_process d;
     temp_file := temp_file d; running := running d;
     active_language := active_language d;
     active_model_name := m; models := models d |}.
Definition set_models (f : gmap (option pystr) nat -> gmap (option pystr) nat)
    (d : Dictation) : Dictation :=
  {| recording := recording d; record_process := record_process d;
     temp_file := temp_file d; running := running d;
     active_language := active_language d;
     active_model_name := active_model_name d; models := f (models d) |}.

(** [Dictation.__init__], without its printing. *)
Definition Dictation_init : Dictation :=
  {| recording := false; record_process := None; temp_file := None;
     running := true; active_language := None; active_model_name := None;
     models := ∅ |}.

(** ** The monad of the methods

    A method runs on the object and the world.  It returns, raises, or
    blocks for ever (a wait on an event nobody will set). *)
Inductive outcome (A : Type) : Type :=
  | Ret (a : A)
  | Exc (e : exn)
  | Blocked.
Arguments Ret {A} a.
Arguments Exc {A} e.
Arguments Blocked {A}.

Abbreviation state := (Dictation * World)%type.

Definition M (A : Type) : Type := state -> outcome A * state.

Definition ret {A} (a : A) : M A := fun s => (Ret a, s).
Definition raise {A} (e : exn) : M A := fun s => (Exc e, s).
Definition bind {A B} (m : M A) (k : A -> M B) : M B :=
  fun s =>
    match m s with
    | (Ret a, s') => k a s'
    | (Exc e, s') => (Exc e, s')
    | (Blocked, s') => (Blocked, s')
    end.

Global Instance M_ret : MRet M := @ret.
Global Instance M_bind : MBind M := fun A B k m => bind m k.

Definition get_self : M Dictation := fun s => (Ret (fst s), s).
Definition get_world : M World := fun s => (Ret (snd s), s).
Definition upd_self (f : Dictation -> Dictation) : M unit :=
  fun s => (Ret tt, (f (fst s), snd s)).
Definition upd_world (f : World -> World) : M unit :=
  fun s => (Ret tt, (fst s, f (snd s))).

(** [try: body except Exception as e: handler(e)] *)
Definition try_except {A} (body : M A) (handler : exn -> M A) : M A :=
  fun s =>
    match body s with
    | (Exc e, s') => handler e s'
    | r => r
    end.

(** [try: body finally: fin] *)
Definition try_finally {A} (body : M A) (fin : M unit) : M A :=
  fun s =>
    match body s with
    | (Blocked, s') => (Blocked, s')
    | (r, s') =>
        match fin s' with
        | (Ret _, s'') => (r, s'')
        | (Exc e, s'') => (Exc e, s'')
        | (Blocked, s'') => (Blocked, s'')
        end
    end.

(** [print(line)] *)
Definition print (line : pystr) : M unit := upd_world (emit (Stdout line)).

(** A call of an outside program: it is made, and may raise. *)
Definition external (ev : event) (r : option exn) : M unit :=
  upd_world (emit ev);;
  match r with
  | None => ret tt
  | Some e => raise e
  end.

(** [f"{x}"] for a value that is a string or [None] *)
Definition fmt (o : option pystr) : pystr := default (str "None") o.

(** ** The methods of [Dictation] *)

Section Methods.

Variable E : Env.
Variable G : Globals.

Definition new_entry : entry :=
  {| e_model := None; e_loaded := false; e_error := None |}.

Definition with_model (h : handle) (e : entry) : entry :=
  {| e_model := Some h; e_loaded := e_loaded e; e_error := e_error e |}.
Definition with_error (msg : pystr) (e : entry) : entry :=
  {| e_model := e_model e; e_loaded := e_loaded e; e_error := Some msg |}.
Definition with_loaded (e : entry) : entry :=
  {| e_model := e_model e; e_loaded := true; e_error := e_error e |}.

(** [_get_or_load_model]: the body runs under [models_lock]; it returns the
    reference stored in [self.models]. *)
Definition _get_or_load_model (model_name : option pystr) : M nat :=
  d ← get_self;
  match models d !! model_name with
  | Some l => ret l
  | None =>
      w ← get_world;
      let l := length (heap w) in
      upd_world (set_heap (λ h, h ++ [new_entry]));;
      upd_self (set_models <[model_name := l]>);;
      upd_world (set_threads (λ ts,
        ts ++ [{| t_model_name := model_name; t_pc := LStart |}]));;
      upd_world (emit (Thread_start model_name));;
      ret l
  end.

(** [_load_model], one step of the thread that runs it.  A thread that has
    ended takes no step. *)
Definition _load_model_step (d : Dictation) (t : thread) (w : World)
  : option (thread * World) :=
  let model_name := t_model_name t in
  let at_pc pc := {| t_model_name := model_name; t_pc := pc |} in
  match t_pc t with
  | LStart =>
      match models d !! model_name with
      | Some model_info =>
          Some (at_pc (LConstruct model_info),
                emit (Stdout (str "Loading Whisper model (" ++ fmt model_name
                             ++ str ")...")) w)
      | None => Some (at_pc LDone, w)
      end
  | LConstruct model_info =>
      match WhisperModel E model_name (DEVICE G) (COMPUTE_TYPE G) with
      | Ok h =>
          let w := set_heap (alter (with_model h) model_info) w in
          Some (at_pc (LFinally model_info),
                emit (Stdout (str "Model " ++ fmt model_name ++ str " loaded.")) w)
      | Raise e =>
          let w := set_heap (alter (with_error e) model_info) w in
          let w := emit (Stdout (str "Failed to load model " ++ fmt model_name
                                ++ str ": " ++ e)) w in
          let w :=
            if contains (lower E e) (str "cudnn")
               || contains (lower E e) (str "cuda")
            then emit (Stdout (str
              "Hint: Try setting device = cpu in your config, or install cuDNN.")) w
            else w in
          Some (at_pc (LFinally model_info), w)
      end
  | LFinally model_info =>
      Some (at_pc LDone, set_heap (alter with_loaded model_info) w)
  | LDone => None
  end.

(** One step of the loader thread number [i], when it has one to take. *)
Definition loader_action (i : nat) (s : state) : state :=
  let '(d, w) := s in
  match threads w !! i with
  | Some t =>
      match _load_model_step d t w with
      | Some (t', w') => (d, set_threads <[i := t']> w')
      | None => s
      end
  | None => s
  end.

(** The loader thread number [i] runs to its end: [_load_model] has three
    steps. *)
Definition run_loader (i : nat) (s : state) : state :=
  loader_action i (loader_action i (loader_action i s)).

(** A thread holds an entry when it has or will take the reference to it. *)
Definition holds (d : Dictation) (l : nat) (t : thread) : bool :=
  match t_pc t with
  | LStart => bool_decide (models d !! t_model_name t = Some l)
  | LConstruct l' | LFinally l' => bool_decide (l' = l)
  | LDone => false
  end.

(** The numbers of the threads that hold [l], counted from [i]. *)
Fixpoint holders (d : Dictation) (l : nat) (i : nat) (ts : list thread)
  : list nat :=
  match ts with
  | [] => []
  | t :: ts' =>
      if holds d l t then i :: holders d l (S i) ts' else holders d l (S i) ts'
  end.

(** [model_info["loaded"].wait()]: returns at once when the event is set;
    otherwise the caller sleeps while the threads that hold this entry run
    to their end, and wakes when the event is set.  With no thread left to
    set it the caller sleeps for ever.  The value is the entry as it stands
    on waking. *)
Definition Event_wait (model_info : nat) : M entry :=
  fun s =>
    match heap s.2 !! model_info with
    | None => (Blocked, s)
    | Some e =>
        if e_loaded e then (Ret e, s)
        else
          let s' :=
            foldl (λ s i, run_loader i s) s
                  (holders s.1 model_info 0 (threads s.2)) in
          match heap s'.2 !! model_info with
          | Some e' => if e_loaded e' then (Ret e', s') else (Blocked, s')
          | None => (Blocked, s')
          end
    end.

(** [notify] *)
Definition notify (title message icon : pystr) (timeout : Z) : M unit :=
  if negb (NOTIFICATIONS G) then ret tt
  else external (Notify title message icon timeout)
                (notify_send E title message icon timeout).

(** [start_recording].  [NamedTemporaryFile] and the [Popen] of [arecord]
    are taken to return: the temporary file is made and the capture
    process is started.  A process counts as [Running] from its start until
    the program ends it. *)
Definition start_recording (language model_name : pystr) (hotkey : key)
  : M unit :=
  d ← get_self;
  if recording d then ret tt
  else
    _get_or_load_model (Some model_name);;
    upd_self (set_recording true);;
    upd_self (set_active_language (Some language));;
    upd_self (set_active_model_name (Some model_name));;
    w ← get_world;
    let p := fresh (files w) in
    upd_world (set_files (λ fs, {[p]} ∪ fs));;
    upd_world (emit (Tempfile p));;
    upd_self (set_temp_file (Some p));;
    w ← get_world;
    let pid := length (procs w) in
    upd_world (set_procs (λ ps, ps ++ [Running]));;
    upd_world (emit (Arecord pid p));;
    upd_self (set_record_process (Some pid));;
    let lang_display :=
      if pystr_eqb language (str "auto") then str "auto-detect"
      else upper E language in
    let hotkey_name := hotkey_name hotkey in
    print (str "Recording (" ++ lang_display ++ str ")...");;
    notify (str "Recording (" ++ lang_display ++ str ")...")
           (str "Release " ++ upper E hotkey_name ++ str " when done")
           (str "audio-input-microphone") 30000.

(** Lines 231-238: the language argument of the [transcribe] call. *)
Definition language_kwarg : M (option pystr) :=
  d ← get_self;
  match active_language d with
  | Some lang =>
      if truthy lang && negb (pystr_eqb lang (str "auto")) then
        match active_model_name d with
        | Some m =>
            if negb (endswith m (str ".en")) then ret (Some lang) else ret None
        | None =>
            raise (str "'NoneType' object has no attribute 'endswith'")
        end
      else ret None
  | None => ret None
  end.

(** Line 245: the text of the segments. *)
Definition transcript (segments : list pystr) : pystr :=
  join (str " ") (strip <$> segments).

(** Lines 231-263: the body of the [try]. *)
Definition transcribe_and_deliver (model_info : entry) : M unit :=
  lang ← language_kwarg;
  let kw := {| beam_size := 5; vad_filter := true; language := lang |} in
  h ← match e_model model_info with
      | Some h => ret h
      | None => raise (str "'NoneType' object has no attribute 'transcribe'")
      end;
  d ← get_self;
  p ← match temp_file d with
      | Some p => ret p
      | None => raise (str "'NoneType' object has no attribute 'name'")
      end;
  upd_world (emit (Transcribe h p kw));;
  segments ← match engine_transcribe E h p kw with
             | Ok segments => ret segments
             | Raise e => raise e
             end;
  let text := transcript segments in
  if truthy text then
    external (Xclip text) (xclip E text);;
    (if AUTO_TYPE G then external (Xdotool text) (xdotool E text) else ret tt);;
    print (str "Copied: " ++ text);;
    notify (str "Copied!")
           (take 100 text ++ (if (100 <? length text)%nat then str "..." else []))
           (str "emblem-ok-symbolic") 3000
  else
    print (str "No speech detected");;
    notify (str "No speech detected") (str "Try speaking louder")
           (str "dialog-warning") 2000.

(** Lines 265-267: the [except] clause. *)
Definition report_error (e : exn) : M unit :=
  print (str "Error: " ++ e);;
  notify (str "Error") (take 50 e) (str "dialog-error") 3000.

(** Lines 268-271: the [finally] clause. *)
Definition cleanup_temp_file : M unit :=
  d ← get_self;
  w ← get_world;
  match temp_file d with
  | Some p =>
      if bool_decide (p ∈ files w) then
        upd_world (set_files (λ fs, fs ∖ {[p]}));;
        upd_world (emit (Unlink p))
      else ret tt
  | None => ret tt
  end.

Definition error_set (e : entry) : bool :=
  match e_error e with
  | Some msg => truthy msg
  | None => false
  end.

(** [stop_recording] *)
Definition stop_recording : M unit :=
  d ← get_self;
  if negb (recording d) then ret tt
  else
    upd_self (set_recording false);;
    match record_process d with
    | Some pid =>
        upd_world (emit (Terminate pid));;
        upd_world (set_procs <[pid := Exited]>);;
        upd_self (set_record_process None)
    | None => ret tt
    end;;
    print (str "Transcribing...");;
    notify (str "Transcribing...") (str "Processing your speech")
           (str "emblem-synchronizing") 30000;;
    d ← get_self;
    l ← _get_or_load_model (active_model_name d);
    model_info ← Event_wait l;
    if error_set model_info then
      print (str "Cannot transcribe: model failed to load");;
      notify (str "Error") (str "Model failed to load") (str "dialog-error") 3000
    else
      try_finally
        (try_except (transcribe_and_deliver model_info) report_error)
        cleanup_temp_file.

(** [on_press] *)
Definition on_press (k : key) : M unit :=
  match dict_get k (HOTKEY_TO_LANG G) with
  | Some config => start_recording (b_lang config) (b_model config) k
  | None => ret tt
  end.

(** [on_release] *)
Definition on_release (k : key) : M unit :=
  d ← get_self;
  if dict_in k (HOTKEY_TO_LANG G) && recording d then stop_recording
  else ret tt.

End Methods.

(** ** The running program

    The listener thread delivers key events one at a time and runs the
    callback to its end; loader threads take their steps in between, and
    any thread may ask the cache for a model. *)
Inductive action : Type :=
  | Press (k : key)
  | Release (k : key)
  | Acquire (model_name : option pystr)
  | Loader (i : nat).

Definition step (E : Env) (G : Globals) (a : action) (s : state) : state :=
  match a with
  | Press k => (on_press E G k s).2
  | Release k => (on_release E G k s).2
  | Acquire model_name => (_get_or_load_model model_name s).2
  | Loader i => loader_action E G i s
  end.

Definition run (E : Env) (G : Globals) (acts : list action) (s : state) : state :=
  foldl (λ s a, step E G a s) s acts.

Definition empty_world : World :=
  {| heap := []; threads := []; files := ∅; procs := []; log := [] |}.

(** The program after [Dictation()] on a machine with no files of its own. *)
Definition initial : state := (Dictation_init, empty_world).

(** The load units started for a model: the [Thread_start] events. *)
Global Instance transcribe_kwargs_eq_dec : EqDecision transcribe_kwargs.
Proof. solve_decision. Defined.
Global Instance event_eq_dec : EqDecision event.
Proof. solve_decision. Defined.

Definition launches (model_name : option pystr) (evs : list event) : nat :=
  length (filter (λ ev, ev = Thread_start model_name) evs).

(** The events a method adds to the log. *)
Definition new_events (before after : state) : list event :=
  drop (length (log before.2)) (log after.2).

(** ** A concrete machine for the examples *)

Definition ascii_lower (s : pystr) : pystr :=
  (λ c, if (65 <=? c) && (c <=? 90) then c + 32 else c) <$> s.
Definition ascii_upper (s : pystr) : pystr :=
  (λ c, if (97 <=? c) && (c <=? 122) then c - 32 else c) <$> s.

(** Some of the names of [keyboard.Key]. *)
Definition key_names : list pystr :=
  str <$> ["f9"; "f10"; "f11"; "f12"; "space"; "ctrl"; "alt"; "shift"]%string.

(** A machine on which every child process runs, the engine construction
    ends as [load] says and a transcription as [segments] says. *)
Definition machine (load : result handle) (segments : result (list pystr))
  : Env :=
  {| lower := ascii_lower;
     upper := ascii_upper;
     Key_attr := λ n, if bool_decide (n ∈ key_names) then Some (Key_ n) else None;
     WhisperModel := λ _ _ _, load;
     engine_transcribe := λ _ _ _, segments;
     xclip := λ _, None;
     xdotool := λ _, None;
     notify_send := λ _ _ _ _, None |}.

(** A settings file with [[languages] en = f9, de = f10]. *)
Definition two_languages : ConfigParser :=
  {| cp_has_section := λ s, bool_decide (s = str "languages");
     cp_items := λ s,
       if bool_decide (s = str "languages")
       then [(str "en", str "f9"); (str "de", str "f10")] else [];
     cp_option := λ _ _, None;
     cp_boolean := λ _ _, None |}.

(** What [module_init] computes from [two_languages]. *)
Definition two_languages_globals : Globals :=
  {| HOTKEY_TO_LANG :=
       [(Key_ (str "f9"), {| b_lang := str "en"; b_model := str "base.en" |});
        (Key_ (str "f10"), {| b_lang := str "de"; b_model := str "base" |})];
     DEVICE := str "cpu";
     COMPUTE_TYPE := str "int8";
     AUTO_TYPE := true;
     NOTIFICATIONS := true |}.

Definition f9 : key := Key_ (str "f9").
Definition f10 : key := Key_ (str "f10").

(** A settings file that is not there. *)
Definition no_settings : ConfigParser :=
  {| cp_has_section := λ _, false;
     cp_items := λ _, [];
     cp_option := λ _ _, None;
     cp_boolean := λ _ _, None |}.

(** A settings file whose two hotkey names are no names of keys. *)
Definition unknown_hotkeys : ConfigParser :=
  {| cp_has_section := λ s, bool_decide (s = str "languages");
     cp_items := λ s,
       if bool_decide (s = str "languages")
       then [(str "en", str "zz"); (str "de", str "qq")] else [];
     cp_option := λ _ _, None;
     cp_boolean := λ _ _, None |}.

(** ** The check of the tools at start

    [which] gives the return code of [which cmd]. *)

(** Lines 299-302: the loop over [arecord] and [xclip]. *)
Fixpoint check_commands (which : pystr → Z) (cmds : list pystr)
    (missing : list (pystr * pystr)) : list (pystr * pystr) :=
  match cmds with
  | [] => missing
  | cmd :: cmds' =>
      if negb (which cmd =? 0)%Z then
        let pkg :=
          if pystr_eqb cmd (str "arecord") then str "alsa-utils" else cmd in
        check_commands which cmds' (missing ++ [(cmd, pkg)])
      else check_commands which cmds' missing
  end.

(** [check_dependencies]: the lines it prints, and the exit status when it
    ends the process. *)
Definition check_dependencies (G : Globals) (which : pystr → Z)
  : list pystr * option Z :=
  let missing := check_commands which [str "arecord"; str "xclip"] [] in
  let missing :=
    if AUTO_TYPE G then
      if negb (which (str "xdotool") =? 0)%Z
      then missing ++ [(str "xdotool", str "xdotool")]
      else missing
    else missing in
  match missing with
  | [] => ([], None)
  | _ :: _ =>
      (str "Missing dependencies:"
       :: ((λ m : pystr * pystr,
              str "  " ++ m.1 ++ str " - install with: sudo apt install " ++ m.2)
           <$> missing),
       Some 1%Z)
  end.

(** * Properties *)

(** ** Strings *)

Lemma pystr_eqb_true (a b : pystr) : pystr_eqb a b = true ↔ a = b.
Proof. unfold pystr_eqb. apply bool_decide_eq_true. Qed.

Lemma pystr_eqb_false (a b : pystr) : pystr_eqb a b = false ↔ a ≠ b.
Proof. unfold pystr_eqb. apply bool_decide_eq_false. Qed.

(** What is cut off on the left is white space, and what is left does not
    begin with white space. *)
Lemma lstrip_split (s : pystr) :
  ∃ l, s = l ++ lstrip s ∧ forallb isspace l = true.
Proof.
  induction s as [|c s IH]; simpl.
  - by exists [].
  - destruct (isspace c) eqn:Hc.
    + destruct IH as (l & Hs & Hl). exists (c :: l). simpl.
      rewrite Hc, Hl. split; [by f_equal|done].
    + by exists [].
Qed.

Lemma lstrip_head (s : pystr) :
  match lstrip s with c :: _ => isspace c = false | [] => True end.
Proof.
  induction s as [|c s IH]; simpl; [done|].
  destruct (isspace c) eqn:Hc; [done|]. exact Hc.
Qed.

Lemma forallb_rev {A} (f : A → bool) (l : list A) :
  forallb f (rev l) = forallb f l.
Proof.
  induction l as [|a l IH]; simpl; [done|].
  rewrite forallb_app, IH. simpl. rewrite andb_true_r. apply andb_comm.
Qed.

Lemma rstrip_split (s : pystr) :
  ∃ r, s = rstrip s ++ r ∧ forallb isspace r = true.
Proof.
  unfold rstrip. destruct (lstrip_split (rev s)) as (l & Hs & Hl).
  exists (rev l). split.
  - rewrite <- rev_app_distr, <- Hs. by rewrite rev_involutive.
  - by rewrite forallb_rev.
Qed.

Lemma rstrip_last (s : pystr) :
  match rev (rstrip s) with c :: _ => isspace c = false | [] => True end.
Proof. unfold rstrip. rewrite rev_involutive. apply lstrip_head. Qed.

Lemma strip_split (s : pystr) :
  ∃ l r, s = l ++ strip s ++ r
         ∧ forallb isspace l = true ∧ forallb isspace r = true.
Proof.
  destruct (lstrip_split s) as (l & Hs & Hl).
  destruct (rstrip_split (lstrip s)) as (r & Ht & Hr).
  exists l, r. unfold strip. by rewrite <- Ht.
Qed.

Lemma strip_head (s : pystr) :
  match strip s with c :: _ => isspace c = false | [] => True end.
Proof.
  unfold strip. destruct (rstrip_split (lstrip s)) as (r & Ht & _).
  pose proof (lstrip_head s) as Hh.
  destruct (rstrip (lstrip s)) as [|c t]; [done|].
  rewrite Ht in Hh. exact Hh.
Qed.

Lemma strip_last (s : pystr) :
  match rev (strip s) with c :: _ => isspace c = false | [] => True end.
Proof. unfold strip. apply rstrip_last. Qed.

Lemma endswith_suffix (s suffix : pystr) :
  endswith s suffix = true ↔ suffix `suffix_of` s.
Proof.
  unfold endswith. rewrite andb_true_iff, Nat.leb_le, pystr_eqb_true. split.
  - intros [_ Hd]. exists (take (length s - length suffix) s).
    rewrite <- Hd at 2. by rewrite take_drop.
  - intros [k ->]. rewrite length_app. split; [lia|].
    replace (length k + length suffix - length suffix)%nat with (length k)
      by lia.
    by rewrite drop_app_length.
Qed.

Lemma truthy_nonempty (s : pystr) : truthy s = true ↔ s ≠ [].
Proof. by destruct s. Qed.

(** ** Configuration: the model of a language *)

Lemma dict_set_Forall {K V} `{EqDecision K} (P : K * V → Prop) k v
    (d : list (K * V)) :
  P (k, v) → Forall P d → Forall P (dict_set k v d).
Proof.
  intros Hkv Hd. induction Hd as [|[k' v'] d Hx Hd IH]; simpl.
  - by constructor.
  - destruct (decide (k' = k)); by constructor.
Qed.

Lemma load_languages_models (model_size : pystr) items languages :
  Forall (λ b, lc_model b.2 = derive_model b.1 model_size) languages →
  Forall (λ b, lc_model b.2 = derive_model b.1 model_size)
         (load_languages model_size items languages).
Proof.
  revert languages. induction items as [|[lang hotkey] items IH];
    intros languages Hl; simpl; [done|].
  apply IH. by apply dict_set_Forall.
Qed.

(** ** The transcript *)

(** C6.  The transcript is made of the trimmed texts of the segments, in the
    order of emission, with one space between two neighbours: nothing for no
    segment, the trimmed text for one segment, and for more the trimmed
    first text, a space, and the transcript of the rest.  Trimming a text
    cuts white space off both ends and leaves a text that neither begins
    nor ends with white space.  The segments ["  hello "] and ["world "]
    give ["hello world"]. *)
Theorem transcript_trims_and_joins (s s' : pystr) (rest : list pystr) :
  transcript [] = []
  ∧ transcript [s] = strip s
  ∧ transcript (s :: s' :: rest) = strip s ++ [32] ++ transcript (s' :: rest)
  ∧ (∃ l r, s = l ++ strip s ++ r
            ∧ forallb isspace l = true ∧ forallb isspace r = true)
  ∧ match strip s with c :: _ => isspace c = false | [] => True end
  ∧ match rev (strip s) with c :: _ => isspace c = false | [] => True end
  ∧ transcript [str "  hello "; str "world "] = str "hello world".
Proof.
  split; [done|]. split; [done|]. split; [done|].
  split; [apply strip_split|].
  split; [apply strip_head|].
  split; [apply strip_last|].
  by vm_compute.
Qed.

(** ** Hotkey names *)

(** The fallback of [get_hotkey] is taken when it prints its warning. *)
Definition fell_back (E : Env) (key_name : pystr) : Prop :=
  (get_hotkey E key_name).2 ≠ [].

(** C10, as the code has it.  A name whose lower-case form is one
    character long and is no name of [keyboard.Key] becomes the key of that
    character, with no warning and no fallback.  The fallback to [f12] is
    taken exactly by the names whose lower-case form is no name of
    [keyboard.Key] and is not one character long: the longer names and the
    empty name. *)
Theorem get_hotkey_single_character (E : Env) (key_name : pystr) :
  Key_attr E (lower E key_name) = None →
  (length (lower E key_name) = 1%nat →
     get_hotkey E key_name = (KeyCode_from_char (lower E key_name), [])
     ∧ ¬ fell_back E key_name)
  ∧ (length (lower E key_name) ≠ 1%nat →
     (get_hotkey E key_name).1 = Key_ (str "f12") ∧ fell_back E key_name)
  ∧ (fell_back E key_name ↔ length (lower E key_name) ≠ 1%nat).
Proof.
  intros Hattr. unfold fell_back, get_hotkey. rewrite Hattr.
  destruct (length (lower E key_name) =? 1)%nat eqn:Hlen.
  - apply Nat.eqb_eq in Hlen. simpl. split; [|split].
    + intros _. split; [done|]. by intros Hw.
    + intros Hne. by destruct Hne.
    + split; [by intros Hw|]. intros Hne. by destruct Hne.
  - apply Nat.eqb_neq in Hlen. simpl. split; [|split].
    + intros Heq. by destruct Hlen.
    + intros _. split; [done|]. by intros Hw.
    + split; [done|]. intros _. by intros Hw.
Qed.

Lemma get_hotkey_named (E : Env) (key_name : pystr) (k : key) :
  Key_attr E (lower E key_name) = Some k →
  get_hotkey E key_name = (k, []).
Proof. intros H. unfold get_hotkey. by rewrite H. Qed.

Lemma get_hotkey_single_character_witness :
  let E := machine (Ok 0%nat) (Ok []) in
  Key_attr E (lower E (str "A")) = None
  ∧ get_hotkey E (str "A") = (KeyCode_from_char (str "a"), []).
Proof.
  split; [by vm_compute|].
  refine (proj1 (proj1 (get_hotkey_single_character
    (machine (Ok 0%nat) (Ok [])) (str "A") _) _)); by vm_compute.
Defined.

(** C10, as it is stated, fails: the empty name, which [en =] in the
    settings file gives, is no name of [keyboard.Key] and is not longer
    than one character, and it takes the fallback to [f12]. *)
Lemma get_hotkey_empty_name_falls_back :
  let E := machine (Ok 0%nat) (Ok []) in
  ¬ (∀ key_name, fell_back E key_name →
       (2 ≤ length (lower E key_name))%nat
       ∧ Key_attr E (lower E key_name) = None).
Proof.
  intros E H. destruct (H []) as [Hlen _].
  - unfold fell_back. by vm_compute.
  - vm_compute in Hlen. lia.
Qed.

(** ** Reasoning about the methods

    [wp m s Q]: run from [s], the method [m] ends with an outcome and a state
    that satisfy [Q]. *)

Definition wp {A} (m : M A) (s : state) (Q : outcome A → state → Prop) : Prop :=
  Q (m s).1 (m s).2.

(** What holds after [m ≫= k] when [Q] is wanted at the end. *)
Definition after_bind {A B} (k : A → M B) (Q : outcome B → state → Prop)
  : outcome A → state → Prop :=
  λ o s',
    match o with
    | Ret a => wp (k a) s' Q
    | Exc e => Q (Exc e) s'
    | Blocked => Q Blocked s'
    end.

Lemma wp_bind {A B} (m : M A) (k : A → M B) s Q :
  wp m s (after_bind k Q) → wp (m ≫= k) s Q.
Proof.
  unfold wp, after_bind, mbind, M_bind, bind.
  by destruct (m s) as [[a|e|] s'].
Qed.

Lemma wp_mono {A} (m : M A) s (Q Q' : outcome A → state → Prop) :
  wp m s Q → (∀ o s', Q o s' → Q' o s') → wp m s Q'.
Proof. unfold wp. intros H HQ. by apply HQ. Qed.

Lemma wp_ret {A} (a : A) s (Q : outcome A → state → Prop) :
  Q (Ret a) s → wp (mret a) s Q.
Proof. done. Qed.

Lemma wp_raise {A} (e : list N) s (Q : outcome A → state → Prop) :
  Q (Exc e) s → wp (raise e) s Q.
Proof. done. Qed.

Lemma wp_get_self s (Q : outcome Dictation → state → Prop) :
  Q (Ret s.1) s → wp get_self s Q.
Proof. done. Qed.

Lemma wp_get_world s (Q : outcome World → state → Prop) :
  Q (Ret s.2) s → wp get_world s Q.
Proof. done. Qed.

Lemma wp_upd_self f s (Q : outcome unit → state → Prop) :
  Q (Ret tt) (f s.1, s.2) → wp (upd_self f) s Q.
Proof. done. Qed.

Lemma wp_upd_world f s (Q : outcome unit → state → Prop) :
  Q (Ret tt) (s.1, f s.2) → wp (upd_world f) s Q.
Proof. done. Qed.

Lemma wp_print line s (Q : outcome unit → state → Prop) :
  Q (Ret tt) (s.1, emit (Stdout line) s.2) → wp (print line) s Q.
Proof. done. Qed.

Lemma wp_external ev r s (Q : outcome unit → state → Prop) :
  (r = None → Q (Ret tt) (s.1, emit ev s.2)) →
  (∀ e, r = Some e → Q (Exc e) (s.1, emit ev s.2)) →
  wp (external ev r) s Q.
Proof.
  intros H1 H2. unfold external. apply wp_bind, wp_upd_world. simpl.
  destruct r as [e|]; [by apply wp_raise, H2|by apply wp_ret, H1].
Qed.

Lemma wp_try_except {A} (body : M A) handler s (Q : outcome A → state → Prop) :
  wp body s (λ o s',
    match o with
    | Exc e => wp (handler e) s' Q
    | _ => Q o s'
    end) →
  wp (try_except body handler) s Q.
Proof. unfold wp, try_except. by destruct (body s) as [[a|e|] s']. Qed.

Lemma wp_try_finally {A} (body : M A) fin s (Q : outcome A → state → Prop) :
  wp body s (λ o s',
    match o with
    | Blocked => Q Blocked s'
    | _ => wp fin s' (λ o' s'',
             match o' with
             | Ret _ => Q o s''
             | Exc e => Q (Exc e) s''
             | Blocked => Q Blocked s''
             end)
    end) →
  wp (try_finally body fin) s Q.
Proof.
  unfold wp, try_finally.
  destruct (body s) as [[a|e|] s']; simpl; [|
    |done]; by destruct (fin s') as [[[]|e'|] s''].
Qed.

Definition is_notify (ev : event) : Prop :=
  match ev with Notify _ _ _ _ => True | _ => False end.

Arguments wp : simpl never.
Arguments str : simpl never.

Ltac wp_prim :=
  lazymatch goal with
  | |- wp (_ ≫= _) _ _ => apply wp_bind
  | |- wp (ret _) _ _ => apply wp_ret
  | |- wp (raise _) _ _ => apply wp_raise
  | |- wp get_self _ _ => apply wp_get_self
  | |- wp get_world _ _ => apply wp_get_world
  | |- wp (upd_self _) _ _ => apply wp_upd_self
  | |- wp (upd_world _) _ _ => apply wp_upd_world
  | |- wp (print _) _ _ => apply wp_print
  end; cbn [after_bind fst snd].

(** The calls that deliver: the engine, the clipboard, the typing. *)
Definition is_delivery (ev : event) : bool :=
  match ev with
  | Transcribe _ _ _ | Xclip _ | Xdotool _ => true
  | _ => false
  end.

Definition deliveries (evs : list event) : list event :=
  filter (λ ev, is_delivery ev = true) evs.

Lemma deliveries_app evs evs' :
  deliveries (evs ++ evs') = deliveries evs ++ deliveries evs'.
Proof. apply filter_app. Qed.

Lemma deliveries_cons_false ev evs :
  is_delivery ev = false → deliveries (ev :: evs) = deliveries evs.
Proof.
  intros H. unfold deliveries. rewrite filter_cons_False; [done|].
  by rewrite H.
Qed.

Lemma deliveries_elem ev evs :
  ev ∈ evs → is_delivery ev = true → ev ∈ deliveries evs.
Proof. intros. unfold deliveries. by apply list_elem_of_filter. Qed.

Lemma deliveries_none evs :
  Forall (λ ev, is_delivery ev = false) evs → deliveries evs = [].
Proof.
  induction 1 as [|ev evs Hev _ IH]; [done|].
  by rewrite deliveries_cons_false.
Qed.

(** What the code around the [try] block may do: it keeps the session
    fields and the files, and makes no delivering call. *)
Definition around (s s' : state) : Prop :=
  recording s'.1 = recording s.1
  ∧ active_language s'.1 = active_language s.1
  ∧ active_model_name s'.1 = active_model_name s.1
  ∧ temp_file s'.1 = temp_file s.1
  ∧ files s'.2 = files s.2
  ∧ ∃ new, log s'.2 = log s.2 ++ new ∧ deliveries new = [].

Lemma around_refl s : around s s.
Proof. repeat split. exists []. by rewrite app_nil_r. Qed.

Lemma around_trans s1 s2 s3 : around s1 s2 → around s2 s3 → around s1 s3.
Proof.
  intros (?&?&?&?&?& n1 & Hl1 & Hd1) (?&?&?&?&?& n2 & Hl2 & Hd2).
  repeat split; try congruence.
  exists (n1 ++ n2). split.
  - by rewrite Hl2, Hl1, app_assoc.
  - by rewrite deliveries_app, Hd1, Hd2.
Qed.

Lemma around_emit s ev :
  is_delivery ev = false → around s (s.1, emit ev s.2).
Proof.
  intros H. repeat split. exists [ev]. split; [done|].
  by rewrite deliveries_cons_false.
Qed.



Definition is_stdout (ev : event) : Prop :=
  match ev with Stdout _ => True | _ => False end.

(** A world that differs only in the cache entries, the threads and the
    console. *)
Definition loader_frame (w w' : World) : Prop :=
  files w' = files w ∧ procs w' = procs w
  ∧ ∃ new, log w' = log w ++ new ∧ Forall is_stdout new.

Lemma loader_frame_refl w : loader_frame w w.
Proof. repeat split. exists []. by rewrite app_nil_r. Qed.

Lemma loader_frame_trans w1 w2 w3 :
  loader_frame w1 w2 → loader_frame w2 w3 → loader_frame w1 w3.
Proof.
  intros (?&?& n1 & Hl1 & H1) (?&?& n2 & Hl2 & H2).
  repeat split; try congruence. exists (n1 ++ n2). split.
  - by rewrite Hl2, Hl1, app_assoc.
  - by apply Forall_app.
Qed.

Lemma loader_frame_emit w line : loader_frame w (emit (Stdout line) w).
Proof. repeat split. exists [Stdout line]. split; [done|]. by constructor. Qed.

Lemma loader_frame_heap f w : loader_frame w (set_heap f w).
Proof. repeat split. exists []. by rewrite app_nil_r. Qed.

Lemma loader_frame_threads f w : loader_frame w (set_threads f w).
Proof. repeat split. exists []. by rewrite app_nil_r. Qed.

Section Loader_facts.
Variable E : Env.
Variable G : Globals.

Lemma _load_model_step_frame d t w t' w' :
  _load_model_step E G d t w = Some (t', w') → loader_frame w w'.
Proof.
  unfold _load_model_step. intros H.
  destruct (t_pc t) as [|l|l|].
  - destruct (models d !! t_model_name t); simplify_eq.
    + apply loader_frame_emit.
    + apply loader_frame_refl.
  - destruct (WhisperModel E _ _ _) as [h|e]; simplify_eq.
    + eapply loader_frame_trans; [apply loader_frame_heap|].
      apply loader_frame_emit.
    + eapply loader_frame_trans; [apply loader_frame_heap|].
      eapply loader_frame_trans; [apply loader_frame_emit|].
      destruct (_ || _); [apply loader_frame_emit|apply loader_frame_refl].
  - simplify_eq. apply loader_frame_heap.
  - done.
Qed.

Lemma loader_action_frame i s :
  (loader_action E G i s).1 = s.1
  ∧ loader_frame s.2 (loader_action E G i s).2.
Proof.
  destruct s as [d w]. unfold loader_action.
  destruct (threads w !! i) as [t|]; [|split; [done|apply loader_frame_refl]].
  destruct (_load_model_step E G d t w) as [[t' w']|] eqn:Hs;
    [|split; [done|apply loader_frame_refl]].
  split; [done|]. simpl. eapply loader_frame_trans.
  - by eapply _load_model_step_frame.
  - apply loader_frame_threads.
Qed.

Lemma run_loader_frame i s :
  (run_loader E G i s).1 = s.1 ∧ loader_frame s.2 (run_loader E G i s).2.
Proof.
  unfold run_loader.
  destruct (loader_action_frame i s) as [H1 F1].
  destruct (loader_action_frame i (loader_action E G i s)) as [H2 F2].
  destruct (loader_action_frame i
    (loader_action E G i (loader_action E G i s))) as [H3 F3].
  split; [congruence|].
  eapply loader_frame_trans; [exact F1|].
  eapply loader_frame_trans; [exact F2|exact F3].
Qed.

Lemma run_loaders_frame js s :
  (foldl (λ s i, run_loader E G i s) s js).1 = s.1
  ∧ loader_frame s.2 (foldl (λ s i, run_loader E G i s) s js).2.
Proof.
  revert s. induction js as [|i js IH]; intros s; simpl.
  - split; [done|apply loader_frame_refl].
  - destruct (run_loader_frame i s) as [H1 F1].
    destruct (IH (run_loader E G i s)) as [H2 F2].
    split; [congruence|]. by eapply loader_frame_trans.
Qed.

Lemma around_loader_frame d w w' : loader_frame w w' → around (d, w) (d, w').
Proof.
  intros (Hf & _ & new & Hl & Hnew). repeat split; [done|].
  exists new. split; [done|]. apply deliveries_none.
  eapply Forall_impl; [exact Hnew|]. by intros [].
Qed.

(** A wait leaves the object alone and returns a loaded entry or blocks. *)
Lemma Event_wait_around l s :
  wp (Event_wait E G l) s (λ o s',
    around s s' ∧ s'.1 = s.1
    ∧ match o with
      | Ret e => heap s'.2 !! l = Some e ∧ e_loaded e = true
      | Exc _ => False
      | Blocked => True
      end).
Proof.
  destruct s as [d w]. unfold wp, Event_wait. cbn [fst snd].
  destruct (heap w !! l) as [e|] eqn:He; cbn [fst snd].
  2: { split; [apply around_refl|done]. }
  destruct (e_loaded e) eqn:Hl; cbn [fst snd].
  { split; [apply around_refl|done]. }
  destruct (run_loaders_frame (holders d l 0 (threads w)) (d, w)) as [Hd Hf].
  destruct (foldl _ _ _) as [d' w']. cbn [fst snd] in *. subst d'.
  pose proof (around_loader_frame d w w' Hf) as Ha.
  destruct (heap w' !! l) as [e'|] eqn:He'; cbn [fst snd]; [|done].
  destruct (e_loaded e') eqn:Hl'; cbn [fst snd]; done.
Qed.

Lemma _get_or_load_model_around model_name s :
  wp (_get_or_load_model model_name) s (λ o s',
    around s s' ∧ ∃ l, o = Ret l ∧ models s'.1 !! model_name = Some l).
Proof.
  destruct s as [d w]. unfold _get_or_load_model.
  wp_prim. wp_prim.
  destruct (models d !! model_name) as [l|] eqn:Hm.
  - wp_prim. split; [apply around_refl|eauto].
  - repeat wp_prim. split.
    + repeat split. exists [Thread_start model_name]. by split.
    + eexists. split; [done|]. simpl. apply lookup_insert_eq.
Qed.

End Loader_facts.

(** ** The [try] block of [stop_recording] *)

Definition kwargs_with (hint : option pystr) : transcribe_kwargs :=
  {| beam_size := 5; vad_filter := true; language := hint |}.

Definition no_speech_line : pystr := str "No speech detected".

Definition no_speech_notice : event :=
  Notify (str "No speech detected") (str "Try speaking louder")
         (str "dialog-warning") 2000.

Section Delivery_facts.
Variable E : Env.
Variable G : Globals.

(** The delivering calls among the events of one [stop_recording] that
    started in [s]: none; or one engine call that raised; or one engine
    call with an empty transcript, and the no-speech report; or one engine
    call with a transcript that is not empty, the clipboard, and the typing
    when it is switched on and the clipboard call has returned. *)
Variant delivered (s : state) (new : list event) : Prop :=
  | Not_called :
      deliveries new = [] → delivered s new
  | Call_raised hint h p e :
      (language_kwarg s).1 = Ret hint →
      engine_transcribe E h p (kwargs_with hint) = Raise e →
      deliveries new = [Transcribe h p (kwargs_with hint)] →
      delivered s new
  | Silence hint h p segments :
      (language_kwarg s).1 = Ret hint →
      engine_transcribe E h p (kwargs_with hint) = Ok segments →
      transcript segments = [] →
      deliveries new = [Transcribe h p (kwargs_with hint)] →
      Stdout no_speech_line ∈ new →
      (NOTIFICATIONS G = true → no_speech_notice ∈ new) →
      delivered s new
  | Speech hint h p segments rest :
      (language_kwarg s).1 = Ret hint →
      engine_transcribe E h p (kwargs_with hint) = Ok segments →
      transcript segments ≠ [] →
      deliveries new
        = Transcribe h p (kwargs_with hint) :: Xclip (transcript segments)
          :: rest →
      rest = [] ∨ (AUTO_TYPE G = true ∧ rest = [Xdotool (transcript segments)]) →
      delivered s new.

Lemma language_kwarg_state s : (language_kwarg s).2 = s.
Proof.
  destruct s as [d w]. unfold language_kwarg, mbind, M_bind, bind. simpl.
  destruct (active_language d) as [lang|]; [|done].
  destruct (truthy lang && negb (pystr_eqb lang (str "auto"))); [|done].
  destruct (active_model_name d) as [m|]; [|done].
  by destruct (negb (endswith m (str ".en"))).
Qed.

Lemma language_kwarg_fields s s' :
  active_language s'.1 = active_language s.1 →
  active_model_name s'.1 = active_model_name s.1 →
  (language_kwarg s').1 = (language_kwarg s).1.
Proof.
  destruct s as [d w], s' as [d' w']. simpl. intros Hl Hm.
  unfold language_kwarg, mbind, M_bind, bind. simpl. rewrite Hl, Hm.
  destruct (active_language d) as [lang|]; [|done].
  destruct (truthy lang && negb (pystr_eqb lang (str "auto"))); [|done].
  destruct (active_model_name d) as [m|]; [|done].
  by destruct (negb (endswith m (str ".en"))).
Qed.

Lemma delivered_fields s s' new :
  active_language s'.1 = active_language s.1 →
  active_model_name s'.1 = active_model_name s.1 →
  delivered s' new → delivered s new.
Proof.
  intros Hl Hm Hd. pose proof (language_kwarg_fields s s' Hl Hm) as Heq.
  destruct Hd as [H|hint h p e H1 H2 H3|hint h p segs H1 H2 H3 H4 H5 H6
                  |hint h p segs rest H1 H2 H3 H4 H5].
  - by apply Not_called.
  - eapply Call_raised; eauto. by rewrite <- Heq.
  - eapply Silence; eauto. by rewrite <- Heq.
  - eapply Speech; eauto. by rewrite <- Heq.
Qed.

(** Events without a delivering call before and after change nothing. *)
Lemma delivered_around s pre new post :
  deliveries pre = [] → deliveries post = [] →
  delivered s new → delivered s (pre ++ new ++ post).
Proof.
  intros Hpre Hpost Hd.
  assert (deliveries (pre ++ new ++ post) = deliveries new) as Heq.
  { by rewrite !deliveries_app, Hpre, Hpost, app_nil_r. }
  assert (∀ ev, ev ∈ new → ev ∈ pre ++ new ++ post) as Hin.
  { intros ev Hev. rewrite !elem_of_app. auto. }
  destruct Hd as [H|hint h p e H1 H2 H3|hint h p segs H1 H2 H3 H4 H5 H6
                  |hint h p segs rest H1 H2 H3 H4 H5].
  - apply Not_called. by rewrite Heq.
  - eapply Call_raised; eauto. by rewrite Heq.
  - eapply Silence; eauto. by rewrite Heq.
  - eapply Speech; eauto. by rewrite Heq.
Qed.

Definition notified (ev : event) (s : state) : state :=
  (s.1, if NOTIFICATIONS G then emit ev s.2 else s.2).

Lemma wp_notify_event title message icon timeout s
    (Q : outcome unit → state → Prop) :
  Q (Ret tt) (notified (Notify title message icon timeout) s) →
  (∀ e, Q (Exc e) (notified (Notify title message icon timeout) s)) →
  wp (notify E G title message icon timeout) s Q.
Proof.
  intros HR HE. unfold notify, notified in *.
  destruct (NOTIFICATIONS G); simpl.
  - apply wp_external; [intros _; exact HR|intros e _; apply HE].
  - apply wp_ret. by destruct s.
Qed.

Lemma around_notified ev s : is_notify ev → around s (notified ev s).
Proof.
  intros Hev. unfold notified. destruct (NOTIFICATIONS G).
  - apply around_emit. by destruct ev.
  - destruct s. apply around_refl.
Qed.

Definition body_post (s : state) (s' : state) : Prop :=
  s'.1 = s.1 ∧ files s'.2 = files s.2
  ∧ ∃ new, log s'.2 = log s.2 ++ new ∧ delivered s new.

Ltac body_leaf :=
  (split; [done|]);
  unfold body_post, notified; cbn [fst snd];
  destruct (NOTIFICATIONS G) eqn:?;
  (split; [reflexivity|]); (split; [reflexivity|]);
  eexists; (split; [cbn [log emit]; rewrite <- ?app_assoc; reflexivity|]).

Lemma transcribe_and_deliver_spec model_info s :
  wp (transcribe_and_deliver E G model_info) s
     (λ o s', o ≠ Blocked ∧ body_post s s').
Proof.
  destruct s as [d w]. unfold transcribe_and_deliver.
  apply wp_bind. unfold wp at 1.
  pose proof (language_kwarg_state (d, w)) as Hst.
  destruct (language_kwarg (d, w)) as [o s1] eqn:Hk. simpl in Hst. subst s1.
  assert ((language_kwarg (d, w)).1 = o) as Hk' by (by rewrite Hk).
  assert (body_post (d, w) (d, w)) as Hnone.
  { repeat split. exists []. split; [by rewrite app_nil_r|].
    by apply Not_called. }
  destruct o as [hint|e|]; cbn [after_bind fst snd]; [|by split|].
  2: { exfalso. revert Hk. unfold language_kwarg, mbind, M_bind, bind.
       cbn [get_self fst snd].
       destruct (active_language d) as [lang|]; [|done].
       destruct (truthy lang && negb (pystr_eqb lang (str "auto"))); [|done].
       destruct (active_model_name d) as [m|]; [|done].
       by destruct (negb (endswith m (str ".en"))). }
  apply wp_bind. destruct (e_model model_info) as [h|]; wp_prim;
    [|by split].
  repeat wp_prim.
  destruct (temp_file d) as [p|]; wp_prim; [|by split].
  repeat wp_prim. fold (kwargs_with hint).
  destruct (engine_transcribe E h p (kwargs_with hint)) as [segments|e]
    eqn:Heng; wp_prim.
  2: { body_leaf; by eapply Call_raised. }
  destruct (truthy (transcript segments)) eqn:Htext.
  - apply truthy_nonempty in Htext.
    apply wp_bind, wp_external; cbn [after_bind fst snd].
    2: { intros e _. body_leaf; eapply Speech; eauto. }
    intros _. apply wp_bind. destruct (AUTO_TYPE G) eqn:Hauto.
    + apply wp_external; cbn [after_bind fst snd].
      2: { intros e _. body_leaf; eapply Speech; eauto. }
      intros _. wp_prim. wp_prim.
      apply wp_notify_event; [|intros e]; body_leaf; eapply Speech; eauto.
    + wp_prim. wp_prim. wp_prim.
      apply wp_notify_event; [|intros e]; body_leaf; eapply Speech; eauto.
  - assert (transcript segments = []) as Hempty.
    { destruct (transcript segments); [done|discriminate]. }
    wp_prim. wp_prim.
    apply wp_notify_event; [|intros e]; body_leaf;
      (eapply Silence; eauto);
      first [ by (intros; congruence)
            | by (intros; unfold no_speech_line, no_speech_notice;
                  rewrite !elem_of_app, !list_elem_of_singleton; auto) ].
Qed.

End Delivery_facts.

(** ** [stop_recording] as a whole *)

Section Stop_facts.
Variable E : Env.
Variable G : Globals.

(** The end of [stop_recording]: the [except] and [finally] clauses keep the
    session fields, make no delivering call, and take at most the temporary
    file away. *)
Definition finishing (s s' : state) : Prop :=
  recording s'.1 = recording s.1
  ∧ active_language s'.1 = active_language s.1
  ∧ active_model_name s'.1 = active_model_name s.1
  ∧ temp_file s'.1 = temp_file s.1
  ∧ (files s'.2 = files s.2
     ∨ ∃ p, temp_file s.1 = Some p ∧ files s'.2 = files s.2 ∖ {[p]})
  ∧ ∃ new, log s'.2 = log s.2 ++ new ∧ deliveries new = [].

Lemma around_finishing s1 s2 s3 :
  around s1 s2 → finishing s2 s3 → finishing s1 s3.
Proof.
  intros (Hr & Hl & Hm & Ht & Hf & n1 & Hl1 & Hd1)
         (Hr' & Hl' & Hm' & Ht' & Hf' & n2 & Hl2 & Hd2).
  unfold finishing. rewrite <- Hr, <- Hl, <- Hm, <- Ht, <- Hf.
  repeat split; try done.
  exists (n1 ++ n2). split.
  - by rewrite Hl2, Hl1, app_assoc.
  - by rewrite deliveries_app, Hd1, Hd2.
Qed.

Lemma cleanup_temp_file_spec s :
  wp cleanup_temp_file s (λ o s',
    o = Ret tt ∧ finishing s s'
    ∧ ∀ p, temp_file s.1 = Some p → p ∉ files s'.2).
Proof.
  destruct s as [d w]. unfold cleanup_temp_file. repeat wp_prim.
  assert (finishing (d, w) (d, w)) as Hrefl.
  { repeat split; [by left|]. exists []. by rewrite app_nil_r. }
  destruct (temp_file d) as [p|] eqn:Hp.
  - destruct (bool_decide (p ∈ files w)) eqn:Hin.
    + repeat wp_prim. split; [done|]. split.
      * repeat split; [right; by exists p|]. exists [Unlink p]. by split.
      * intros p' Hp'. cbn [fst snd] in *. simplify_eq. simpl.
        rewrite elem_of_difference, elem_of_singleton. by intros [_ Hne].
    + wp_prim. apply bool_decide_eq_false in Hin.
      split; [done|]. split; [done|].
      intros p' Hp'. cbn [fst snd] in *. by simplify_eq.
  - wp_prim. split; [done|]. split; [done|].
    intros p' Hp'. cbn [fst snd] in *. by simplify_eq.
Qed.

(** What [stop_recording] leaves behind when a recording was running. *)
Definition stop_post (s s' : state) : Prop :=
  recording s'.1 = false
  ∧ active_language s'.1 = active_language s.1
  ∧ active_model_name s'.1 = active_model_name s.1
  ∧ temp_file s'.1 = temp_file s.1
  ∧ (files s'.2 = files s.2
     ∨ ∃ p, temp_file s.1 = Some p ∧ files s'.2 = files s.2 ∖ {[p]})
  ∧ ∃ new, log s'.2 = log s.2 ++ new ∧ delivered E G s new
           ∧ (deliveries new ≠ [] →
              ∀ p, temp_file s.1 = Some p → p ∉ files s'.2).

Lemma stop_post_around s s' :
  recording s.1 = false → around s s' → stop_post s s'.
Proof.
  intros Hrec (Hr & Hl & Hm & Ht & Hf & new & Hlog & Hd).
  unfold stop_post. rewrite Hr, Hl, Hm, Ht, Hf. repeat split; [done|by left|].
  exists new. split; [done|]. split; [by apply Not_called|done].
Qed.

Lemma stop_post_body s a b c :
  recording s.1 = false →
  around s a → body_post E G a b → finishing b c →
  (∀ p, temp_file b.1 = Some p → p ∉ files c.2) →
  stop_post s c.
Proof.
  intros Hrec (Hr & Hl & Hm & Ht & Hf & pre & Hlog & Hpre)
    (Hd & Hf' & new & Hlog' & Hnew)
    (Hr'' & Hl'' & Hm'' & Ht'' & Hf'' & post & Hlog'' & Hpost) Hgone.
  unfold stop_post. rewrite Hr'', Hl'', Hm'', Ht'', Hd, Hr, Hl, Hm, Ht.
  repeat split; try done.
  - rewrite Hd, Ht, Hf', Hf in Hf''. exact Hf''.
  - exists (pre ++ new ++ post). split.
    + by rewrite Hlog'', Hlog', Hlog, <- !app_assoc.
    + split.
      * apply delivered_around; [done..|].
        by apply (delivered_fields E G s a).
      * intros _ p Hp. apply Hgone. by rewrite Hd, Ht.
Qed.

Lemma wp_print_around line s (Q : outcome unit → state → Prop) :
  (∀ s', around s s' → Q (Ret tt) s') → wp (print line) s Q.
Proof. intros H. apply wp_print, H. by apply around_emit. Qed.

Lemma wp_notify_around title message icon timeout s
    (Q : outcome unit → state → Prop) :
  (∀ s', around s s' → Q (Ret tt) s') →
  (∀ e s', around s s' → Q (Exc e) s') →
  wp (notify E G title message icon timeout) s Q.
Proof.
  intros HR HE.
  apply wp_notify_event; [apply HR|intros e; apply HE];
    by apply around_notified.
Qed.

Lemma report_error_around e s :
  wp (report_error E G e) s (λ o s', o ≠ Blocked ∧ around s s').
Proof.
  unfold report_error. apply wp_bind, wp_print_around. intros s1 H1.
  cbn [after_bind]. apply wp_notify_around.
  - intros s2 H2. split; [done|]. by eapply around_trans.
  - intros e' s2 H2. split; [done|]. by eapply around_trans.
Qed.

Lemma stop_recording_spec s :
  recording s.1 = true →
  wp (stop_recording E G) s (λ _ s', stop_post s s').
Proof.
  destruct s as [d w]. cbn [fst]. intros Hrec. unfold stop_recording.
  wp_prim. wp_prim. rewrite Hrec. cbn [negb]. wp_prim. wp_prim.
  set (s1 := (set_recording false d, w)).
  assert (∀ s', stop_post s1 s' → stop_post (d, w) s') as Hback.
  { intros s' (?&?&?&?&?& new & ? & Hnew & Hgone). repeat split; try done.
    exists new. split; [done|].
    split; [by apply (delivered_fields E G (d, w) s1)|done]. }
  eapply wp_mono; [|intros o s' H; apply Hback, H].
  assert (recording s1.1 = false) as Hrec1 by done.
  clear Hback.
  (* the capture process is stopped *)
  apply wp_bind.
  eapply (wp_mono _ _ (λ o s', o = Ret tt ∧ around s1 s')).
  { destruct (record_process d) as [pid|]; repeat wp_prim.
    - split; [done|]. repeat split. exists [Terminate pid]. by split.
    - split; [done|]. apply around_refl. }
  intros o s2 [-> Ha]. cbn [after_bind].
  (* the two reports *)
  apply wp_bind, wp_print_around. intros s3 H3.
  apply (around_trans _ _ _ Ha) in H3. clear Ha s2. cbn [after_bind].
  apply wp_bind, wp_notify_around; intros; cbn [after_bind];
    [|apply stop_post_around; [done|by eapply around_trans]].
  assert (around s1 s') as Ha by (by eapply around_trans).
  clear H H3 s3.
  (* the model *)
  wp_prim. wp_prim. apply wp_bind.
  eapply wp_mono; [apply _get_or_load_model_around|].
  intros o s4 (H4 & l & -> & _). cbn [after_bind].
  apply (around_trans _ _ _ Ha) in H4. clear Ha s'.
  apply wp_bind. eapply wp_mono; [apply Event_wait_around|].
  intros o s5 (H5 & _ & Ho). apply (around_trans _ _ _ H4) in H5.
  clear H4 s4. destruct o as [model_info|e|]; cbn [after_bind];
    [|done|by apply stop_post_around].
  destruct (error_set model_info).
  - (* the model failed to load *)
    apply wp_bind, wp_print_around. intros s6 H6. cbn [after_bind].
    apply wp_notify_around; [intros s7 H7|intros e s7 H7];
      (apply stop_post_around; [done|]);
      exact (around_trans _ _ _ H5 (around_trans _ _ _ H6 H7)).
  - (* the [try] block *)
    apply wp_try_finally, wp_try_except.
    eapply wp_mono; [apply transcribe_and_deliver_spec|].
    intros o s6 [Ho6 Hbody].
    assert (∀ s7 (Q := λ (_ : outcome unit) s', stop_post s1 s'),
      around s6 s7 →
      wp cleanup_temp_file s7 (λ o' s'',
        match o' with
        | Ret _ => stop_post s1 s''
        | Exc e => stop_post s1 s''
        | Blocked => stop_post s1 s''
        end)) as Hfin.
    { intros s7 _ H7. eapply wp_mono; [apply cleanup_temp_file_spec|].
      intros o' s8 (_ & H8 & Hgone).
      assert (stop_post s1 s8); [|by destruct o'].
      eapply stop_post_body; [done|exact H5|exact Hbody| |].
      - by eapply around_finishing.
      - intros p Hp. apply Hgone.
        destruct H7 as (_ & _ & _ & Ht7 & _). by rewrite Ht7. }
    destruct o as [[]|e|]; [| |done].
    + apply Hfin, around_refl.
    + eapply wp_mono; [apply report_error_around|].
      intros o s7 [Ho7 H7]. destruct o; [by apply Hfin..|done].
Qed.

End Stop_facts.

(** ** The events of one [stop_recording] *)

Section Event_facts.
Variable E : Env.
Variable G : Globals.

Lemma new_events_app (s s' : state) new :
  log s'.2 = log s.2 ++ new → new_events s s' = new.
Proof. intros H. unfold new_events. rewrite H. apply drop_app_length. Qed.

Lemma stop_recording_idle s :
  recording s.1 = false → stop_recording E G s = (Ret tt, s).
Proof.
  destruct s as [d w]. cbn [fst]. intros Hrec.
  unfold stop_recording, mbind, M_bind, bind, get_self. cbn [fst snd].
  by rewrite Hrec.
Qed.

Lemma start_recording_busy language model_name hotkey s :
  recording s.1 = true →
  start_recording E G language model_name hotkey s = (Ret tt, s).
Proof.
  destruct s as [d w]. cbn [fst]. intros Hrec.
  unfold start_recording, mbind, M_bind, bind, get_self. cbn [fst snd].
  by rewrite Hrec.
Qed.

Lemma stop_recording_events s :
  delivered E G s (new_events s (stop_recording E G s).2).
Proof.
  destruct (recording s.1) eqn:Hrec.
  - pose proof (stop_recording_spec E G s Hrec) as H. unfold wp in H.
    destruct H as (_&_&_&_&_& new & Hlog & Hnew & _).
    by rewrite (new_events_app _ _ _ Hlog).
  - rewrite stop_recording_idle by done. cbn [snd].
    rewrite (new_events_app s s []) by (by rewrite app_nil_r).
    by apply Not_called.
Qed.

Lemma elem_of_deliveries ev evs : ev ∈ deliveries evs → ev ∈ evs.
Proof. unfold deliveries. rewrite list_elem_of_filter. by intros [_ H]. Qed.

(** The one engine call of a [stop_recording], when there is one. *)
Lemma delivered_call s new h p kw :
  delivered E G s new → Transcribe h p kw ∈ new →
  ∃ hint rest, (language_kwarg s).1 = Ret hint ∧ kw = kwargs_with hint
               ∧ deliveries new = Transcribe h p kw :: rest
               ∧ ∀ ev, ev ∈ rest → ∃ t, ev = Xclip t ∨ ev = Xdotool t.
Proof.
  intros Hd Hin. apply deliveries_elem in Hin; [|done].
  destruct Hd as [H|hint h' p' e H1 H2 H3|hint h' p' segs H1 H2 H3 H4 H5 H6
                  |hint h' p' segs rest H1 H2 H3 H4 H5].
  - rewrite H in Hin. by apply elem_of_nil in Hin.
  - rewrite H3 in Hin. apply list_elem_of_singleton in Hin. simplify_eq.
    exists hint, []. repeat split; try done. intros ev Hev.
    by apply elem_of_nil in Hev.
  - rewrite H4 in Hin. apply list_elem_of_singleton in Hin. simplify_eq.
    exists hint, []. repeat split; try done. intros ev Hev.
    by apply elem_of_nil in Hev.
  - rewrite H4 in Hin.
    assert (Transcribe h p kw = Transcribe h' p' (kwargs_with hint)) as Heq.
    { apply elem_of_cons in Hin as [Heq|Hin]; [done|].
      apply elem_of_cons in Hin as [Heq|Hin]; [done|].
      destruct H5 as [->|[_ ->]].
      - by apply elem_of_nil in Hin.
      - by apply list_elem_of_singleton in Hin. }
    simplify_eq. eexists hint, _. repeat split; try done.
    intros ev Hev. apply elem_of_cons in Hev as [->|Hev]; [eauto|].
    destruct H5 as [->|[_ ->]].
    + by apply elem_of_nil in Hev.
    + apply list_elem_of_singleton in Hev. eauto.
Qed.


(** C7.  [start_recording] while a recording runs returns at once and leaves
    the object and the world as they were: no process is started, no file
    made, no event logged, and the active language, the active model and the
    temporary file stay.  [stop_recording] while no recording runs returns
    at once, with no value, and leaves the object and the world as they
    were: no process is ended, no file removed, no event logged. *)
Theorem session_gating (language model_name : pystr) (hotkey : key)
    (d : Dictation) (w : World) :
  (recording d = true →
     start_recording E G language model_name hotkey (d, w) = (Ret tt, (d, w)))
  ∧ (recording d = false → stop_recording E G (d, w) = (Ret tt, (d, w))).
Proof.
  split; intros Hrec.
  - by apply start_recording_busy.
  - by apply stop_recording_idle.
Qed.

(** C3, as the code has it.  A key-up event while a recording runs ends the
    recording when the key is any bound key, whichever key started the
    recording: [on_release] is then [stop_recording], and the object is no
    longer recording afterwards.  A key-up event for an unbound key, or
    while no recording runs, leaves the object and the world as they
    were. *)
Theorem on_release_bound_key (k : key) (s : state) :
  (dict_in k (HOTKEY_TO_LANG G) = true → recording s.1 = true →
     on_release E G k s = stop_recording E G s
     ∧ recording (on_release E G k s).2.1 = false)
  ∧ (dict_in k (HOTKEY_TO_LANG G) = false ∨ recording s.1 = false →
     on_release E G k s = (Ret tt, s)).
Proof.
  destruct s as [d w]. cbn [fst].
  unfold on_release, mbind, M_bind, bind, get_self. cbn [fst snd]. split.
  - intros -> Hrec. rewrite Hrec. cbn [andb]. split; [done|].
    pose proof (stop_recording_spec E G (d, w) Hrec) as H.
    unfold wp in H. by destruct H as [H _].
  - intros [Hk | Hrec]; rewrite ?Hk, ?Hrec; [done|]. by rewrite andb_false_r.
Qed.

(** The language argument of a [transcribe] call of a [stop_recording],
    from any state: it is the active language or is left out, and it is
    given if and only if the active language is not empty, is not [auto],
    and the active model name does not end with [.en]. *)
Lemma language_hint_of_call (s : state) (lang m : pystr) (h p : nat)
    (kw : transcribe_kwargs) :
  active_language s.1 = Some lang →
  active_model_name s.1 = Some m →
  Transcribe h p kw ∈ new_events s (stop_recording E G s).2 →
  (language kw = Some lang ∨ language kw = None)
  ∧ (language kw ≠ None
     ↔ lang ≠ [] ∧ lang ≠ str "auto" ∧ ¬ (str ".en" `suffix_of` m)).
Proof.
  intros Hlang Hm Hin.
  destruct (delivered_call s _ h p kw (stop_recording_events s) Hin)
    as (hint & _ & Hk & -> & _).
  destruct s as [d w]. cbn [fst] in *.
  unfold language_kwarg, mbind, M_bind, bind, get_self in Hk.
  cbn [fst snd] in Hk. rewrite Hlang, Hm in Hk. cbn [language kwargs_with].
  destruct (truthy lang) eqn:Ht.
  2: { cbn [andb] in Hk. unfold ret in Hk. cbn [fst] in Hk. simplify_eq.
       split; [by right|].
       split; [done|]. intros (Hne & _). destruct lang; done. }
  apply truthy_nonempty in Ht.
  destruct (pystr_eqb lang (str "auto")) eqn:Ha.
  { apply pystr_eqb_true in Ha. cbn [andb negb] in Hk.
    unfold ret in Hk. cbn [fst] in Hk. simplify_eq.
    split; [by right|]. split; [done|]. by intros (_ & Hne & _). }
  apply pystr_eqb_false in Ha. cbn [andb negb] in Hk.
  destruct (endswith m (str ".en")) eqn:He; cbn [negb] in Hk;
    unfold ret in Hk; cbn [fst] in Hk; simplify_eq.
  - apply endswith_suffix in He. split; [by right|].
    split; [done|]. by intros (_ & _ & Hne).
  - split; [by left|]. split; [|done]. intros _.
    repeat split; try done. intros Hs. apply endswith_suffix in Hs.
    congruence.
Qed.

(** C9.  When the one engine call of a [stop_recording] returns segments
    whose transcript is empty, the no-speech line is printed, the no-speech
    notice is sent when notices are on, and neither the clipboard nor the
    typing is called.  The clipboard and the typing are called only with
    the transcript of an engine call of the same [stop_recording], and only
    when that transcript is not empty. *)
Theorem no_speech_no_delivery (s : state) :
  let new := new_events s (stop_recording E G s).2 in
  (∀ h p kw segments,
     Transcribe h p kw ∈ new →
     engine_transcribe E h p kw = Ok segments →
     transcript segments = [] →
     Stdout no_speech_line ∈ new
     ∧ (NOTIFICATIONS G = true → no_speech_notice ∈ new)
     ∧ (∀ t, ¬ (Xclip t ∈ new) ∧ ¬ (Xdotool t ∈ new)))
  ∧ (∀ t, Xclip t ∈ new ∨ Xdotool t ∈ new →
     t ≠ []
     ∧ ∃ h p kw segments,
         Transcribe h p kw ∈ new
         ∧ engine_transcribe E h p kw = Ok segments
         ∧ t = transcript segments).
Proof.
  intros new. pose proof (stop_recording_events s) as Hd. fold new in Hd.
  clearbody new. split.
  - intros h p kw segments Hin Heng Hempty.
    apply deliveries_elem in Hin; [|done].
    destruct Hd as [H|hint h' p' e H1 H2 H3|hint h' p' segs H1 H2 H3 H4 H5 H6
                    |hint h' p' segs rest H1 H2 H3 H4 H5].
    + rewrite H in Hin. by apply elem_of_nil in Hin.
    + rewrite H3 in Hin. apply list_elem_of_singleton in Hin. simplify_eq.
      congruence.
    + repeat split; try done.
      * intros Hx. apply deliveries_elem in Hx; [|done].
        rewrite H4 in Hx. by apply list_elem_of_singleton in Hx.
      * intros Hx. apply deliveries_elem in Hx; [|done].
        rewrite H4 in Hx. by apply list_elem_of_singleton in Hx.
    + exfalso. rewrite H4 in Hin.
      assert (Transcribe h p kw = Transcribe h' p' (kwargs_with hint)).
      { apply elem_of_cons in Hin as [Heq|Hin]; [done|].
        apply elem_of_cons in Hin as [Heq|Hin]; [done|].
        destruct H5 as [->|[_ ->]].
        - by apply elem_of_nil in Hin.
        - by apply list_elem_of_singleton in Hin. }
      simplify_eq. congruence.
  - intros t Ht.
    assert (Xclip t ∈ deliveries new ∨ Xdotool t ∈ deliveries new) as Ht'.
    { destruct Ht as [Ht|Ht]; [left|right]; by apply deliveries_elem. }
    clear Ht.
    destruct Hd as [H|hint h' p' e H1 H2 H3|hint h' p' segs H1 H2 H3 H4 H5 H6
                    |hint h' p' segs rest H1 H2 H3 H4 H5].
    + rewrite H in Ht'. destruct Ht' as [Ht|Ht]; by apply elem_of_nil in Ht.
    + rewrite H3 in Ht'.
      destruct Ht' as [Ht|Ht]; by apply list_elem_of_singleton in Ht.
    + rewrite H4 in Ht'.
      destruct Ht' as [Ht|Ht]; by apply list_elem_of_singleton in Ht.
    + assert (t = transcript segs) as ->.
      { rewrite H4 in Ht'.
        destruct H5 as [->|[_ ->]]; destruct Ht' as [Ht|Ht];
          repeat (apply elem_of_cons in Ht as [Ht|Ht]; simplify_eq; try done);
          by apply elem_of_nil in Ht. }
      split; [done|]. exists h', p', (kwargs_with hint), segs.
      split; [|done]. apply elem_of_deliveries. rewrite H4. by left.
Qed.

End Event_facts.

(** ** The methods on the concrete machine *)

Lemma session_gating_witness :
  let E := machine (Ok 0%nat) (Ok []) in
  let G := two_languages_globals in
  let s := (on_press E G f9 initial).2 in
  start_recording E G (str "de") (str "base") f10 s = (Ret tt, s)
  ∧ stop_recording E G initial = (Ret tt, initial).
Proof.
  split.
  - refine (proj1 (session_gating (machine (Ok 0%nat) (Ok []))
      two_languages_globals (str "de") (str "base") f10
      (on_press (machine (Ok 0%nat) (Ok [])) two_languages_globals f9
         initial).2.1 _) _).
    by vm_compute.
  - refine (proj2 (session_gating (machine (Ok 0%nat) (Ok []))
      two_languages_globals [] [] f9 Dictation_init empty_world) _).
    by vm_compute.
Defined.

Lemma on_release_bound_key_witness :
  let E := machine (Ok 0%nat) (Ok []) in
  let G := two_languages_globals in
  let s := (on_press E G f9 initial).2 in
  recording (on_release E G f9 s).2.1 = false
  ∧ on_release E G (Key_ (str "space")) s = (Ret tt, s).
Proof.
  split.
  - refine (proj2 (proj1 (on_release_bound_key (machine (Ok 0%nat) (Ok []))
      two_languages_globals f9 _) _ _)); by vm_compute.
  - refine (proj2 (on_release_bound_key (machine (Ok 0%nat) (Ok []))
      two_languages_globals (Key_ (str "space")) _) _).
    left. by vm_compute.
Defined.

(** C3, as it is stated, fails: with [en = f9] and [de = f10], the recording
    that the key-down of [f9] started is ended by the key-up of [f10]. *)
Lemma on_release_other_bound_key_stops :
  let E := machine (Ok 0%nat) (Ok []) in
  let G := two_languages_globals in
  let s := (on_press E G f9 initial).2 in
  recording s.1 = true
  ∧ active_language s.1 = Some (str "en")
  ∧ f10 ≠ f9
  ∧ recording (on_release E G f10 s).2.1 = false
  ∧ (on_release E G f10 s).2 ≠ s.
Proof.
  repeat split; by vm_compute.
Qed.

(** The guard of line 236 also asks that the language is not empty: a
    recording started by hand with the empty language and the model [base]
    ends in a [transcribe] call without a language argument.  No settings
    file gives the empty language, so no run of the program gets there. *)
Lemma empty_language_gets_no_hint :
  let E := machine (Ok 0%nat) (Ok [str " hallo "]) in
  let G := two_languages_globals in
  let s := (start_recording E G [] (str "base") f10 initial).2 in
  active_language s.1 = Some []
  ∧ active_model_name s.1 = Some (str "base")
  ∧ [] ≠ str "auto"
  ∧ endswith (str "base") (str ".en") = false
  ∧ Transcribe 0 0 (kwargs_with None)
      ∈ new_events s (stop_recording E G s).2.
Proof.
  repeat split; try by vm_compute.
  apply (bool_decide_unpack _). by vm_compute.
Qed.

(** A [.en] model gets no language argument even when the active language
    is [de]. *)
Lemma english_model_gets_no_hint :
  let E := machine (Ok 0%nat) (Ok [str " hallo "]) in
  let G := two_languages_globals in
  let s := (start_recording E G (str "de") (str "base.en") f10 initial).2 in
  Transcribe 0 0 (kwargs_with None) ∈ new_events s (stop_recording E G s).2.
Proof. apply (bool_decide_unpack _). by vm_compute. Qed.

Lemma no_speech_no_delivery_witness :
  let E := machine (Ok 0%nat) (Ok [str "  "]) in
  let G := two_languages_globals in
  let s := (on_press E G f9 initial).2 in
  let new := new_events s (stop_recording E G s).2 in
  Stdout no_speech_line ∈ new
  ∧ (NOTIFICATIONS G = true → no_speech_notice ∈ new)
  ∧ (∀ t, ¬ (Xclip t ∈ new) ∧ ¬ (Xdotool t ∈ new)).
Proof.
  refine (proj1 (no_speech_no_delivery (machine (Ok 0%nat) (Ok [str "  "]))
    two_languages_globals
    (on_press (machine (Ok 0%nat) (Ok [str "  "])) two_languages_globals f9
       initial).2) 0%nat 0%nat (kwargs_with None) [str "  "] _ _ _).
  - apply (bool_decide_unpack _). by vm_compute.
  - by vm_compute.
  - by vm_compute.
Defined.

(** ** The temporary file *)

(** X20.  On the paths through the [try] block that reach the engine, the
    temporary file is gone when [stop_recording] ends, whatever the engine,
    the clipboard, the typing and the notices do. *)
Lemma stop_recording_removes_temp_file (E : Env) (G : Globals) (s : state)
    (h p : nat) (kw : transcribe_kwargs) (tmp : nat) :
  recording s.1 = true →
  temp_file s.1 = Some tmp →
  Transcribe h p kw ∈ new_events s (stop_recording E G s).2 →
  tmp ∉ files (stop_recording E G s).2.2.
Proof.
  intros Hrec Htmp Hin.
  pose proof (stop_recording_spec E G s Hrec) as H. unfold wp in H.
  destruct H as (_&_&_&_&_& new & Hlog & _ & Hgone).
  rewrite (new_events_app _ _ _ Hlog) in Hin.
  apply (Hgone); [|done]. intros Hnone.
  apply deliveries_elem in Hin; [|done]. rewrite Hnone in Hin.
  by apply elem_of_nil in Hin.
Qed.

(** C2 fails on the code.  The model fails to load; the key is pressed and
    released.  [stop_recording] reports the error and returns before the
    [try] block, so the [finally] clause does not run: the temporary file of
    the session is still there, and no [unlink] was made. *)
Theorem failed_model_leaves_temp_file :
  let E := machine (Raise (str "boom")) (Ok [str "hello"]) in
  let G := two_languages_globals in
  let s := (on_press E G f9 initial).2 in
  let r := on_release E G f9 s in
  recording s.1 = true
  ∧ temp_file s.1 = Some 0%nat
  ∧ r.1 = Ret tt
  ∧ recording r.2.1 = false
  ∧ Stdout (str "Cannot transcribe: model failed to load") ∈ log r.2.2
  ∧ 0%nat ∈ files r.2.2
  ∧ ¬ (Unlink 0 ∈ log r.2.2).
Proof.
  repeat split;
    first [by vm_compute|apply (bool_decide_unpack _); by vm_compute].
Qed.

(** The same session with a model that loads: the file is removed. *)
Lemma loaded_model_removes_temp_file :
  let E := machine (Ok 0%nat) (Ok [str "hello"]) in
  let G := two_languages_globals in
  let s := (on_press E G f9 initial).2 in
  let r := on_release E G f9 s in
  temp_file s.1 = Some 0%nat
  ∧ r.1 = Ret tt
  ∧ ¬ (0%nat ∈ files r.2.2)
  ∧ Unlink 0 ∈ log r.2.2.
Proof.
  repeat split;
    first [by vm_compute|apply (bool_decide_unpack _); by vm_compute].
Qed.

(** C8 fails on the code, by the same early return.  The model fails to
    load; the key is pressed, released and pressed again.  The second
    session starts, with a temporary file of its own, while the temporary
    file of the first session has not been removed. *)
Theorem second_session_starts_before_cleanup :
  let E := machine (Raise (str "boom")) (Ok [str "hello"]) in
  let G := two_languages_globals in
  let s1 := run E G [Press f9] initial in
  let s2 := run E G [Press f9; Release f9; Press f9] initial in
  temp_file s1.1 = Some 0%nat
  ∧ recording s2.1 = true
  ∧ temp_file s2.1 = Some 1%nat
  ∧ 0%nat ∈ files s2.2
  ∧ ¬ (Unlink 0 ∈ log s2.2)
  ∧ launches (Some (str "base.en")) (log s2.2) = 1%nat.
Proof.
  repeat split;
    first [by vm_compute|apply (bool_decide_unpack _); by vm_compute].
Qed.

(** ** The model cache *)

Lemma launches_app m evs evs' :
  launches m (evs ++ evs') = (launches m evs + launches m evs')%nat.
Proof. unfold launches. by rewrite filter_app, length_app. Qed.

Lemma launches_start m m' :
  launches m [Thread_start m'] = if decide (m' = m) then 1%nat else 0%nat.
Proof.
  unfold launches. destruct (decide (m' = m)) as [->|Hne].
  - by rewrite filter_cons_True.
  - rewrite filter_cons_False; [done|]. congruence.
Qed.

Lemma launches_other m ev :
  (∀ m', ev ≠ Thread_start m') → launches m [ev] = 0%nat.
Proof.
  intros H. unfold launches. rewrite filter_cons_False; [done|]. apply H.
Qed.

Lemma launches_stdout m evs :
  Forall is_stdout evs → launches m evs = 0%nat.
Proof.
  induction 1 as [|ev evs Hev _ IH]; [done|].
  change (ev :: evs) with ([ev] ++ evs). rewrite launches_app, IH.
  rewrite launches_other; [done|]. intros m' ->. done.
Qed.

(** Two states with the same cache: the dictionary, the entries, the
    threads, and the load units started so far. *)
Definition same_cache (s s' : state) : Prop :=
  models s'.1 = models s.1 ∧ heap s'.2 = heap s.2
  ∧ threads s'.2 = threads s.2
  ∧ ∀ m, launches m (log s'.2) = launches m (log s.2).

Lemma same_cache_refl s : same_cache s s.
Proof. done. Qed.

Lemma same_cache_trans s1 s2 s3 :
  same_cache s1 s2 → same_cache s2 s3 → same_cache s1 s3.
Proof.
  intros (Ha & Hb & Hc & Hl1) (Ha' & Hb' & Hc' & Hl2).
  repeat split; [congruence..|].
  intros m. by rewrite Hl2, Hl1.
Qed.

Section Cache_facts.
Variable E : Env.
Variable G : Globals.

(** The entry of a model once its loader has ended, and just before. *)
Definition terminal (m : option pystr) : entry :=
  match WhisperModel E m (DEVICE G) (COMPUTE_TYPE G) with
  | Ok h => {| e_model := Some h; e_loaded := true; e_error := None |}
  | Raise e => {| e_model := None; e_loaded := true; e_error := Some e |}
  end.

Definition constructed (m : option pystr) : entry :=
  match WhisperModel E m (DEVICE G) (COMPUTE_TYPE G) with
  | Ok h => {| e_model := Some h; e_loaded := false; e_error := None |}
  | Raise e => {| e_model := None; e_loaded := false; e_error := Some e |}
  end.

(** The entry of a model, by the place of its loader. *)
Definition entry_at (m : option pystr) (pc : loader_pc) : entry :=
  match pc with
  | LStart | LConstruct _ => new_entry
  | LFinally _ => constructed m
  | LDone => terminal m
  end.

Definition pc_at (l : nat) (pc : loader_pc) : Prop :=
  match pc with
  | LConstruct l' | LFinally l' => l' = l
  | LStart | LDone => True
  end.

(** The cache is well formed: every model of the dictionary has its own
    entry and its own loader thread, the entry is what the place of the
    thread says, and one load unit was started for it. *)
Record cache_inv (s : state) : Prop := {
  inv_entry : ∀ m l, models s.1 !! m = Some l →
    ∃ i t, threads s.2 !! i = Some t ∧ t_model_name t = m
           ∧ pc_at l (t_pc t) ∧ heap s.2 !! l = Some (entry_at m (t_pc t));
  inv_thread : ∀ i t, threads s.2 !! i = Some t →
    is_Some (models s.1 !! t_model_name t);
  inv_names : ∀ i j t t',
    threads s.2 !! i = Some t → threads s.2 !! j = Some t' →
    t_model_name t = t_model_name t' → i = j;
  inv_inj : ∀ m m' l,
    models s.1 !! m = Some l → models s.1 !! m' = Some l → m = m';
  inv_launches : ∀ m,
    launches m (log s.2)
    = match models s.1 !! m with Some _ => 1%nat | None => 0%nat end;
}.

Lemma cache_inv_initial : cache_inv initial.
Proof.
  split; simpl; intros *.
  - by rewrite lookup_empty.
  - by rewrite lookup_nil.
  - by rewrite lookup_nil.
  - by rewrite lookup_empty.
  - by rewrite lookup_empty.
Qed.

Lemma cache_inv_same s s' : same_cache s s' → cache_inv s → cache_inv s'.
Proof.
  intros (Hm & Hh & Ht & Hl) [I1 I2 I3 I4 I5].
  split; rewrite ?Hm, ?Hh, ?Ht; try done.
  intros m. by rewrite Hl.
Qed.

Lemma _get_or_load_model_hit m l s :
  models s.1 !! m = Some l → _get_or_load_model m s = (Ret l, s).
Proof.
  destruct s as [d w]. cbn [fst]. intros H.
  unfold _get_or_load_model, mbind, M_bind, bind, get_self. cbn [fst snd].
  by rewrite H.
Qed.

Definition started (m : option pystr) : thread :=
  {| t_model_name := m; t_pc := LStart |}.

Lemma _get_or_load_model_miss m s :
  models s.1 !! m = None →
  _get_or_load_model m s
  = (Ret (length (heap s.2)),
     (set_models <[m := length (heap s.2)]> s.1,
      emit (Thread_start m)
        (set_threads (λ ts, ts ++ [started m])
           (set_heap (λ h, h ++ [new_entry]) s.2)))).
Proof.
  destruct s as [d w]. cbn [fst snd]. intros H.
  unfold _get_or_load_model, mbind, M_bind, bind, get_self. cbn [fst snd].
  by rewrite H.
Qed.

Lemma _get_or_load_model_inv m s :
  cache_inv s → cache_inv (_get_or_load_model m s).2.
Proof.
  intros Hinv. destruct (models s.1 !! m) as [l|] eqn:Hm.
  { by rewrite (_get_or_load_model_hit m l s Hm). }
  rewrite (_get_or_load_model_miss m s Hm).
  destruct Hinv as [I1 I2 I3 I4 I5]. destruct s as [d w].
  cbn [fst snd] in *.
  assert (∀ m' l', models d !! m' = Some l' → (l' < length (heap w))%nat)
    as Hlt.
  { intros m' l' H. destruct (I1 m' l' H) as (i & t & _ & _ & _ & Hh).
    by apply lookup_lt_Some in Hh. }
  split; cbn [fst snd models heap threads log set_models emit set_threads
              set_heap]; intros *.
  - (* entries *)
    destruct (decide (m0 = m)) as [->|Hne].
    + rewrite lookup_insert_eq. intros [= <-].
      exists (length (threads w)), (started m).
      rewrite !list_lookup_middle by done. by repeat split.
    + rewrite lookup_insert_ne by done. intros H.
      destruct (I1 _ _ H) as (i & t & Ht & Hn & Hp & Hh).
      exists i, t. repeat split; try done.
      * by apply lookup_app_l_Some.
      * by apply lookup_app_l_Some.
  - (* threads *)
    intros H. apply lookup_app_Some in H as [H|[_ H]].
    + apply I2 in H as [l' H]. destruct (decide (t_model_name t = m)) as [->|?].
      * rewrite lookup_insert_eq. eauto.
      * rewrite lookup_insert_ne by done. eauto.
    + apply list_lookup_singleton_Some in H as [_ <-]. simpl.
      rewrite lookup_insert_eq. eauto.
  - (* names *)
    intros Hi Hj Hn.
    apply lookup_app_Some in Hi as [Hi|[Hli Hi]];
      apply lookup_app_Some in Hj as [Hj|[Hlj Hj]].
    + eauto.
    + apply list_lookup_singleton_Some in Hj as [_ <-]. simpl in Hn.
      apply I2 in Hi as [l' Hi]. congruence.
    + apply list_lookup_singleton_Some in Hi as [_ <-]. simpl in Hn.
      apply I2 in Hj as [l' Hj]. congruence.
    + apply list_lookup_singleton_Some in Hi as [Hi _].
      apply list_lookup_singleton_Some in Hj as [Hj _]. lia.
  - (* one entry per model *)
    destruct (decide (m0 = m)) as [->|Hne];
      destruct (decide (m' = m)) as [->|Hne']; try done.
    + rewrite lookup_insert_eq, lookup_insert_ne by done.
      intros [= <-] H. apply Hlt in H. lia.
    + rewrite lookup_insert_eq, lookup_insert_ne by done.
      intros H [= <-]. apply Hlt in H. lia.
    + rewrite !lookup_insert_ne by done. apply I4.
  - (* launches *)
    rewrite launches_app, launches_start, I5.
    destruct (decide (m = m0)) as [->|Hne].
    + by rewrite lookup_insert_eq, Hm.
    + rewrite lookup_insert_ne by done.
      destruct (models d !! m0); lia.
Qed.


(** How far a loader thread has come. *)
Definition pc_rank (pc : loader_pc) : nat :=
  match pc with
  | LStart => 0
  | LConstruct _ => 1
  | LFinally _ => 2
  | LDone => 3
  end.

(** The entry and the place of the thread of a model. *)
Lemma cache_inv_thread d w i t :
  cache_inv (d, w) → threads w !! i = Some t →
  ∃ l, models d !! t_model_name t = Some l
       ∧ pc_at l (t_pc t)
       ∧ heap w !! l = Some (entry_at (t_model_name t) (t_pc t)).
Proof.
  intros [I1 I2 I3 I4 I5] Ht. cbn [fst snd] in *.
  destruct (I2 _ _ Ht) as [l Hl]. exists l. split; [done|].
  destruct (I1 _ _ Hl) as (i0 & t0 & Ht0 & Hn & Hp & Hh).
  assert (i0 = i) as -> by eauto.
  by simplify_eq.
Qed.

(** One step of a loader thread: it moves one place on and brings the entry
    of its model to what the new place says; nothing else of the cache
    changes. *)
Lemma _load_model_step_shape d w i t t' w' :
  cache_inv (d, w) → threads w !! i = Some t →
  _load_model_step E G d t w = Some (t', w') →
  ∃ l, models d !! t_model_name t = Some l
       ∧ t_model_name t' = t_model_name t
       ∧ pc_at l (t_pc t')
       ∧ heap w' !! l = Some (entry_at (t_model_name t) (t_pc t'))
       ∧ (∀ l', l' ≠ l → heap w' !! l' = heap w !! l')
       ∧ threads w' = threads w
       ∧ (∀ m, launches m (log w') = launches m (log w))
       ∧ pc_rank (t_pc t') = S (pc_rank (t_pc t)).
Proof.
  intros Hinv Ht Hstep.
  destruct (cache_inv_thread d w i t Hinv Ht) as (l & Hl & Hp & Hh).
  exists l. split; [done|].
  assert (∀ m, launches m (log w') = launches m (log w)) as Hlaunch.
  { intros m.
    destruct (_load_model_step_frame E G d t w t' w' Hstep)
      as (_ & _ & new & -> & Hnew).
    rewrite launches_app, (launches_stdout m new Hnew). lia. }
  revert Hstep. unfold _load_model_step. rewrite Hl.
  destruct (t_pc t) as [|l0|l0|] eqn:Hpc; cbn [pc_at entry_at] in *.
  - intros [= <- <-]. by repeat split.
  - subst l0.
    destruct (WhisperModel E _ _ _) as [h|e] eqn:HW; intros [= <- <-];
      cbn [t_model_name t_pc pc_at entry_at pc_rank]; unfold constructed;
      rewrite HW.
    + repeat split; try done.
      * cbn [heap emit set_heap]. by rewrite list_lookup_alter_eq, Hh.
      * intros l' Hne. cbn [heap emit set_heap].
        by rewrite list_lookup_alter_ne by done.
    + assert (∀ w0 : World,
        heap (if contains (lower E e) (str "cudnn")
                 || contains (lower E e) (str "cuda")
              then emit (Stdout (str
                "Hint: Try setting device = cpu in your config, or install cuDNN."))
                     w0
              else w0) = heap w0
        ∧ threads (if contains (lower E e) (str "cudnn")
                      || contains (lower E e) (str "cuda")
                   then emit (Stdout (str
                "Hint: Try setting device = cpu in your config, or install cuDNN."))
                          w0
                   else w0) = threads w0) as Hif.
      { intros w0. by destruct (_ || _). }
      repeat split; try done.
      * rewrite (proj1 (Hif _)). cbn [heap emit set_heap].
        by rewrite list_lookup_alter_eq, Hh.
      * intros l' Hne. rewrite (proj1 (Hif _)). cbn [heap emit set_heap].
        by rewrite list_lookup_alter_ne by done.
      * by rewrite (proj2 (Hif _)).
  - subst l0. intros [= <- <-].
    cbn [t_model_name t_pc pc_at entry_at pc_rank].
    repeat split; try done.
    + cbn [heap emit set_heap]. rewrite list_lookup_alter_eq, Hh.
      unfold constructed, terminal. by destruct (WhisperModel E _ _ _).
    + intros l' Hne. cbn [heap emit set_heap].
      by rewrite list_lookup_alter_ne by done.
  - done.
Qed.


Lemma insert_thread_name (ts : list thread) i t t' j t1 :
  ts !! i = Some t → t_model_name t' = t_model_name t →
  <[i := t']> ts !! j = Some t1 →
  ∃ t0, ts !! j = Some t0 ∧ t_model_name t0 = t_model_name t1.
Proof.
  intros Ht Hn Hj. destruct (decide (i = j)) as [->|Hne].
  - rewrite list_lookup_insert_eq in Hj by (by eapply lookup_lt_Some).
    simplify_eq. eauto.
  - rewrite list_lookup_insert_ne in Hj by done. eauto.
Qed.

Lemma loader_action_inv i s :
  cache_inv s → cache_inv (loader_action E G i s).
Proof.
  intros Hinv. destruct s as [d w]. unfold loader_action.
  destruct (threads w !! i) as [t|] eqn:Ht; [|done].
  destruct (_load_model_step E G d t w) as [[t' w']|] eqn:Hstep; [|done].
  destruct (_load_model_step_shape d w i t t' w' Hinv Ht Hstep)
    as (l & Hl & Hn & Hp & Hh & Hother & Hts & Hlaunch & _).
  destruct Hinv as [I1 I2 I3 I4 I5]. cbn [fst snd] in *.
  assert (i < length (threads w))%nat as Hlt by (by eapply lookup_lt_Some).
  split; cbn [fst snd threads heap log set_threads]; rewrite ?Hts.
  - intros m l0 Hm. destruct (decide (m = t_model_name t)) as [->|Hne].
    + assert (l0 = l) as -> by congruence.
      exists i, t'. rewrite list_lookup_insert_eq by done.
      rewrite Hn. by repeat split.
    + destruct (I1 _ _ Hm) as (i0 & t0 & Ht0 & Hn0 & Hp0 & Hh0).
      assert (i0 ≠ i) as Hi by (intros ->; congruence).
      assert (l0 ≠ l) as Hl0.
      { intros ->. apply Hne. by eapply I4. }
      exists i0, t0. rewrite list_lookup_insert_ne by done.
      rewrite Hother by done. by repeat split.
  - intros j t1 Hj.
    destruct (insert_thread_name _ _ _ _ _ _ Ht Hn Hj) as (t0 & Hj0 & <-).
    by eapply I2.
  - intros a b ta tb Ha Hb Heq.
    destruct (insert_thread_name _ _ _ _ _ _ Ht Hn Ha) as (ta0 & Ha0 & Hna).
    destruct (insert_thread_name _ _ _ _ _ _ Ht Hn Hb) as (tb0 & Hb0 & Hnb).
    eapply I3; [exact Ha0|exact Hb0|congruence].
  - apply I4.
  - intros m. by rewrite Hlaunch.
Qed.

(** A step of a loader thread moves no thread back, and moves its own
    thread on until it has ended. *)
Lemma loader_action_progress i j s t :
  cache_inv s → threads s.2 !! j = Some t →
  ∃ t', threads (loader_action E G i s).2 !! j = Some t'
        ∧ t_model_name t' = t_model_name t
        ∧ (pc_rank (t_pc t) ≤ pc_rank (t_pc t'))%nat
        ∧ (i = j → pc_rank (t_pc t') = Nat.min 3 (S (pc_rank (t_pc t)))).
Proof.
  intros Hinv Hj. destruct s as [d w]. cbn [fst snd] in *.
  unfold loader_action.
  destruct (threads w !! i) as [ti|] eqn:Hi.
  2: { exists t. repeat split; try done. intros ->. congruence. }
  destruct (_load_model_step E G d ti w) as [[t' w']|] eqn:Hstep.
  2: { exists t. repeat split; try done. intros ->. simplify_eq.
       revert Hstep. unfold _load_model_step.
       destruct (t_pc t) as [|l0|l0|]; try done.
       - by destruct (models d !! t_model_name t).
       - by destruct (WhisperModel E _ _ _). }
  destruct (_load_model_step_shape d w i ti t' w' Hinv Hi Hstep)
    as (l & Hl & Hn & Hp & Hh & Hother & Hts & Hlaunch & Hrank).
  cbn [fst snd threads set_threads]. rewrite Hts.
  destruct (decide (i = j)) as [->|Hne].
  - simplify_eq. exists t'.
    rewrite list_lookup_insert_eq by (by eapply lookup_lt_Some).
    assert (pc_rank (t_pc t) ≤ 2)%nat as Hle.
    { destruct (t_pc t) eqn:Hpc; simpl; try lia.
      unfold _load_model_step in Hstep. by rewrite Hpc in Hstep. }
    split; [done|]. split; [done|]. rewrite Hrank. split; lia.
  - exists t. rewrite list_lookup_insert_ne by done. by repeat split.
Qed.


Lemma run_loader_inv i s : cache_inv s → cache_inv (run_loader E G i s).
Proof. intros H. unfold run_loader. by do 3 apply loader_action_inv. Qed.

Lemma pc_rank_le pc : (pc_rank pc ≤ 3)%nat.
Proof. destruct pc; simpl; lia. Qed.

Lemma run_loader_progress i j s t :
  cache_inv s → threads s.2 !! j = Some t →
  ∃ t', threads (run_loader E G i s).2 !! j = Some t'
        ∧ t_model_name t' = t_model_name t
        ∧ (pc_rank (t_pc t) ≤ pc_rank (t_pc t'))%nat
        ∧ (i = j → pc_rank (t_pc t') = 3%nat).
Proof.
  intros Hinv Hj. unfold run_loader.
  destruct (loader_action_progress i j s t Hinv Hj)
    as (t1 & H1 & Hn1 & Hle1 & Hr1).
  pose proof (loader_action_inv i s Hinv) as Hinv1.
  destruct (loader_action_progress i j _ t1 Hinv1 H1)
    as (t2 & H2 & Hn2 & Hle2 & Hr2).
  pose proof (loader_action_inv i _ Hinv1) as Hinv2.
  destruct (loader_action_progress i j _ t2 Hinv2 H2)
    as (t3 & H3 & Hn3 & Hle3 & Hr3).
  exists t3. split; [done|]. split; [congruence|]. split; [lia|].
  intros Hij. specialize (Hr1 Hij). specialize (Hr2 Hij).
  specialize (Hr3 Hij). pose proof (pc_rank_le (t_pc t)). lia.
Qed.

Lemma run_loaders_progress js j s t :
  cache_inv s → threads s.2 !! j = Some t →
  j ∈ js ∨ pc_rank (t_pc t) = 3%nat →
  let s' := foldl (λ s i, run_loader E G i s) s js in
  cache_inv s' ∧ s'.1 = s.1
  ∧ ∃ t', threads s'.2 !! j = Some t'
          ∧ t_model_name t' = t_model_name t
          ∧ pc_rank (t_pc t') = 3%nat.
Proof.
  revert s t. induction js as [|i js IH]; intros s t Hinv Hj Hor; simpl.
  - destruct Hor as [Hin|Hr]; [by apply elem_of_nil in Hin|].
    split; [done|]. split; [done|]. by exists t.
  - destruct (run_loader_progress i j s t Hinv Hj)
      as (t1 & H1 & Hn1 & Hle1 & Hr1).
    pose proof (run_loader_inv i s Hinv) as Hinv1.
    destruct (run_loader_frame E G i s) as [Hd1 _].
    assert (j ∈ js ∨ pc_rank (t_pc t1) = 3%nat) as Hor1.
    { destruct Hor as [Hin|Hr].
      - apply elem_of_cons in Hin as [->|Hin]; [right; by apply Hr1|by left].
      - right. pose proof (pc_rank_le (t_pc t1)). lia. }
    destruct (IH _ t1 Hinv1 H1 Hor1) as (Hinv' & Hd' & t' & Ht' & Hn' & Hr').
    split; [done|]. split; [congruence|].
    exists t'. split; [done|]. split; [congruence|done].
Qed.

Lemma holders_elem d l k ts i t :
  ts !! i = Some t → holds d l t = true → (k + i)%nat ∈ holders d l k ts.
Proof.
  revert k i. induction ts as [|t0 ts IH]; intros k i Hi Hh; [done|].
  destruct i as [|i]; simpl in *.
  - simplify_eq. rewrite Hh, Nat.add_0_r. by left.
  - replace (k + S i)%nat with (S k + i)%nat by lia.
    destruct (holds d l t0); [right|]; by apply IH.
Qed.

Lemma terminal_loaded m : e_loaded (terminal m) = true.
Proof. unfold terminal. by destruct (WhisperModel E _ _ _). Qed.

Lemma entry_at_loaded m pc :
  e_loaded (entry_at m pc) = true → pc = LDone.
Proof.
  destruct pc; simpl; try done. unfold constructed.
  by destruct (WhisperModel E _ _ _).
Qed.

(** In a well-formed cache a wait on the entry of a model returns, with the
    terminal entry of that model. *)
Lemma Event_wait_terminal s m l :
  cache_inv s → models s.1 !! m = Some l →
  (Event_wait E G l s).1 = Ret (terminal m).
Proof.
  intros Hinv Hm.
  destruct (inv_entry s Hinv m l Hm) as (i & t & Ht & Hn & Hp & Hh).
  unfold Event_wait. rewrite Hh.
  destruct (e_loaded (entry_at m (t_pc t))) eqn:Hl.
  { apply entry_at_loaded in Hl. by rewrite Hl. }
  assert (holds s.1 l t = true) as Hholds.
  { unfold holds. destruct (t_pc t) as [|l0|l0|] eqn:Hpc; simpl in *.
    - apply bool_decide_eq_true. congruence.
    - by apply bool_decide_eq_true.
    - by apply bool_decide_eq_true.
    - by rewrite terminal_loaded in Hl. }
  pose proof (holders_elem s.1 l 0 (threads s.2) i t Ht Hholds) as Hin.
  destruct (run_loaders_progress (holders s.1 l 0 (threads s.2)) i s t
              Hinv Ht (or_introl Hin)) as (Hinv' & Hd' & t' & Ht' & Hn' & Hr').
  set (s' := foldl _ _ _) in *.
  assert (models s'.1 !! m = Some l) as Hm' by (by rewrite Hd').
  destruct (inv_entry s' Hinv' m l Hm') as (i2 & t2 & Ht2 & Hn2 & Hp2 & Hh2).
  assert (i2 = i) as ->.
  { eapply (inv_names s' Hinv'); [exact Ht2|exact Ht'|congruence]. }
  simplify_eq.
  assert (t_pc t' = LDone) as Hdone.
  { destruct (t_pc t'); simpl in Hr'; by try lia. }
  rewrite Hdone in Hh2. simpl in Hh2. rewrite Hh2.
  by rewrite terminal_loaded.
Qed.


(** What the program does to the cache: a call of [_get_or_load_model], a
    step of a loader thread, or anything that leaves the cache alone. *)
Inductive cache_reach : state → state → Prop :=
  | reach_same s s' : same_cache s s' → cache_reach s s'
  | reach_acquire m s : cache_reach s (_get_or_load_model m s).2
  | reach_loader i s : cache_reach s (loader_action E G i s)
  | reach_trans s1 s2 s3 :
      cache_reach s1 s2 → cache_reach s2 s3 → cache_reach s1 s3.

Lemma cache_reach_refl s : cache_reach s s.
Proof. apply reach_same, same_cache_refl. Qed.

Lemma cache_reach_inv s s' : cache_reach s s' → cache_inv s → cache_inv s'.
Proof.
  induction 1 as [s s' Hs|m s|i s|s1 s2 s3 _ IH1 _ IH2]; intros Hinv.
  - by eapply cache_inv_same.
  - by apply _get_or_load_model_inv.
  - by apply loader_action_inv.
  - auto.
Qed.

(** A model of the dictionary keeps its entry. *)
Lemma cache_reach_models s s' m l :
  cache_reach s s' → models s.1 !! m = Some l → models s'.1 !! m = Some l.
Proof.
  induction 1 as [s s' (Hs & _)|m0 s|i s|s1 s2 s3 _ IH1 _ IH2]; intros Hm.
  - by rewrite Hs.
  - destruct (models s.1 !! m0) as [l0|] eqn:Hm0.
    + by rewrite (_get_or_load_model_hit m0 l0 s Hm0).
    + rewrite (_get_or_load_model_miss m0 s Hm0). cbn [fst snd models
        set_models]. rewrite lookup_insert_ne; [done|congruence].
  - by rewrite (proj1 (loader_action_frame E G i s)).
  - auto.
Qed.

(** A method whose every run is such a walk of the cache. *)
Definition cache_safe {A} (m : M A) : Prop := ∀ s, cache_reach s (m s).2.

Lemma cache_safe_ret {A} (a : A) : cache_safe (ret a).
Proof. intros s. apply cache_reach_refl. Qed.

Lemma cache_safe_raise {A} e : cache_safe (raise (A := A) e).
Proof. intros s. apply cache_reach_refl. Qed.

Lemma cache_safe_get_self : cache_safe get_self.
Proof. intros s. apply cache_reach_refl. Qed.

Lemma cache_safe_get_world : cache_safe get_world.
Proof. intros s. apply cache_reach_refl. Qed.

Lemma cache_safe_bind {A B} (m : M A) (k : A → M B) :
  cache_safe m → (∀ a, cache_safe (k a)) → cache_safe (m ≫= k).
Proof.
  intros Hm Hk s. unfold mbind, M_bind, bind. specialize (Hm s).
  destruct (m s) as [[a|e|] s']; cbn [snd] in *; [|done..].
  eapply reach_trans; [exact Hm|apply Hk].
Qed.

Lemma cache_safe_try_except {A} (body : M A) handler :
  cache_safe body → (∀ e, cache_safe (handler e)) →
  cache_safe (try_except body handler).
Proof.
  intros Hb Hh s. unfold try_except. specialize (Hb s).
  destruct (body s) as [[a|e|] s']; cbn [snd] in *; [done| |done].
  eapply reach_trans; [exact Hb|apply Hh].
Qed.

Lemma cache_safe_try_finally {A} (body : M A) fin :
  cache_safe body → cache_safe fin → cache_safe (try_finally body fin).
Proof.
  intros Hb Hf s. unfold try_finally. specialize (Hb s).
  destruct (body s) as [[a|e|] s']; cbn [snd] in *; [| |done];
    specialize (Hf s'); destruct (fin s') as [[[]|e'|] s''];
    cbn [snd] in *; by eapply reach_trans.
Qed.

Lemma cache_safe_upd_self f :
  (∀ d, models (f d) = models d) → cache_safe (upd_self f).
Proof.
  intros H s. apply reach_same. unfold same_cache, upd_self. cbn [fst snd].
  by rewrite H.
Qed.

Lemma cache_safe_upd_world f :
  (∀ w, heap (f w) = heap w ∧ threads (f w) = threads w
        ∧ ∀ m, launches m (log (f w)) = launches m (log w)) →
  cache_safe (upd_world f).
Proof.
  intros H s. apply reach_same. destruct (H s.2) as (Hh & Ht & Hl).
  unfold same_cache, upd_world. cbn [fst snd]. by rewrite Hh, Ht.
Qed.

Lemma cache_safe_emit ev :
  (∀ m, ev ≠ Thread_start m) → cache_safe (upd_world (emit ev)).
Proof.
  intros H. apply cache_safe_upd_world. intros w. repeat split.
  intros m. cbn [log emit]. rewrite launches_app, launches_other by done.
  lia.
Qed.

Lemma cache_safe_print line : cache_safe (print line).
Proof. by apply cache_safe_emit. Qed.

Lemma cache_safe_external ev r :
  (∀ m, ev ≠ Thread_start m) → cache_safe (external ev r).
Proof.
  intros H. unfold external. apply cache_safe_bind.
  - by apply cache_safe_emit.
  - intros _. destruct r; [apply cache_safe_raise|apply cache_safe_ret].
Qed.

Lemma cache_safe_notify title message icon timeout :
  cache_safe (notify E G title message icon timeout).
Proof.
  unfold notify. destruct (NOTIFICATIONS G); simpl.
  - by apply cache_safe_external.
  - apply cache_safe_ret.
Qed.

Lemma cache_safe_acquire m : cache_safe (_get_or_load_model m).
Proof. intros s. apply reach_acquire. Qed.

Lemma run_loaders_reach js s :
  cache_reach s (foldl (λ s i, run_loader E G i s) s js).
Proof.
  revert s. induction js as [|i js IH]; intros s; simpl.
  - apply cache_reach_refl.
  - eapply reach_trans; [|apply IH]. unfold run_loader.
    eapply reach_trans; [apply reach_loader|].
    eapply reach_trans; apply reach_loader.
Qed.

Lemma cache_safe_Event_wait l : cache_safe (Event_wait E G l).
Proof.
  intros s. unfold Event_wait.
  destruct (heap s.2 !! l) as [e|]; [|apply cache_reach_refl].
  destruct (e_loaded e); [apply cache_reach_refl|].
  set (s' := foldl _ _ _).
  assert (cache_reach s s') as H by apply run_loaders_reach.
  destruct (heap s'.2 !! l) as [e'|]; [|done]. by destruct (e_loaded e').
Qed.

Ltac cache_safe_step :=
  lazymatch goal with
  | |- cache_safe (_get_or_load_model _) => apply cache_safe_acquire
  | |- cache_safe (Event_wait _ _ _) => apply cache_safe_Event_wait
  | |- cache_safe (notify _ _ _ _ _ _) => apply cache_safe_notify
  | |- cache_safe (print _) => apply cache_safe_print
  | |- cache_safe (external _ _) =>
      apply cache_safe_external; intros ?; discriminate
  | |- cache_safe get_self => apply cache_safe_get_self
  | |- cache_safe get_world => apply cache_safe_get_world
  | |- cache_safe (ret _) => apply cache_safe_ret
  | |- cache_safe (raise _) => apply cache_safe_raise
  | |- cache_safe (_ ≫= _) => apply cache_safe_bind; [|intros ?]
  | |- cache_safe (upd_self _) =>
      apply cache_safe_upd_self; intros ?; reflexivity
  | |- cache_safe (upd_world (emit _)) =>
      apply cache_safe_emit; intros ?; discriminate
  | |- cache_safe (upd_world _) =>
      apply cache_safe_upd_world; intros ?; repeat split; reflexivity
  | |- cache_safe (match ?x with _ => _ end) => destruct x
  end.

Lemma cache_safe_start_recording language model_name hotkey :
  cache_safe (start_recording E G language model_name hotkey).
Proof. unfold start_recording. repeat cache_safe_step. Qed.

Lemma cache_safe_stop_recording : cache_safe (stop_recording E G).
Proof.
  unfold stop_recording. repeat cache_safe_step.
  apply cache_safe_try_finally; [apply cache_safe_try_except|].
  - unfold transcribe_and_deliver, language_kwarg. repeat cache_safe_step.
  - intros e. unfold report_error. repeat cache_safe_step.
  - unfold cleanup_temp_file. repeat cache_safe_step.
Qed.

Lemma step_reach a s : cache_reach s (step E G a s).
Proof.
  destruct a as [k|k|m|i]; simpl.
  - unfold on_press. destruct (dict_get k (HOTKEY_TO_LANG G)).
    + apply cache_safe_start_recording.
    + apply cache_reach_refl.
  - unfold on_release.
    apply (cache_safe_bind get_self); [apply cache_safe_get_self|].
    intros d. destruct (_ && _);
      [apply cache_safe_stop_recording|apply cache_safe_ret].
  - apply reach_acquire.
  - apply reach_loader.
Qed.

Lemma run_reach acts s : cache_reach s (run E G acts s).
Proof.
  revert s. induction acts as [|a acts IH]; intros s; simpl.
  - apply cache_reach_refl.
  - eapply reach_trans; [apply step_reach|apply IH].
Qed.


Lemma run_inv acts : cache_inv (run E G acts initial).
Proof. eapply cache_reach_inv; [apply run_reach|apply cache_inv_initial]. Qed.

Lemma _get_or_load_model_returns m s :
  ∃ l, (_get_or_load_model m s).1 = Ret l
       ∧ models (_get_or_load_model m s).2.1 !! m = Some l.
Proof.
  destruct (models s.1 !! m) as [l|] eqn:Hm.
  - rewrite (_get_or_load_model_hit m l s Hm). eauto.
  - rewrite (_get_or_load_model_miss m s Hm). eexists. split; [done|].
    cbn [fst snd models set_models]. apply lookup_insert_eq.
Qed.

(** C1.  In every run of the program, a call of [_get_or_load_model] for a
    model returns a reference to an entry.  When the model was not in the
    cache, the call made that one entry and started one loader thread, the
    first for this model.  From then on, whatever the program does (key
    events, calls from any thread, steps of the loader threads), one load
    unit has been started for the model, every call for it returns the same
    reference and changes nothing, and every wait on the entry returns the
    same loaded entry. *)
Theorem one_load_per_model (before : list action) (m : option pystr) :
  let s1 := run E G before initial in
  let r := _get_or_load_model m s1 in
  ∃ l e,
    r.1 = Ret l
    ∧ e_loaded e = true
    ∧ (models s1.1 !! m = None →
       l = length (heap s1.2)
       ∧ heap r.2.2 = heap s1.2 ++ [new_entry]
       ∧ threads r.2.2 = threads s1.2 ++ [started m]
       ∧ launches m (log s1.2) = 0%nat)
    ∧ launches m (log r.2.2) = 1%nat
    ∧ ∀ after,
        let s2 := run E G after r.2 in
        _get_or_load_model m s2 = (Ret l, s2)
        ∧ launches m (log s2.2) = 1%nat
        ∧ (Event_wait E G l s2).1 = Ret e.
Proof.
  intros s1 r.
  pose proof (run_inv before) as Hinv1. fold s1 in Hinv1.
  pose proof (_get_or_load_model_inv m s1 Hinv1) as Hinvr. fold r in Hinvr.
  destruct (_get_or_load_model_returns m s1) as (l & Hret & Hl).
  fold r in Hret, Hl.
  exists l, (terminal m). split; [done|]. split; [apply terminal_loaded|].
  split; [|split].
  - intros Hnone. subst r. rewrite (_get_or_load_model_miss m s1 Hnone) in *.
    cbn [fst snd] in *. simplify_eq. repeat split.
    by rewrite (inv_launches s1 Hinv1 m), Hnone.
  - by rewrite (inv_launches _ Hinvr m), Hl.
  - intros after s2.
    assert (cache_reach r.2 s2) as Hreach by apply run_reach.
    pose proof (cache_reach_inv _ _ Hreach Hinvr) as Hinv2.
    pose proof (cache_reach_models _ _ m l Hreach Hl) as Hl2.
    split; [by apply _get_or_load_model_hit|]. split.
    + by rewrite (inv_launches _ Hinv2 m), Hl2.
    + by apply Event_wait_terminal.
Qed.

End Cache_facts.

(** * Further properties *)

(** ** White space and the transcript *)

Lemma lstrip_nil_iff (s : pystr) : lstrip s = [] ↔ forallb isspace s = true.
Proof.
  induction s as [|c s IH]; simpl; [done|].
  destruct (isspace c); simpl; [done|]. split; intros; discriminate.
Qed.

Lemma strip_nil_iff (s : pystr) : strip s = [] ↔ forallb isspace s = true.
Proof.
  split.
  - intros H. destruct (strip_split s) as (l & r & Hs & Hl & Hr).
    rewrite H in Hs. rewrite Hs. simpl. by rewrite forallb_app, Hl, Hr.
  - intros H. unfold strip. apply lstrip_nil_iff in H. by rewrite H.
Qed.

Lemma strip_idempotent (s : pystr) : strip (strip s) = strip s.
Proof.
  pose proof (strip_head s) as Hh. pose proof (strip_last s) as Hl.
  unfold strip at 1.
  assert (lstrip (strip s) = strip s) as ->.
  { destruct (strip s) as [|c t]; [done|]. simpl. by rewrite Hh. }
  unfold rstrip.
  assert (lstrip (rev (strip s)) = rev (strip s)) as ->.
  { destruct (rev (strip s)) as [|c t]; [done|]. simpl. by rewrite Hl. }
  apply rev_involutive.
Qed.

(** X19.  The transcript is empty, and "no speech" is reported, only when
    there is no segment or one segment of white space: two segments of
    white space already give a transcript of one space, which is copied. *)
Theorem transcript_empty_iff (segments : list pystr) :
  transcript segments = []
  ↔ segments = []
    ∨ ∃ s, segments = [s] ∧ forallb isspace s = true.
Proof.
  unfold transcript. destruct segments as [|s [|s' rest]]; simpl.
  - split; [by left|done].
  - rewrite strip_nil_iff. split.
    + intros H. right. by exists s.
    + intros [H|(s0 & H & Hs)]; [done|]. by simplify_eq.
  - split.
    + intros H. apply app_eq_nil in H as [_ H]. discriminate.
    + intros [H|(s0 & H & _)]; discriminate.
Qed.

(** ** Dictionaries *)

Section Dict_facts.
Context {K V : Type} `{EqDecision K}.
Implicit Types (d : list (K * V)).

Lemma dict_get_set_eq k v d : dict_get k (dict_set k v d) = Some v.
Proof.
  induction d as [|[k' v'] d IH]; simpl.
  - by rewrite decide_True.
  - destruct (decide (k' = k)); simpl.
    + by rewrite decide_True.
    + by rewrite decide_False.
Qed.

Lemma dict_get_set_ne k k' v d :
  k ≠ k' → dict_get k' (dict_set k v d) = dict_get k' d.
Proof.
  intros Hne. induction d as [|[k0 v0] d IH]; simpl.
  - by rewrite decide_False.
  - destruct (decide (k0 = k)) as [->|Hk]; simpl.
    + by rewrite !decide_False.
    + destruct (decide (k0 = k')); done.
Qed.

Lemma dict_get_app k d d' :
  dict_get k (d ++ d')
  = match dict_get k d with Some v => Some v | None => dict_get k d' end.
Proof.
  induction d as [|[k0 v0] d IH]; simpl; [done|].
  by destruct (decide (k0 = k)).
Qed.


Lemma dict_set_keys k v d :
  NoDup d.*1 → NoDup (dict_set k v d).*1
  ∧ ∀ k', k' ∈ (dict_set k v d).*1 ↔ k' = k ∨ k' ∈ d.*1.
Proof.
  induction d as [|[k0 v0] d IH]; simpl; intros Hnd.
  - split; [apply NoDup_singleton|]. intros k'.
    rewrite list_elem_of_singleton. split; [by left|].
    intros [H|H]; [done|by apply elem_of_nil in H].
  - apply NoDup_cons in Hnd as [Hk0 Hnd]. destruct (IH Hnd) as [IH1 IH2].
    destruct (decide (k0 = k)) as [->|Hne]; simpl.
    + split; [by apply NoDup_cons|]. intros k'. rewrite !elem_of_cons. tauto.
    + split.
      * apply NoDup_cons. split; [|done]. rewrite IH2. intros [H|H]; done.
      * intros k'. rewrite !elem_of_cons, IH2. tauto.
Qed.

End Dict_facts.

(** ** The settings *)

Lemma load_languages_lookup_acc (base : pystr) items acc lang :
  dict_get lang (load_languages base items acc)
  = match dict_get lang (reverse items) with
    | Some hotkey =>
        Some {| lc_key := strip hotkey; lc_model := derive_model lang base |}
    | None => dict_get lang acc
    end.
Proof.
  revert acc. induction items as [|[l0 hk] items IH]; intros acc; [done|].
  cbn [load_languages]. rewrite IH, reverse_cons, dict_get_app.
  destruct (dict_get lang (reverse items)) as [hk'|]; [done|].
  simpl. destruct (decide (l0 = lang)) as [->|Hne].
  - by rewrite dict_get_set_eq.
  - by rewrite dict_get_set_ne.
Qed.

Lemma load_languages_keys (base : pystr) items acc :
  NoDup acc.*1 →
  NoDup (load_languages base items acc).*1
  ∧ ∀ lang, lang ∈ (load_languages base items acc).*1
            ↔ lang ∈ items.*1 ∨ lang ∈ acc.*1.
Proof.
  revert acc. induction items as [|[l0 hk] items IH]; intros acc Hnd.
  - split; [done|]. intros lang. simpl. split; [by right|].
    intros [H|H]; [by apply elem_of_nil in H|done].
  - cbn [load_languages].
    destruct (dict_set_keys l0
      {| lc_key := strip hk; lc_model := derive_model l0 base |} acc Hnd)
      as [Hnd1 Hin1].
    destruct (IH _ Hnd1) as [IH1 IH2]. split; [done|].
    intros lang. rewrite IH2, Hin1. simpl. rewrite elem_of_cons. tauto.
Qed.

Lemma load_config_languages_spec (c : ConfigParser) (cfg : config)
    (lang : pystr) :
  cp_has_section c (str "languages") = true →
  load_config c = Ok cfg →
  NoDup (cfg_languages cfg).*1
  ∧ (lang ∈ (cfg_languages cfg).*1
     ↔ lang ∈ (cp_items c (str "languages")).*1)
  ∧ dict_get lang (cfg_languages cfg)
    = (λ hotkey,
         {| lc_key := strip hotkey;
            lc_model := derive_model lang (cfg_model_size cfg) |})
      <$> dict_get lang (reverse (cp_items c (str "languages"))).
Proof.
  intros Hsec. unfold load_config. rewrite Hsec.
  destruct (cp_getboolean c _ _ _) as [a|e]; [|done].
  destruct (cp_getboolean c _ _ _) as [n|e]; [|done].
  intros [= <-]. cbn [cfg_languages cfg_model_size].
  destruct (load_languages_keys
    (cp_get c (str "whisper") (str "model_size") (str "base"))
    (cp_items c (str "languages")) [] (NoDup_nil_2)) as [Hnd Hin].
  split; [done|]. split.
  - rewrite Hin. split; [|by left].
    intros [H|H]; [done|by apply elem_of_nil in H].
  - rewrite load_languages_lookup_acc.
    by destruct (dict_get lang (reverse _)).
Qed.

(** X1.  With a [languages] section, [load_config] binds each language of
    the section once.  A language is bound to the value of its last entry,
    with the white space cut off both ends, and to its derived model; a
    language that is not in the section is not bound. *)
Theorem load_config_languages (c : ConfigParser) (cfg : config)
    (lang : pystr) :
  cp_has_section c (str "languages") = true →
  load_config c = Ok cfg →
  NoDup (cfg_languages cfg).*1
  ∧ (lang ∈ (cfg_languages cfg).*1
     ↔ lang ∈ (cp_items c (str "languages")).*1)
  ∧ dict_get lang (cfg_languages cfg)
    = (λ hotkey,
         {| lc_key := strip hotkey;
            lc_model := derive_model lang (cfg_model_size cfg) |})
      <$> dict_get lang (reverse (cp_items c (str "languages"))).
Proof. exact (load_config_languages_spec c cfg lang). Qed.

Lemma load_config_languages_witness :
  ∃ cfg, load_config two_languages = Ok cfg
         ∧ dict_get (str "en") (cfg_languages cfg)
           = Some {| lc_key := str "f9"; lc_model := str "base.en" |}.
Proof.
  eexists. split; [reflexivity|].
  pose proof (proj2 (proj2 (load_config_languages two_languages _ (str "en")
    eq_refl eq_refl))) as H.
  rewrite H. by vm_compute.
Defined.

Lemma load_config_single_hotkey_spec (c : ConfigParser) (cfg : config) :
  cp_has_section c (str "languages") = false →
  load_config c = Ok cfg →
  cfg_languages cfg
  = [(str "auto",
      {| lc_key := default (str "f12") (cp_option c (str "hotkey") (str "key"));
         lc_model := cfg_model_size cfg |})]
  ∧ derive_model (str "auto") (cfg_model_size cfg) = cfg_model_size cfg.
Proof.
  intros Hsec. unfold load_config. rewrite Hsec.
  destruct (cp_getboolean c _ _ _) as [a|e]; [|done].
  destruct (cp_getboolean c _ _ _) as [n|e]; [|done].
  intros [= <-]. split; [done|].
  unfold derive_model. by rewrite (proj2 (pystr_eqb_false _ _)).
Qed.

Lemma dict_get_is_Some {K V} `{EqDecision K} (k : K) (d : list (K * V)) :
  k ∈ d.*1 → is_Some (dict_get k d).
Proof.
  induction d as [|[k' v] d IH]; simpl; intros Hin.
  - by apply elem_of_nil in Hin.
  - destruct (decide (k' = k)) as [->|Hne]; [done|].
    apply elem_of_cons in Hin as [Heq|Hin]; [congruence|by apply IH].
Qed.

(** C5.  The derived model of a language is the base model name with [.en]
    appended when the language is exactly [en], and the base model name as
    it is for every other language, [auto] included: [en] over [base] gives
    [base.en], [fr] over [base] gives [base], [auto] over [small] gives
    [small].  This is the model that [load_config] gives: every language
    that it binds has the model derived from the configured base model,
    every language of the [languages] section is bound, and without that
    section [auto] is bound, to the base model. *)
Theorem derive_model_suffix (c : ConfigParser) (cfg : config) :
  load_config c = Ok cfg →
  let suffixed (lang base : pystr) :=
    base ++ (if decide (lang = str "en") then str ".en" else []) in
  (∀ lang base, derive_model lang base = suffixed lang base)
  ∧ (∀ lang lc, dict_get lang (cfg_languages cfg) = Some lc →
       lc_model lc = suffixed lang (cfg_model_size cfg))
  ∧ (if cp_has_section c (str "languages")
     then ∀ lang, lang ∈ (cp_items c (str "languages")).*1 →
            ∃ lc, dict_get lang (cfg_languages cfg) = Some lc
     else ∃ lc, dict_get (str "auto") (cfg_languages cfg) = Some lc
                ∧ lc_model lc = cfg_model_size cfg)
  ∧ derive_model (str "en") (str "base") = str "base.en"
  ∧ derive_model (str "fr") (str "base") = str "base"
  ∧ derive_model (str "auto") (str "small") = str "small".
Proof.
  intros Hc suffixed.
  assert (∀ lang base, derive_model lang base = suffixed lang base) as Hrule.
  { intros lang base. unfold derive_model, suffixed.
    destruct (decide (lang = str "en")) as [->|Hne].
    - by rewrite (proj2 (pystr_eqb_true _ _) eq_refl).
    - rewrite (proj2 (pystr_eqb_false _ _) Hne). by rewrite app_nil_r. }
  split; [exact Hrule|].
  destruct (cp_has_section c (str "languages")) eqn:Hsec.
  - split; [|split; [|by vm_compute]].
    + intros lang lc Hget.
      destruct (load_config_languages_spec c cfg lang Hsec Hc) as (_ & _ & Hl).
      rewrite Hl in Hget.
      destruct (dict_get lang (reverse _)) as [hotkey|]; [|done].
      injection Hget as <-. apply Hrule.
    + intros lang Hin.
      destruct (load_config_languages_spec c cfg lang Hsec Hc) as (_ & Hk & _).
      apply Hk, dict_get_is_Some in Hin. destruct Hin as [lc Hlc]. by exists lc.
  - destruct (load_config_single_hotkey_spec c cfg Hsec Hc) as [Hl Hd].
    rewrite Hl. split; [|split; [|by vm_compute]].
    + intros lang lc. simpl.
      destruct (decide (str "auto" = lang)) as [<-|]; [|done].
      intros [= <-]. cbn [lc_model]. by rewrite <- Hrule.
    + eexists. split; [by simpl|done].
Qed.

Lemma derive_model_suffix_witness :
  ∃ cfg, load_config two_languages = Ok cfg
         ∧ (∀ lang lc, dict_get lang (cfg_languages cfg) = Some lc →
              lc_model lc
              = cfg_model_size cfg
                ++ (if decide (lang = str "en") then str ".en" else []))
         ∧ ∃ lc, dict_get (str "en") (cfg_languages cfg) = Some lc.
Proof.
  eexists. split; [reflexivity|].
  pose proof (derive_model_suffix two_languages _ eq_refl) as (_ & H1 & H2 & _).
  split; [exact H1|]. apply H2.
  apply (bool_decide_unpack _). by vm_compute.
Defined.

(** ** The table of hotkeys *)

Section Hotkey_table.
Variable E : Env.

(** The key and the binding of one language of the settings. *)
Definition resolved_key (lc : lang_config) : key := (get_hotkey E (lc_key lc)).1.

Definition binding_of (l : pystr * lang_config) : key * binding :=
  (resolved_key l.2, {| b_lang := l.1; b_model := lc_model l.2 |}).

Lemma build_hotkey_to_lang_lookup languages table out k :
  dict_get k (build_hotkey_to_lang E languages table out).1
  = match dict_get k (reverse (binding_of <$> languages)) with
    | Some b => Some b
    | None => dict_get k table
    end.
Proof.
  revert table out.
  induction languages as [|[lang lc] languages IH]; intros table out; [done|].
  cbn [build_hotkey_to_lang].
  destruct (get_hotkey E (lc_key lc)) as [hotkey printed] eqn:Hk.
  rewrite IH, fmap_cons, reverse_cons, dict_get_app.
  destruct (dict_get k (reverse (binding_of <$> languages))); [done|].
  unfold binding_of, resolved_key. cbn [fst snd dict_get]. rewrite Hk.
  cbn [fst]. destruct (decide (hotkey = k)) as [->|Hne].
  - by rewrite dict_get_set_eq.
  - by rewrite dict_get_set_ne.
Qed.

Lemma dict_get_elem {K V} `{EqDecision K} (k : K) (v : V) d :
  dict_get k d = Some v → (k, v) ∈ d.
Proof.
  induction d as [|[k0 v0] d IH]; simpl; [done|].
  destruct (decide (k0 = k)) as [->|Hne].
  - intros [= ->]. by left.
  - intros H. right. by apply IH.
Qed.

Lemma dict_get_NoDup {K V} `{EqDecision K} (k : K) (v : V) d :
  NoDup d.*1 → (k, v) ∈ d → dict_get k d = Some v.
Proof.
  induction d as [|[k0 v0] d IH]; simpl; intros Hnd Hin.
  - by apply elem_of_nil in Hin.
  - apply NoDup_cons in Hnd as [Hk0 Hnd].
    apply elem_of_cons in Hin as [Heq|Hin].
    + simplify_eq. by rewrite decide_True.
    + destruct (decide (k0 = k)) as [->|Hne]; [|by apply IH].
      destruct Hk0. apply list_elem_of_fmap. by exists (k, v).
Qed.

Lemma dict_get_last {K V} `{EqDecision K} (k : K) (d1 d2 : list (K * V)) v :
  dict_get k (reverse (d1 ++ (k, v) :: d2))
  = match dict_get k (reverse d2) with Some v2 => Some v2 | None => Some v end.
Proof.
  rewrite reverse_app, reverse_cons, <- app_assoc, !dict_get_app.
  destruct (dict_get k (reverse d2)); [done|]. simpl. by rewrite decide_True.
Qed.

Lemma dict_get_None_Forall {K V} `{EqDecision K} (k : K) (d : list (K * V)) :
  dict_get k d = None ↔ Forall (λ x, x.1 ≠ k) d.
Proof.
  induction d as [|[k0 v0] d IH]; simpl.
  - split; [constructor|done].
  - destruct (decide (k0 = k)) as [->|Hne].
    + split; [done|]. intros H. apply Forall_cons in H as [H _]. by destruct H.
    + rewrite IH. split; [by constructor|].
      intros H. by apply Forall_cons in H as [_ H].
Qed.

Lemma load_config_NoDup c cfg :
  load_config c = Ok cfg → NoDup (cfg_languages cfg).*1.
Proof.
  intros H. destruct (cp_has_section c (str "languages")) eqn:Hsec.
  - by destruct (load_config_languages_spec c cfg [] Hsec H).
  - destruct (load_config_single_hotkey_spec c cfg Hsec H) as [-> _].
    apply NoDup_singleton.
Qed.

Lemma load_config_models c cfg :
  load_config c = Ok cfg →
  Forall (λ b, lc_model b.2 = derive_model b.1 (cfg_model_size cfg))
         (cfg_languages cfg).
Proof.
  intros H. destruct (cp_has_section c (str "languages")) eqn:Hsec.
  - revert H. unfold load_config. rewrite Hsec.
    destruct (cp_getboolean c _ _ _) as [a|e]; [|done].
    destruct (cp_getboolean c _ _ _) as [n|e]; [|done].
    intros [= <-]. cbn [cfg_languages cfg_model_size].
    apply load_languages_models. constructor.
  - destruct (load_config_single_hotkey_spec c cfg Hsec H) as [-> Hd].
    constructor; [|constructor]. cbn [fst snd lc_model]. by rewrite Hd.
Qed.

(** X4.  Every key of [HOTKEY_TO_LANG] comes from the settings: it is the
    key that the hotkey name of a language of the settings resolves to, and
    it is bound to that language and to the model derived for it, so [en]
    is always bound with the [.en] model and every other language with the
    base model. *)
Theorem hotkey_table_from_settings (c : ConfigParser) (G : Globals)
    (out : list pystr) (k : key) (b : binding) :
  module_init E c = Ok (G, out) →
  dict_get k (HOTKEY_TO_LANG G) = Some b →
  ∃ cfg lc,
    load_config c = Ok cfg
    ∧ dict_get (b_lang b) (cfg_languages cfg) = Some lc
    ∧ (get_hotkey E (lc_key lc)).1 = k
    ∧ b_model b = derive_model (b_lang b) (cfg_model_size cfg)
    ∧ DEVICE G = cfg_device cfg
    ∧ COMPUTE_TYPE G = cfg_compute_type cfg.
Proof.
  unfold module_init. destruct (load_config c) as [cfg|e] eqn:Hc; [|done].
  pose proof (build_hotkey_to_lang_lookup (cfg_languages cfg) [] [] k) as Hl.
  destruct (build_hotkey_to_lang E (cfg_languages cfg) [] []) as [table o].
  intros [= <- <-]. cbn [HOTKEY_TO_LANG DEVICE COMPUTE_TYPE fst] in *.
  rewrite Hl. clear Hl.
  destruct (dict_get k (reverse (binding_of <$> cfg_languages cfg)))
    as [b0|] eqn:Hb; [|done].
  intros [= ->]. apply dict_get_elem in Hb.
  apply elem_of_reverse, list_elem_of_fmap in Hb as ([lang lc] & Heq & Hin).
  unfold binding_of, resolved_key in Heq. cbn [fst snd] in Heq.
  simplify_eq. cbn [b_lang b_model].
  exists cfg, lc. split; [done|]. split.
  { apply dict_get_NoDup; [by eapply load_config_NoDup|done]. }
  split; [done|]. split; [|done].
  pose proof (load_config_models c cfg Hc) as Hm.
  rewrite Forall_forall in Hm. by apply (Hm (lang, lc)).
Qed.

(** X5.  When several languages of the settings resolve to the same key,
    for instance two unknown names that both fall back to [f12], the key
    is bound to the last of them: a language is reached by its key exactly
    when no later language resolves to that key. *)
Theorem hotkey_table_last_wins (c : ConfigParser) (cfg : config) (G : Globals)
    (out : list pystr) (before after : list (pystr * lang_config))
    (lang : pystr) (lc : lang_config) :
  load_config c = Ok cfg →
  module_init E c = Ok (G, out) →
  cfg_languages cfg = before ++ (lang, lc) :: after →
  dict_get (resolved_key lc) (HOTKEY_TO_LANG G)
    = Some {| b_lang := lang; b_model := lc_model lc |}
  ↔ Forall (λ l, resolved_key l.2 ≠ resolved_key lc) after.
Proof.
  intros Hc. unfold module_init. rewrite Hc.
  pose proof (build_hotkey_to_lang_lookup (cfg_languages cfg) [] []
    (resolved_key lc)) as Hl.
  destruct (build_hotkey_to_lang E (cfg_languages cfg) [] []) as [table o].
  intros [= <- <-] Hsplit. cbn [HOTKEY_TO_LANG fst] in *. rewrite Hl. clear Hl.
  pose proof (load_config_NoDup c cfg Hc) as Hnd. rewrite Hsplit in Hnd |- *.
  rewrite fmap_app, fmap_cons.
  change (binding_of (lang, lc))
    with (resolved_key lc, {| b_lang := lang; b_model := lc_model lc |}).
  rewrite dict_get_last.
  destruct (dict_get (resolved_key lc) (reverse (binding_of <$> after)))
    as [b2|] eqn:Hb2.
  - split.
    + intros [= ->]. apply dict_get_elem in Hb2.
      apply elem_of_reverse, list_elem_of_fmap in Hb2
        as ([lang2 lc2] & Heq & Hin).
      unfold binding_of in Heq. cbn [fst snd] in Heq. simplify_eq.
      rewrite fmap_app, fmap_cons in Hnd. apply NoDup_app in Hnd as (_ & _ & Hnd).
      apply NoDup_cons in Hnd as [Hnotin _]. destruct Hnotin.
      apply list_elem_of_fmap. by exists (lang2, lc2).
    + intros Hall. exfalso. apply dict_get_elem in Hb2.
      apply elem_of_reverse, list_elem_of_fmap in Hb2
        as ([lang2 lc2] & Heq & Hin).
      unfold binding_of in Heq. cbn [fst snd] in Heq. simplify_eq.
      rewrite Forall_forall in Hall. by apply (Hall (lang2, lc2)).
  - split; [|done]. intros _.
    apply dict_get_None_Forall in Hb2.
    rewrite Forall_reverse, Forall_fmap in Hb2. exact Hb2.
Qed.

End Hotkey_table.

Lemma hotkey_table_from_settings_witness :
  let E := machine (Ok 0%nat) (Ok []) in
  ∃ cfg lc,
    load_config two_languages = Ok cfg
    ∧ dict_get (str "en") (cfg_languages cfg) = Some lc
    ∧ (get_hotkey E (lc_key lc)).1 = f9
    ∧ str "base.en" = derive_model (str "en") (cfg_model_size cfg)
    ∧ DEVICE two_languages_globals = cfg_device cfg
    ∧ COMPUTE_TYPE two_languages_globals = cfg_compute_type cfg.
Proof.
  refine (hotkey_table_from_settings (machine (Ok 0%nat) (Ok []))
    two_languages two_languages_globals [] f9
    {| b_lang := str "en"; b_model := str "base.en" |} _ _);
    by vm_compute.
Defined.

Lemma hotkey_table_last_wins_witness :
  let E := machine (Ok 0%nat) (Ok []) in
  let en := {| lc_key := str "zz"; lc_model := str "base.en" |} in
  let de := {| lc_key := str "qq"; lc_model := str "base" |} in
  let table :=
    [(Key_ (str "f12"), {| b_lang := str "de"; b_model := str "base" |})] in
  resolved_key E en = Key_ (str "f12")
  ∧ (dict_get (resolved_key E en) table
       = Some {| b_lang := str "en"; b_model := str "base.en" |}
     ↔ Forall (λ l, resolved_key E l.2 ≠ resolved_key E en) [(str "de", de)]).
Proof.
  split; [by vm_compute|].
  refine (hotkey_table_last_wins (machine (Ok 0%nat) (Ok []))
    unknown_hotkeys
    {| cfg_model_size := str "base"; cfg_device := str "cpu";
       cfg_compute_type := str "int8";
       cfg_languages :=
         [(str "en", {| lc_key := str "zz"; lc_model := str "base.en" |});
          (str "de", {| lc_key := str "qq"; lc_model := str "base" |})];
       cfg_auto_type := true; cfg_notifications := true |}
    {| HOTKEY_TO_LANG :=
         [(Key_ (str "f12"), {| b_lang := str "de"; b_model := str "base" |})];
       DEVICE := str "cpu"; COMPUTE_TYPE := str "int8";
       AUTO_TYPE := true; NOTIFICATIONS := true |}
    [str "Unknown key: zz, defaulting to f12";
     str "Unknown key: qq, defaulting to f12"]
    [] [(str "de", {| lc_key := str "qq"; lc_model := str "base" |})]
    (str "en") {| lc_key := str "zz"; lc_model := str "base.en" |} _ _ _);
    by vm_compute.
Defined.

(** ** The check of the tools *)

Lemma check_commands_two (which : pystr → Z) :
  check_commands which [str "arecord"; str "xclip"] []
  = (if negb (which (str "arecord") =? 0)%Z
     then [(str "arecord", str "alsa-utils")] else [])
    ++ (if negb (which (str "xclip") =? 0)%Z
        then [(str "xclip", str "xclip")] else []).
Proof.
  cbn [check_commands].
  assert (pystr_eqb (str "arecord") (str "arecord") = true) as -> by done.
  assert (pystr_eqb (str "xclip") (str "arecord") = false) as -> by done.
  by destruct (negb (which (str "arecord") =? 0)%Z),
    (negb (which (str "xclip") =? 0)%Z).
Qed.

(** X6.  [check_dependencies] lets the program go on, and prints nothing,
    exactly when [arecord] and [xclip] are found and, if typing is switched
    on, [xdotool] is found too.  Otherwise it ends the process with status
    1, after a heading and one line for each missing tool; the line for
    [arecord] names the package [alsa-utils]. *)
Theorem check_dependencies_exit (G : Globals) (which : pystr → Z) :
  let r := check_dependencies G which in
  (r.2 = None
   ↔ which (str "arecord") = 0%Z ∧ which (str "xclip") = 0%Z
     ∧ (AUTO_TYPE G = true → which (str "xdotool") = 0%Z))
  ∧ (r.2 = None → r.1 = [])
  ∧ (r.2 ≠ None →
     r.2 = Some 1%Z
     ∧ r.1 !! 0%nat = Some (str "Missing dependencies:")
     ∧ length r.1
       = (1 + (if (which (str "arecord") =? 0)%Z then 0 else 1)
            + (if (which (str "xclip") =? 0)%Z then 0 else 1)
            + (if AUTO_TYPE G && negb (which (str "xdotool") =? 0)%Z
               then 1 else 0))%nat
     ∧ (which (str "arecord") ≠ 0%Z →
        r.1 !! 1%nat
        = Some (str "  arecord - install with: sudo apt install alsa-utils"))).
Proof.
  intros r. subst r. unfold check_dependencies. rewrite check_commands_two.
  destruct (which (str "arecord") =? 0)%Z eqn:Ha;
    destruct (which (str "xclip") =? 0)%Z eqn:Hx;
    destruct (AUTO_TYPE G) eqn:Ht;
    destruct (which (str "xdotool") =? 0)%Z eqn:Hd;
    rewrite ?Z.eqb_eq, ?Z.eqb_neq in *;
    cbn [negb app fst snd fmap list_fmap andb];
    (split; [split; [try done; by (intros _; repeat split)
                    |try done; intros (H1 & H2 & H3);
                     first [done | by (specialize (H3 eq_refl))]]|]);
    (split; [done|]); intros Hne; try done;
    (split; [done|]); (split; [done|]); (split; [done|]);
    intros Hna; first [done | by vm_compute].
Qed.

(** X7.  With typing switched off, [xdotool] is not looked for: the result
    of [check_dependencies] does not depend on whether it is there. *)
Theorem check_dependencies_no_xdotool (G : Globals) (which which' : pystr → Z) :
  AUTO_TYPE G = false →
  which' (str "arecord") = which (str "arecord") →
  which' (str "xclip") = which (str "xclip") →
  check_dependencies G which' = check_dependencies G which.
Proof.
  intros Ht Ha Hx. unfold check_dependencies.
  by rewrite !check_commands_two, Ht, Ha, Hx.
Qed.

Lemma check_dependencies_no_xdotool_witness :
  check_dependencies
    {| HOTKEY_TO_LANG := []; DEVICE := str "cpu"; COMPUTE_TYPE := str "int8";
       AUTO_TYPE := false; NOTIFICATIONS := true |}
    (λ cmd, if bool_decide (cmd = str "xdotool") then 1%Z else 0%Z)
  = check_dependencies
    {| HOTKEY_TO_LANG := []; DEVICE := str "cpu"; COMPUTE_TYPE := str "int8";
       AUTO_TYPE := false; NOTIFICATIONS := true |}
    (λ _, 0%Z).
Proof.
  apply check_dependencies_no_xdotool; by vm_compute.
Defined.

(** ** The start and the end of a recording *)

Section Session_facts.
Variable E : Env.
Variable G : Globals.

Lemma start_recording_idle_spec (language model_name : pystr) (hotkey : key)
    (s : state) :
  recording s.1 = false →
  let r := start_recording E G language model_name hotkey s in
  let p := fresh (files s.2) in
  let pid := length (procs s.2) in
  r.1 ≠ Blocked
  ∧ recording r.2.1 = true
  ∧ active_language r.2.1 = Some language
  ∧ active_model_name r.2.1 = Some model_name
  ∧ is_Some (models r.2.1 !! Some model_name)
  ∧ temp_file r.2.1 = Some p
  ∧ ¬ (p ∈ files s.2)
  ∧ files r.2.2 = {[p]} ∪ files s.2
  ∧ record_process r.2.1 = Some pid
  ∧ procs r.2.2 = procs s.2 ++ [Running]
  ∧ Arecord pid p ∈ new_events s r.2.
Proof.
  destruct s as [d w]. cbn [fst snd]. intros Hrec. cbn zeta.
  set (p := fresh (files w)). set (pid := length (procs w)).
  change (wp (start_recording E G language model_name hotkey) (d, w)
    (λ o s', o ≠ Blocked
       ∧ recording s'.1 = true
       ∧ active_language s'.1 = Some language
       ∧ active_model_name s'.1 = Some model_name
       ∧ is_Some (models s'.1 !! Some model_name)
       ∧ temp_file s'.1 = Some p
       ∧ ¬ (p ∈ files w)
       ∧ files s'.2 = {[p]} ∪ files w
       ∧ record_process s'.1 = Some pid
       ∧ procs s'.2 = procs w ++ [Running]
       ∧ Arecord pid p ∈ new_events (d, w) s')).
  unfold start_recording. wp_prim. wp_prim. rewrite Hrec.
  apply wp_bind. unfold wp at 1.
  assert (∃ d1 w1 l,
    _get_or_load_model (Some model_name) (d, w) = (Ret l, (d1, w1))
    ∧ is_Some (models d1 !! Some model_name)
    ∧ files w1 = files w ∧ procs w1 = procs w
    ∧ ∃ pre, log w1 = log w ++ pre) as (d1 & w1 & l & -> & Hm & Hf & Hp & pre & Hl).
  { destruct (models d !! Some model_name) as [l|] eqn:Hm.
    - rewrite (_get_or_load_model_hit _ l (d, w) Hm).
      exists d, w, l. repeat split; [by rewrite Hm|]. exists [].
      by rewrite app_nil_r.
    - rewrite (_get_or_load_model_miss _ (d, w) Hm). cbn [fst snd].
      eexists _, _, _. split; [done|]. cbn [models set_models].
      rewrite lookup_insert_eq. repeat split; [done|].
      by exists [Thread_start (Some model_name)]. }
  cbn [after_bind fst snd]. repeat wp_prim.
  cbn [files set_files emit procs set_procs]. rewrite Hf, Hp.
  fold p pid.
  apply wp_notify_event; [|intros e]; unfold notified; cbn [fst snd];
    destruct (NOTIFICATIONS G);
    (split; [done|]); cbn [recording active_language active_model_name
      temp_file record_process models set_recording set_active_language
      set_active_model_name set_temp_file set_record_process files procs
      set_files set_procs emit];
    (repeat split; try done; rewrite ?Hf, ?Hp; try done; [apply is_fresh|]);
    (erewrite new_events_app;
       [|cbn [snd log emit set_files set_procs]; rewrite Hl, <- ?app_assoc;
         reflexivity]);
    rewrite !elem_of_app, !list_elem_of_singleton; tauto.
Qed.

Lemma stop_recording_keeps_session_spec (s : state) :
  let s' := (stop_recording E G s).2 in
  recording s'.1 = false
  ∧ active_language s'.1 = active_language s.1
  ∧ active_model_name s'.1 = active_model_name s.1
  ∧ temp_file s'.1 = temp_file s.1
  ∧ (files s'.2 = files s.2
     ∨ ∃ p, temp_file s.1 = Some p ∧ files s'.2 = files s.2 ∖ {[p]}).
Proof.
  destruct (recording s.1) eqn:Hrec.
  - pose proof (stop_recording_spec E G s Hrec) as H. unfold wp in H.
    by destruct H as (H1 & H2 & H3 & H4 & H5 & _).
  - rewrite stop_recording_idle by done. cbn [snd]. repeat split; try done.
    by left.
Qed.

(** X9.  [stop_recording] always leaves the object not recording, and it
    does not forget the session: the active language, the active model and
    the temporary file stay as they were.  The only file it can remove is
    the temporary file of the session. *)
Theorem stop_recording_keeps_session (s : state) :
  let s' := (stop_recording E G s).2 in
  recording s'.1 = false
  ∧ active_language s'.1 = active_language s.1
  ∧ active_model_name s'.1 = active_model_name s.1
  ∧ temp_file s'.1 = temp_file s.1
  ∧ (files s'.2 = files s.2
     ∨ ∃ p, temp_file s.1 = Some p ∧ files s'.2 = files s.2 ∖ {[p]}).
Proof. exact (stop_recording_keeps_session_spec s). Qed.

End Session_facts.

Lemma stop_recording_removes_temp_file_witness :
  let E := machine (Ok 0%nat) (Ok [str "hello"]) in
  let G := two_languages_globals in
  let s := (on_press E G f9 initial).2 in
  ¬ (0%nat ∈ files (stop_recording E G s).2.2).
Proof.
  refine (stop_recording_removes_temp_file (machine (Ok 0%nat) (Ok [str "hello"]))
    two_languages_globals
    (on_press (machine (Ok 0%nat) (Ok [str "hello"])) two_languages_globals f9
       initial).2 0%nat 0%nat (kwargs_with None) 0%nat _ _ _).
  - by vm_compute.
  - by vm_compute.
  - apply (bool_decide_unpack _). by vm_compute.
Defined.

(** ** Methods that keep a relation

    [keeps R m]: every run of [m] takes a state to a state related to it
    by [R].  For a relation that is reflexive and transitive this follows
    from the same for the parts of [m]. *)

Section Keeps.
Variable R : state → state → Prop.
Hypothesis R_refl : ∀ s, R s s.
Hypothesis R_trans : ∀ s1 s2 s3, R s1 s2 → R s2 s3 → R s1 s3.

Definition keeps {A} (m : M A) : Prop := ∀ s, R s (m s).2.

Lemma keeps_ret {A} (a : A) : keeps (ret a).
Proof. intros s. apply R_refl. Qed.

Lemma keeps_raise {A} e : keeps (raise (A := A) e).
Proof. intros s. apply R_refl. Qed.

Lemma keeps_get_self : keeps get_self.
Proof. intros s. apply R_refl. Qed.

Lemma keeps_get_world : keeps get_world.
Proof. intros s. apply R_refl. Qed.

Lemma keeps_bind {A B} (m : M A) (k : A → M B) :
  keeps m → (∀ a, keeps (k a)) → keeps (m ≫= k).
Proof.
  intros Hm Hk s. unfold mbind, M_bind, bind. specialize (Hm s).
  destruct (m s) as [[a|e|] s1]; cbn [snd] in *; [|done..].
  eapply R_trans; [exact Hm|apply Hk].
Qed.

Lemma keeps_try_except {A} (body : M A) handler :
  keeps body → (∀ e, keeps (handler e)) → keeps (try_except body handler).
Proof.
  intros Hb Hh s. unfold try_except. specialize (Hb s).
  destruct (body s) as [[a|e|] s1]; cbn [snd] in *; [done| |done].
  eapply R_trans; [exact Hb|apply Hh].
Qed.

Lemma keeps_try_finally {A} (body : M A) fin :
  keeps body → keeps fin → keeps (try_finally body fin).
Proof.
  intros Hb Hf s. unfold try_finally. specialize (Hb s).
  destruct (body s) as [[a|e|] s1]; cbn [snd] in *; [| |done];
    specialize (Hf s1); destruct (fin s1) as [[[]|e1|] s2];
    cbn [snd] in *; by eapply R_trans.
Qed.

Lemma keeps_upd_self f : (∀ s, R s (f s.1, s.2)) → keeps (upd_self f).
Proof. intros H s. apply H. Qed.

Lemma keeps_upd_world f : (∀ s, R s (s.1, f s.2)) → keeps (upd_world f).
Proof. intros H s. apply H. Qed.

Lemma keeps_external ev r :
  (∀ s, R s (s.1, emit ev s.2)) → keeps (external ev r).
Proof.
  intros H. unfold external. apply keeps_bind.
  - by apply keeps_upd_world.
  - intros _. destruct r; [apply keeps_raise|apply keeps_ret].
Qed.

Lemma keeps_foldl {I} (f : I → state → state) js :
  (∀ i s, R s (f i s)) → ∀ s, R s (foldl (λ s i, f i s) s js).
Proof.
  intros H. induction js as [|i js IH]; intros s; simpl; [apply R_refl|].
  eapply R_trans; [apply H|apply IH].
Qed.

Lemma keeps_Event_wait E G l :
  (∀ i s, R s (loader_action E G i s)) → keeps (Event_wait E G l).
Proof.
  intros H s. unfold Event_wait.
  destruct (heap s.2 !! l) as [e|]; [|apply R_refl].
  destruct (e_loaded e); [apply R_refl|].
  assert (R s (foldl (λ s i, run_loader E G i s) s
                 (holders s.1 l 0 (threads s.2)))) as Hr.
  { apply keeps_foldl. intros i s0. unfold run_loader.
    eapply R_trans; [apply H|]. eapply R_trans; apply H. }
  destruct (heap _ !! l) as [e1|]; [|done]. by destruct (e_loaded e1).
Qed.

Lemma keeps_wp {A} (m : M A) s (Q : outcome A → state → Prop) :
  keeps m → (∀ o s1, R s s1 → Q o s1) → wp m s Q.
Proof. intros Hm HQ. unfold wp. apply HQ, Hm. Qed.

End Keeps.

(** One step through a method: [rfl] and [trans] are the proofs that the
    relation is reflexive and transitive, [side] solves what a write to the
    object or to the world has to show. *)
Ltac keeps_step rfl trans side :=
  lazymatch goal with
  | |- keeps _ get_self => apply (keeps_get_self _ rfl)
  | |- keeps _ get_world => apply (keeps_get_world _ rfl)
  | |- keeps _ (ret _) => apply (keeps_ret _ rfl)
  | |- keeps _ (raise _) => apply (keeps_raise _ rfl)
  | |- keeps _ (_ ≫= _) => apply (keeps_bind _ trans); [|intros ?]
  | |- keeps _ (try_except _ _) =>
      apply (keeps_try_except _ trans); [|intros ?]
  | |- keeps _ (try_finally _ _) => apply (keeps_try_finally _ trans)
  | |- keeps _ (Event_wait _ _ _) =>
      apply (keeps_Event_wait _ rfl trans); intros ? ?; side
  | |- keeps _ (external _ _) =>
      apply (keeps_external _ rfl trans); intros ?; side
  | |- keeps _ (print _) => apply keeps_upd_world; intros ?; side
  | |- keeps _ (upd_self _) => apply keeps_upd_self; intros ?; side
  | |- keeps _ (upd_world _) => apply keeps_upd_world; intros ?; side
  | |- keeps _ (notify _ _ _ _ _ _) => unfold notify
  | |- keeps _ (_get_or_load_model _) => unfold _get_or_load_model
  | |- keeps _ (transcribe_and_deliver _ _ _) =>
      unfold transcribe_and_deliver
  | |- keeps _ language_kwarg => unfold language_kwarg
  | |- keeps _ (report_error _ _ _) => unfold report_error
  | |- keeps _ cleanup_temp_file => unfold cleanup_temp_file
  | |- keeps _ (match ?x with _ => _ end) => destruct x eqn:?
  end.

(** What a run adds to the log. *)
Definition log_grows (P : event → Prop) (s s' : state) : Prop :=
  ∃ new, log s'.2 = log s.2 ++ new ∧ Forall P new.

Lemma log_grows_refl P s : log_grows P s s.
Proof. exists []. by rewrite app_nil_r. Qed.

Lemma log_grows_trans P s1 s2 s3 :
  log_grows P s1 s2 → log_grows P s2 s3 → log_grows P s1 s3.
Proof.
  intros (n1 & H1 & P1) (n2 & H2 & P2). exists (n1 ++ n2). split.
  - by rewrite H2, H1, app_assoc.
  - by apply Forall_app.
Qed.

Lemma log_grows_same P (s s' : state) : log s'.2 = log s.2 → log_grows P s s'.
Proof. intros H. exists []. by rewrite app_nil_r. Qed.

Lemma log_grows_emit P s ev : P ev → log_grows P s (s.1, emit ev s.2).
Proof. intros H. exists [ev]. split; [done|]. by constructor. Qed.

Lemma log_grows_loader P E G i s :
  (∀ line, P (Stdout line)) → log_grows P s (loader_action E G i s).
Proof.
  intros HP. destruct (loader_action_frame E G i s)
    as (_ & _ & _ & new & Hl & Hnew).
  exists new. split; [done|]. eapply Forall_impl; [exact Hnew|].
  intros [] H; first [done|apply HP].
Qed.

Lemma log_grows_new_events P (s s' : state) :
  log_grows P s s' → Forall P (new_events s s').
Proof. intros (new & Hl & HP). by rewrite (new_events_app _ _ _ Hl). Qed.

Ltac log_side :=
  repeat match goal with
         | H : negb _ = false |- _ => apply negb_false_iff in H
         end;
  first
    [ apply log_grows_loader; intros ?; by auto
    | apply log_grows_same; reflexivity
    | apply log_grows_emit; by auto ].

Section Log_facts.
Variable E : Env.
Variable G : Globals.
Variable P : event → Prop.

(** The events that every run may log, whatever the settings: what the
    loaders print, the start of a loader, the capture process and its file,
    the engine call, the clipboard call, the removal of the file. *)
Hypothesis P_stdout : ∀ line, P (Stdout line).
Hypothesis P_thread : ∀ m, P (Thread_start m).
Hypothesis P_tempfile : ∀ p, P (Tempfile p).
Hypothesis P_arecord : ∀ pid p, P (Arecord pid p).
Hypothesis P_terminate : ∀ pid, P (Terminate pid).
Hypothesis P_transcribe : ∀ h p kw, P (Transcribe h p kw).
Hypothesis P_xclip : ∀ t, P (Xclip t).
Hypothesis P_unlink : ∀ p, P (Unlink p).
(** The typing, when it is switched on. *)
Hypothesis P_xdotool : AUTO_TYPE G = true → ∀ t, P (Xdotool t).
(** The notices of the program, when they are switched on. *)
Hypothesis P_recording : NOTIFICATIONS G = true → ∀ display name,
  P (Notify (str "Recording (" ++ display ++ str ")...")
            (str "Release " ++ name ++ str " when done")
            (str "audio-input-microphone") 30000).
Hypothesis P_transcribing : NOTIFICATIONS G = true →
  P (Notify (str "Transcribing...") (str "Processing your speech")
            (str "emblem-synchronizing") 30000).
Hypothesis P_failed : NOTIFICATIONS G = true →
  P (Notify (str "Error") (str "Model failed to load") (str "dialog-error")
            3000).
Hypothesis P_copied : NOTIFICATIONS G = true → ∀ text,
  P (Notify (str "Copied!")
            (take 100 text
             ++ (if (100 <? length text)%nat then str "..." else []))
            (str "emblem-ok-symbolic") 3000).
Hypothesis P_no_speech : NOTIFICATIONS G = true → P no_speech_notice.
Hypothesis P_error : NOTIFICATIONS G = true → ∀ e,
  P (Notify (str "Error") (take 50 e) (str "dialog-error") 3000).

Ltac log_step :=
  keeps_step (log_grows_refl P) (log_grows_trans P) ltac:(log_side).

Lemma start_recording_logs language model_name hotkey :
  keeps (log_grows P) (start_recording E G language model_name hotkey).
Proof. unfold start_recording. repeat log_step. Qed.

Lemma stop_recording_logs : keeps (log_grows P) (stop_recording E G).
Proof. unfold stop_recording. repeat log_step. Qed.

Lemma step_logs a s : log_grows P s (step E G a s).
Proof.
  destruct a as [k|k|m|i]; simpl.
  - unfold on_press. destruct (dict_get k (HOTKEY_TO_LANG G)).
    + apply start_recording_logs.
    + apply log_grows_refl.
  - unfold on_release.
    apply (keeps_bind _ (log_grows_trans P) get_self);
      [apply (keeps_get_self _ (log_grows_refl P))|].
    intros d. destruct (_ && _);
      [apply stop_recording_logs|apply (keeps_ret _ (log_grows_refl P))].
  - assert (keeps (log_grows P) (_get_or_load_model m)) as H
      by (repeat log_step). apply H.
  - by apply log_grows_loader.
Qed.

Lemma run_logs acts s : log_grows P s (run E G acts s).
Proof.
  revert s. induction acts as [|a acts IH]; intros s; simpl.
  - apply log_grows_refl.
  - eapply log_grows_trans; [apply step_logs|apply IH].
Qed.

End Log_facts.

(** ** What the switches switch off, and how long a notice is *)

Definition is_typing (ev : event) : Prop :=
  match ev with Xdotool _ => True | _ => False end.

(** A report of an error carries at most 50 characters of the error, and a
    report of a copied text at most 100 characters of it and three dots. *)
Definition notice_bounded (ev : event) : Prop :=
  match ev with
  | Notify title message _ _ =>
      (title = str "Error" → (length message ≤ 50)%nat)
      ∧ (title = str "Copied!" → (length message ≤ 103)%nat)
  | _ => True
  end.

(** X10.  With the notices switched off, no run of the program, from any
    state, sends a notice. *)
Theorem notifications_off (E : Env) (G : Globals) (acts : list action)
    (s : state) :
  NOTIFICATIONS G = false →
  Forall (λ ev, ¬ is_notify ev) (new_events s (run E G acts s)).
Proof.
  intros Hoff. apply log_grows_new_events.
  apply run_logs; intros; first [congruence | by intros []].
Qed.

(** X11.  With the typing switched off, no run of the program, from any
    state, types the text: the text goes to the clipboard only. *)
Theorem auto_type_off (E : Env) (G : Globals) (acts : list action)
    (s : state) :
  AUTO_TYPE G = false →
  Forall (λ ev, ¬ is_typing ev) (new_events s (run E G acts s)).
Proof.
  intros Hoff. apply log_grows_new_events.
  apply run_logs; intros; first [congruence | by intros []].
Qed.

(** X12.  In every run of the program, from any state, a notice of an error
    has a body of at most 50 characters and a notice of a copied text a
    body of at most 103 characters, however long the error or the text. *)
Theorem notices_are_bounded (E : Env) (G : Globals) (acts : list action)
    (s : state) :
  Forall notice_bounded (new_events s (run E G acts s)).
Proof.
  apply log_grows_new_events. apply run_logs; try done.
  - intros _. split; [intros _; apply Nat.leb_le; by vm_compute|done].
  - intros _ text. split; [done|]. intros _.
    rewrite length_app, length_take.
    destruct (100 <? length text)%nat;
      [change (length (str "...")) with 3%nat
      |change (length (@nil N)) with 0%nat]; lia.
  - intros _ e. split; [|done]. intros _. rewrite length_take. lia.
Qed.

Definition quiet_globals : Globals :=
  {| HOTKEY_TO_LANG :=
       [(Key_ (str "f9"), {| b_lang := str "en"; b_model := str "base.en" |})];
     DEVICE := str "cpu";
     COMPUTE_TYPE := str "int8";
     AUTO_TYPE := false;
     NOTIFICATIONS := false |}.

Lemma notifications_off_witness :
  Forall (λ ev, ¬ is_notify ev)
    (new_events initial
       (run (machine (Ok 0%nat) (Ok [str "hello"])) quiet_globals
            [Press f9; Release f9] initial)).
Proof.
  exact (notifications_off (machine (Ok 0%nat) (Ok [str "hello"]))
    quiet_globals [Press f9; Release f9] initial eq_refl).
Defined.

Lemma auto_type_off_witness :
  Forall (λ ev, ¬ is_typing ev)
    (new_events initial
       (run (machine (Ok 0%nat) (Ok [str "hello"])) quiet_globals
            [Press f9; Release f9] initial)).
Proof.
  exact (auto_type_off (machine (Ok 0%nat) (Ok [str "hello"]))
    quiet_globals [Press f9; Release f9] initial eq_refl).
Defined.

(** ** Runs of the program *)

(** The events of the keys that are bound, and of the threads. *)
Definition is_bound (G : Globals) (a : action) : bool :=
  match a with
  | Press k | Release k => dict_in k (HOTKEY_TO_LANG G)
  | Acquire _ | Loader _ => true
  end.

(** X13.  Key events of keys that are not bound change nothing: a run ends
    in the same state as the run without them. *)
Theorem unbound_keys_ignored (E : Env) (G : Globals) (acts : list action)
    (s : state) :
  run E G (filter (λ a, is_bound G a = true) acts) s = run E G acts s.
Proof.
  revert s. induction acts as [|a acts IH]; intros s; [done|].
  destruct (is_bound G a) eqn:Hb.
  - rewrite filter_cons_True by done. simpl. apply IH.
  - rewrite filter_cons_False by (by rewrite Hb). simpl. rewrite IH.
    f_equal. destruct a as [k|k| |]; simpl in Hb; try done; simpl.
    + unfold on_press. unfold dict_in in Hb.
      by destruct (dict_get k (HOTKEY_TO_LANG G)).
    + unfold on_release, mbind, M_bind, bind, get_self. cbn [fst snd].
      by rewrite Hb.
Qed.

Section Run_facts.
Variable E : Env.
Variable G : Globals.

(** The files that were there at the start are there, and the temporary
    file of the object is not one of them. *)
Definition files_inv (F : gset nat) (s : state) : Prop :=
  F ⊆ files s.2 ∧ ∀ p, temp_file s.1 = Some p → p ∉ F.

Lemma step_files_inv F a s : files_inv F s → files_inv F (step E G a s).
Proof.
  intros [Hsub Htmp]. destruct a as [k|k|m|i]; simpl.
  - unfold on_press. destruct (dict_get k (HOTKEY_TO_LANG G)) as [b|]; [|done].
    destruct (recording s.1) eqn:Hrec.
    { by rewrite start_recording_busy. }
    destruct (start_recording_idle_spec E G (b_lang b) (b_model b) k s Hrec)
      as (_ & _ & _ & _ & _ & Ht & Hfresh & Hf & _).
    split.
    + rewrite Hf. by apply union_subseteq_r'.
    + intros p. rewrite Ht. intros [= <-] Hin. apply Hfresh. by apply Hsub.
  - assert ((on_release E G k s).2 = (stop_recording E G s).2 ∨ (on_release E G k s).2 = s) as [->| ->]; [|
      |done].
    { unfold on_release, mbind, M_bind, bind, get_self. cbn [fst snd].
      destruct (_ && _); [by left|by right]. }
    destruct (stop_recording_keeps_session_spec E G s) as (_ & _ & _ & Ht & Hf).
    split.
    + destruct Hf as [->|(p & Hp & ->)]; [done|].
      intros x Hx. apply elem_of_difference. split; [by apply Hsub|].
      rewrite elem_of_singleton. intros ->. by apply (Htmp p).
    + intros p. rewrite Ht. apply Htmp.
  - pose proof (_get_or_load_model_around m s) as H. unfold wp in H.
    destruct H as [(_ & _ & _ & Ht & Hf & _) _]. split.
    + by rewrite Hf.
    + intros p. rewrite Ht. apply Htmp.
  - destruct (loader_action_frame E G i s) as (Hd & Hf & _). split.
    + by rewrite Hf.
    + intros p. rewrite Hd. apply Htmp.
Qed.


(** X14.  No run of the program removes a file that was there when the
    program started: the only files it removes are temporary files of its
    own sessions. *)
Theorem startup_files_kept (w0 : World) (acts : list action) :
  files w0 ⊆ files (run E G acts (Dictation_init, w0)).2.
Proof.
  assert (∀ s, files_inv (files w0) s →
               files_inv (files w0) (run E G acts s)) as H.
  { induction acts as [|a acts IH]; intros s Hs; [done|].
    simpl. by apply IH, step_files_inv. }
  apply (H (Dictation_init, w0)). split; [done|]. by intros p.
Qed.

(** The capture process and the fields of the object that speak of it. *)
Definition capture_kept (s s' : state) : Prop :=
  procs s'.2 = procs s.2
  ∧ record_process s'.1 = record_process s.1
  ∧ recording s'.1 = recording s.1.

Lemma capture_kept_refl s : capture_kept s s.
Proof. done. Qed.

Lemma capture_kept_trans s1 s2 s3 :
  capture_kept s1 s2 → capture_kept s2 s3 → capture_kept s1 s3.
Proof.
  intros (H1 & H2 & H3) (H4 & H5 & H6).
  repeat split; congruence.
Qed.

Lemma capture_kept_loader i s : capture_kept s (loader_action E G i s).
Proof.
  destruct (loader_action_frame E G i s) as (Hd & _ & Hp & _).
  unfold capture_kept. by rewrite Hd, Hp.
Qed.

Ltac capture_step :=
  keeps_step capture_kept_refl capture_kept_trans
    ltac:(first [apply capture_kept_loader | by repeat split]).

Lemma _get_or_load_model_capture m :
  keeps capture_kept (_get_or_load_model m).
Proof. repeat capture_step. Qed.

(** [stop_recording] ends the capture process that the object remembers,
    and no other. *)
Lemma stop_recording_capture s :
  recording s.1 = true →
  let s' := (stop_recording E G s).2 in
  recording s'.1 = false
  ∧ record_process s'.1 = None
  ∧ procs s'.2
    = match record_process s.1 with
      | Some pid => <[pid := Exited]> (procs s.2)
      | None => procs s.2
      end.
Proof.
  destruct s as [d w]. cbn [fst snd]. intros Hrec. cbn zeta.
  change (wp (stop_recording E G) (d, w) (λ _ s',
    recording s'.1 = false ∧ record_process s'.1 = None
    ∧ procs s'.2 = match record_process d with
                   | Some pid => <[pid := Exited]> (procs w)
                   | None => procs w
                   end)).
  unfold stop_recording. wp_prim. wp_prim. rewrite Hrec. cbn [negb].
  wp_prim. wp_prim. apply wp_bind.
  apply (wp_mono _ _ (λ o s', o = Ret tt
    ∧ recording s'.1 = false ∧ record_process s'.1 = None
    ∧ procs s'.2 = match record_process d with
                   | Some pid => <[pid := Exited]> (procs w)
                   | None => procs w
                   end)).
  { destruct (record_process d) as [pid|] eqn:Hp; repeat wp_prim;
      repeat split; try done. }
  intros o s1 (-> & H1 & H2 & H3). cbn [after_bind].
  apply (keeps_wp capture_kept).
  - repeat capture_step.
  - intros o s2 (H4 & H5 & H6). by rewrite H4, H5, H6.
Qed.

(** At most one capture process runs, and the object knows it. *)
Definition capture_inv (s : state) : Prop :=
  match record_process s.1 with
  | Some pid =>
      recording s.1 = true ∧ procs s.2 !! pid = Some Running
      ∧ ∀ j, j ≠ pid → procs s.2 !! j ≠ Some Running
  | None => recording s.1 = false ∧ ∀ j, procs s.2 !! j ≠ Some Running
  end.

Lemma capture_inv_kept s s' : capture_kept s s' → capture_inv s → capture_inv s'.
Proof. intros (H1 & H2 & H3). unfold capture_inv. by rewrite H1, H2, H3. Qed.

Lemma step_capture_inv a s : capture_inv s → capture_inv (step E G a s).
Proof.
  intros Hinv. destruct a as [k|k|m|i]; simpl.
  - unfold on_press. destruct (dict_get k (HOTKEY_TO_LANG G)) as [b|]; [|done].
    destruct (recording s.1) eqn:Hrec.
    { by rewrite start_recording_busy. }
    destruct (start_recording_idle_spec E G (b_lang b) (b_model b) k s Hrec)
      as (_ & Hr & _ & _ & _ & _ & _ & _ & Hp & Hps & _).
    unfold capture_inv in *. rewrite Hp, Hps, Hr.
    destruct (record_process s.1) as [pid|]; [destruct Hinv; congruence|].
    destruct Hinv as [_ Hnone]. split; [done|]. split.
    + by apply list_lookup_middle.
    + intros j Hj Hrun. apply lookup_app_Some in Hrun as [Hrun|[Hle Hrun]].
      * by apply (Hnone j).
      * apply list_lookup_singleton_Some in Hrun as [Hrun _]. lia.
  - assert ((on_release E G k s).2 = s
            ∨ (recording s.1 = true
               ∧ (on_release E G k s).2 = (stop_recording E G s).2))
      as [->|[Hrec ->]]; [|done|].
    { unfold on_release, mbind, M_bind, bind, get_self. cbn [fst snd].
      destruct (dict_in k (HOTKEY_TO_LANG G)); [|by left].
      destruct (recording s.1); [by right|by left]. }
    destruct (stop_recording_capture s Hrec) as (Hr & Hp & Hps).
    unfold capture_inv in *. rewrite Hp, Hps, Hr. split; [done|].
    destruct (record_process s.1) as [pid|].
    + destruct Hinv as (_ & Hrun & Hothers). intros j.
      destruct (decide (j = pid)) as [->|Hne].
      * rewrite list_lookup_insert_eq by (by eapply lookup_lt_Some). done.
      * rewrite list_lookup_insert_ne by done. by apply Hothers.
    + by destruct Hinv.
  - eapply capture_inv_kept; [apply _get_or_load_model_capture|done].
  - eapply capture_inv_kept; [apply capture_kept_loader|done].
Qed.

(** X15.  In every run of the program at most one capture process that
    the program has started is not yet ended by it.  There is one only
    while the object is recording, and it is the process the object
    remembers: no capture process is left behind by a release. *)
Theorem one_capture_process (acts : list action) :
  let s := run E G acts initial in
  (∀ i j, procs s.2 !! i = Some Running → procs s.2 !! j = Some Running →
          i = j)
  ∧ (∀ pid, procs s.2 !! pid = Some Running →
            recording s.1 = true ∧ record_process s.1 = Some pid).
Proof.
  assert (∀ s, capture_inv s → capture_inv (run E G acts s)) as H.
  { induction acts as [|a acts IH]; intros s Hs; [done|].
    simpl. by apply IH, step_capture_inv. }
  specialize (H initial). cbn zeta. revert H.
  generalize (run E G acts initial). intros s H.
  assert (capture_inv s) as Hinv.
  { apply H. split; [done|]. intros j. simpl. by rewrite lookup_nil. }
  clear H. unfold capture_inv in Hinv.
  destruct (record_process s.1) as [pid|].
  - destruct Hinv as (Hrec & Hrun & Hothers). split.
    + intros i j Hi Hj.
      destruct (decide (i = pid)) as [->|Hi']; [|by destruct (Hothers i)].
      destruct (decide (j = pid)) as [->|Hj']; [done|by destruct (Hothers j)].
    + intros p Hp. split; [done|].
      destruct (decide (p = pid)) as [->|Hne]; [done|].
      by destruct (Hothers p).
  - destruct Hinv as (Hrec & Hnone). split.
    + intros i j Hi. by destruct (Hnone i).
    + intros p Hp. by destruct (Hnone p).
Qed.

End Run_facts.

(** ** The engines of the cache *)

Section Engine_facts.
Variable E : Env.
Variable G : Globals.

(** A handle that the constructor of the engine has returned. *)
Definition constructed_handle (h : nat) : Prop :=
  ∃ m, WhisperModel E m (DEVICE G) (COMPUTE_TYPE G) = Ok h.

Definition entry_ok (e : entry) : Prop :=
  ∀ h, e_model e = Some h → constructed_handle h.

Definition handles_ok (s : state) : Prop :=
  ∀ l e, heap s.2 !! l = Some e → entry_ok e.

Definition engine_event_ok (ev : event) : Prop :=
  match ev with
  | Transcribe h _ _ => constructed_handle h
  | _ => True
  end.

(** From a heap of constructed handles to a heap of constructed handles,
    with engine calls on constructed handles only. *)
Definition engines_kept (s s' : state) : Prop :=
  handles_ok s → handles_ok s' ∧ log_grows engine_event_ok s s'.

Lemma engines_kept_refl s : engines_kept s s.
Proof. intros H. split; [done|apply log_grows_refl]. Qed.

Lemma engines_kept_trans s1 s2 s3 :
  engines_kept s1 s2 → engines_kept s2 s3 → engines_kept s1 s3.
Proof.
  intros H12 H23 H1. destruct (H12 H1) as [H2 L12].
  destruct (H23 H2) as [H3 L23]. split; [done|].
  by eapply log_grows_trans.
Qed.

Lemma engines_kept_heap (s s' : state) :
  heap s'.2 = heap s.2 → log_grows engine_event_ok s s' → engines_kept s s'.
Proof. intros Hh Hl Hok. split; [|done]. unfold handles_ok. by rewrite Hh. Qed.

Lemma engines_kept_new_entry s :
  engines_kept s (s.1, set_heap (λ h, h ++ [new_entry]) s.2).
Proof.
  intros Hok. split; [|by apply log_grows_same].
  intros l e. cbn [snd heap set_heap]. intros Hl.
  apply lookup_app_Some in Hl as [Hl|[_ Hl]]; [by eapply Hok|].
  apply list_lookup_singleton_Some in Hl as [_ <-]. by intros h.
Qed.

Lemma handles_ok_alter (f : entry → entry) l (w w' : World) d :
  (∀ e, entry_ok e → entry_ok (f e)) →
  heap w' = alter f l (heap w) →
  handles_ok (d, w) → handles_ok (d, w').
Proof.
  intros Hf Hh Hok l0 e. cbn [snd]. rewrite Hh.
  destruct (decide (l = l0)) as [->|Hne].
  - rewrite list_lookup_alter_eq. destruct (heap w !! l0) as [e0|] eqn:He;
      [|done]. intros [= <-]. apply Hf. by eapply Hok.
  - rewrite list_lookup_alter_ne by done. apply Hok.
Qed.

Lemma engines_kept_loader i s : engines_kept s (loader_action E G i s).
Proof.
  intros Hok. split; [|by apply log_grows_loader].
  destruct s as [d w]. unfold loader_action.
  destruct (threads w !! i) as [t|]; [|done].
  destruct (_load_model_step E G d t w) as [[t' w']|] eqn:Hstep; [|done].
  assert (handles_ok (d, w')) as Hok'; [|done].
  revert Hstep. unfold _load_model_step.
  destruct (t_pc t) as [|l|l|].
  - destruct (models d !! t_model_name t); by intros [= <- <-].
  - destruct (WhisperModel E _ _ _) as [h|e] eqn:HW; intros [= <- <-].
    + eapply (handles_ok_alter (with_model h) l w); [|done|done].
      intros e _ h0 [= <-]. by eexists.
    + eapply (handles_ok_alter (with_error e) l w); [done| |done].
      by destruct (_ || _).
  - intros [= <- <-]. by eapply (handles_ok_alter with_loaded l w).
  - done.
Qed.

Ltac engine_side :=
  repeat match goal with
         | H : negb _ = false |- _ => apply negb_false_iff in H
         end;
  first
    [ apply engines_kept_loader
    | apply engines_kept_new_entry
    | apply engines_kept_heap;
        [reflexivity
        |first [ apply log_grows_same; reflexivity
               | apply log_grows_emit; by eauto ]] ].

Ltac engine_step :=
  keeps_step engines_kept_refl engines_kept_trans ltac:(engine_side).

Lemma keeps_ret_bind (R : state → state → Prop) {A B} (a : A)
    (k : A → M B) :
  keeps R (k a) → keeps R (ret a ≫= k).
Proof. intros H s. apply H. Qed.

Lemma keeps_raise_bind (R : state → state → Prop) {A B} e (k : A → M B) :
  (∀ s, R s s) → keeps R (raise e ≫= k).
Proof. intros H s. apply H. Qed.

Lemma transcribe_and_deliver_engines model_info :
  entry_ok model_info →
  keeps engines_kept (transcribe_and_deliver E G model_info).
Proof.
  intros Hok. unfold transcribe_and_deliver.
  apply (keeps_bind _ engines_kept_trans); [repeat engine_step|].
  intros hint. destruct (e_model model_info) as [h|] eqn:Hh.
  - apply keeps_ret_bind. repeat engine_step.
    apply keeps_upd_world. intros s. apply engines_kept_heap; [done|].
    apply log_grows_emit. by apply Hok.
  - apply keeps_raise_bind, engines_kept_refl.
Qed.

(** The entry that a wait returns is an entry of the heap. *)
Lemma Event_wait_bind_engines {A} l (k : entry → M A) :
  (∀ model_info, entry_ok model_info → keeps engines_kept (k model_info)) →
  keeps engines_kept (Event_wait E G l ≫= k).
Proof.
  intros Hk s Hok.
  assert (keeps engines_kept (Event_wait E G l)) as Hw by engine_step.
  destruct (Hw s Hok) as [Hok1 Hl1].
  pose proof (Event_wait_around E G l s) as Ha. unfold wp in Ha.
  destruct Ha as (_ & _ & Ho). unfold mbind, M_bind, bind.
  destruct (Event_wait E G l s) as [[e|e|] s1]; cbn [fst snd] in *;
    [|done..].
  destruct Ho as [He _].
  destruct (Hk e (Hok1 _ _ He) s1 Hok1) as [Hok2 Hl2].
  split; [done|]. by eapply log_grows_trans.
Qed.

Ltac engine_walk :=
  lazymatch goal with
  | |- keeps _ (Event_wait _ _ _ ≫= _) =>
      apply Event_wait_bind_engines; intros ? ?
  | |- keeps _ (transcribe_and_deliver _ _ _) =>
      by apply transcribe_and_deliver_engines
  | |- _ => engine_step
  end.

Lemma step_engines a s : engines_kept s (step E G a s).
Proof.
  destruct a as [k|k|m|i]; simpl.
  - unfold on_press. destruct (dict_get k (HOTKEY_TO_LANG G)).
    + assert (keeps engines_kept
        (start_recording E G (b_lang b) (b_model b) k)) as H.
      { unfold start_recording. repeat engine_walk. }
      apply H.
    + apply engines_kept_refl.
  - assert (keeps engines_kept (on_release E G k)) as H.
    { unfold on_release, stop_recording. repeat engine_walk. }
    apply H.
  - assert (keeps engines_kept (_get_or_load_model m)) as H
      by (repeat engine_walk). apply H.
  - apply engines_kept_loader.
Qed.

(** X16.  In every run of the program the engine is called only on a
    handle that the constructor has returned, for settings of the device
    and the compute type that are those of the program: a model whose
    construction failed is never used. *)
Theorem engine_called_on_constructed_handle (acts : list action)
    (h p : nat) (kw : transcribe_kwargs) :
  Transcribe h p kw ∈ log (run E G acts initial).2 →
  ∃ m, WhisperModel E m (DEVICE G) (COMPUTE_TYPE G) = Ok h.
Proof.
  assert (∀ s, engines_kept s (run E G acts s)) as H.
  { induction acts as [|a acts IH]; intros s; [apply engines_kept_refl|].
    simpl. eapply engines_kept_trans; [apply step_engines|apply IH]. }
  destruct (H initial) as [_ (new & Hl & Hnew)].
  { intros l e. simpl. by rewrite lookup_nil. }
  rewrite Hl. simpl. intros Hin. rewrite Forall_forall in Hnew.
  apply (Hnew _ Hin).
Qed.

End Engine_facts.

Lemma engine_called_on_constructed_handle_witness :
  let E := machine (Ok 7%nat) (Ok [str "hello"]) in
  let G := two_languages_globals in
  ∃ m, WhisperModel E m (DEVICE G) (COMPUTE_TYPE G) = Ok 7%nat.
Proof.
  refine (engine_called_on_constructed_handle
    (machine (Ok 7%nat) (Ok [str "hello"])) two_languages_globals
    [Press f9; Release f9] 7%nat 0%nat (kwargs_with None) _).
  apply (bool_decide_unpack _). by vm_compute.
Defined.

(** X17.  In every run of the program every model of the cache has an
    entry.  The entry never holds both an engine and an error, and once it
    is loaded it holds what the constructor gave for that model: the engine
    and no error, or the error and no engine. *)
Theorem cache_entry_shape (E : Env) (G : Globals) (acts : list action)
    (m : option pystr) (l : nat) :
  models (run E G acts initial).1 !! m = Some l →
  ∃ e, heap (run E G acts initial).2 !! l = Some e
       ∧ (e_model e = None ∨ e_error e = None)
       ∧ (e_loaded e = true →
          match WhisperModel E m (DEVICE G) (COMPUTE_TYPE G) with
          | Ok h =>
              e = {| e_model := Some h; e_loaded := true; e_error := None |}
          | Raise err =>
              e = {| e_model := None; e_loaded := true; e_error := Some err |}
          end).
Proof.
  intros Hm. pose proof (run_inv E G acts) as Hinv.
  destruct (inv_entry E G _ Hinv m l Hm) as (i & t & _ & _ & _ & Hh).
  eexists. split; [exact Hh|]. split.
  - destruct (t_pc t); simpl; unfold constructed, terminal;
      try (by left); destruct (WhisperModel E _ _ _); by auto.
  - intros Hl. apply entry_at_loaded in Hl. rewrite Hl. simpl.
    unfold terminal. by destruct (WhisperModel E _ _ _).
Qed.

Lemma cache_entry_shape_witness :
  let E := machine (Raise (str "boom")) (Ok []) in
  let G := two_languages_globals in
  let s := run E G [Press f9; Release f9] initial in
  ∃ e, heap s.2 !! 0%nat = Some e
       ∧ (e_model e = None ∨ e_error e = None)
       ∧ (e_loaded e = true →
          e = {| e_model := None; e_loaded := true;
                 e_error := Some (str "boom") |}).
Proof.
  exact (cache_entry_shape (machine (Raise (str "boom")) (Ok []))
    two_languages_globals [Press f9; Release f9] (Some (str "base.en"))
    0%nat eq_refl).
Defined.

(** ** The callbacks end *)

(** A method that never sleeps for ever. *)
Definition ends {A} (m : M A) : Prop := ∀ s, (m s).1 ≠ Blocked.

Lemma ends_ret {A} (a : A) : ends (ret a).
Proof. by intros s. Qed.

Lemma ends_raise {A} e : ends (raise (A := A) e).
Proof. by intros s. Qed.

Lemma ends_get_self : ends get_self.
Proof. by intros s. Qed.

Lemma ends_get_world : ends get_world.
Proof. by intros s. Qed.

Lemma ends_upd_self f : ends (upd_self f).
Proof. by intros s. Qed.

Lemma ends_upd_world f : ends (upd_world f).
Proof. by intros s. Qed.

Lemma ends_bind {A B} (m : M A) (k : A → M B) :
  ends m → (∀ a, ends (k a)) → ends (m ≫= k).
Proof.
  intros Hm Hk s. unfold mbind, M_bind, bind. specialize (Hm s).
  destruct (m s) as [[a|e|] s1]; cbn [fst] in *; [apply Hk|done..].
Qed.

Lemma ends_try_except {A} (body : M A) handler :
  ends body → (∀ e, ends (handler e)) → ends (try_except body handler).
Proof.
  intros Hb Hh s. unfold try_except. specialize (Hb s).
  destruct (body s) as [[a|e|] s1]; cbn [fst] in *; [done|apply Hh|done].
Qed.

Lemma ends_try_finally {A} (body : M A) fin :
  ends body → ends fin → ends (try_finally body fin).
Proof.
  intros Hb Hf s. unfold try_finally. specialize (Hb s).
  destruct (body s) as [[a|e|] s1]; cbn [fst] in *; [| |done];
    specialize (Hf s1); by destruct (fin s1) as [[[]|e1|] s2].
Qed.

Lemma ends_external ev r : ends (external ev r).
Proof.
  unfold external. apply ends_bind; [apply ends_upd_world|].
  intros _. destruct r; [apply ends_raise|apply ends_ret].
Qed.

Ltac ends_step :=
  lazymatch goal with
  | |- ends get_self => apply ends_get_self
  | |- ends get_world => apply ends_get_world
  | |- ends (ret _) => apply ends_ret
  | |- ends (raise _) => apply ends_raise
  | |- ends (_ ≫= _) => apply ends_bind; [|intros ?]
  | |- ends (try_except _ _) => apply ends_try_except; [|intros ?]
  | |- ends (try_finally _ _) => apply ends_try_finally
  | |- ends (external _ _) => apply ends_external
  | |- ends (print _) => apply ends_upd_world
  | |- ends (upd_self _) => apply ends_upd_self
  | |- ends (upd_world _) => apply ends_upd_world
  | |- ends (notify _ _ _ _ _ _) => unfold notify
  | |- ends (_get_or_load_model _) => unfold _get_or_load_model
  | |- ends (transcribe_and_deliver _ _ _) => unfold transcribe_and_deliver
  | |- ends language_kwarg => unfold language_kwarg
  | |- ends (report_error _ _ _) => unfold report_error
  | |- ends cleanup_temp_file => unfold cleanup_temp_file
  | |- ends (match ?x with _ => _ end) => destruct x
  end.

Section Ending.
Variable E : Env.
Variable G : Globals.

Lemma wp_ends_reach {A} (m : M A) s (Q : outcome A → state → Prop) :
  ends m → cache_safe E G m →
  (∀ o s1, o ≠ Blocked → cache_reach E G s s1 → Q o s1) →
  wp m s Q.
Proof. intros He Hs HQ. unfold wp. apply HQ; [apply He|apply Hs]. Qed.

Lemma stop_recording_ends s :
  cache_inv E G s → (stop_recording E G s).1 ≠ Blocked.
Proof.
  intros Hinv.
  change (wp (stop_recording E G) s (λ o _, o ≠ Blocked)).
  unfold stop_recording. wp_prim. wp_prim.
  destruct (negb (recording s.1)); [by wp_prim|].
  apply wp_bind, wp_ends_reach; [apply ends_upd_self| |].
  { apply cache_safe_upd_self. by intros d. }
  intros o s1 Ho H1. destruct o as [[]|e|]; cbn [after_bind]; [|done..].
  apply wp_bind, wp_ends_reach.
  { repeat ends_step. }
  { destruct (record_process s.1) as [pid|]; [|apply cache_safe_ret].
    apply cache_safe_bind; [by apply cache_safe_emit|]. intros _.
    apply cache_safe_bind; [|intros _; by apply cache_safe_upd_self].
    apply cache_safe_upd_world. by intros w. }
  intros o s2 Ho2 H2. destruct o as [[]|e|]; cbn [after_bind]; [|done..].
  apply wp_bind, wp_ends_reach;
    [repeat ends_step|apply cache_safe_print|].
  intros o s3 Ho3 H3. destruct o as [[]|e|]; cbn [after_bind]; [|done..].
  apply wp_bind, wp_ends_reach;
    [repeat ends_step|apply cache_safe_notify|].
  intros o s4 Ho4 H4. destruct o as [[]|e|]; cbn [after_bind]; [|done..].
  wp_prim. wp_prim. apply wp_bind. unfold wp at 1.
  assert (cache_inv E G s4) as Hinv4.
  { eapply cache_reach_inv; [|exact Hinv].
    eapply reach_trans; [exact H1|]. eapply reach_trans; [exact H2|].
    eapply reach_trans; [exact H3|exact H4]. }
  destruct (_get_or_load_model_returns (active_model_name s4.1) s4)
    as (l & Hret & Hl).
  pose proof (_get_or_load_model_inv E G (active_model_name s4.1) s4 Hinv4)
    as Hinv5.
  destruct (_get_or_load_model (active_model_name s4.1) s4) as [o5 s5].
  cbn [fst snd] in *. subst o5. cbn [after_bind].
  apply wp_bind. unfold wp at 1.
  pose proof (Event_wait_terminal E G s5 _ l Hinv5 Hl) as Hw.
  destruct (Event_wait E G l s5) as [o6 s6]. cbn [fst snd] in *. subst o6.
  cbn [after_bind].
  assert (∀ m : M unit, ends m → wp m s6 (λ o _, o ≠ Blocked)) as Hends.
  { intros m Hm. apply Hm. }
  apply Hends. repeat ends_step.
Qed.

(** X18.  In every run of the program a key event is handled to its end:
    neither callback sleeps for ever, since a wait in [stop_recording]
    always finds the entry loaded or its loader thread on the way to set
    it. *)
Theorem callbacks_end (acts : list action) (k : key) :
  let s := run E G acts initial in
  (on_press E G k s).1 ≠ Blocked ∧ (on_release E G k s).1 ≠ Blocked.
Proof.
  intros s. split.
  - unfold on_press. destruct (dict_get k (HOTKEY_TO_LANG G)) as [b|]; [|done].
    assert (ends (start_recording E G (b_lang b) (b_model b) k)) as H.
    { unfold start_recording. repeat ends_step. }
    apply H.
  - unfold on_release, mbind, M_bind, bind, get_self. cbn [fst snd].
    destruct (_ && _); [|done]. apply stop_recording_ends, run_inv.
Qed.

End Ending.

(** ** A press and a release *)

Section Round_trip.
Variable E : Env.
Variable G : Globals.

(** The notices are sent: [notify-send] is there to be run. *)
Hypothesis notify_send_runs : ∀ title message icon timeout,
  notify_send E title message icon timeout = None.

Lemma notify_returns title message icon timeout s :
  notify E G title message icon timeout s
  = (Ret tt, notified G (Notify title message icon timeout) s).
Proof.
  unfold notify, notified, external. rewrite notify_send_runs.
  destruct s as [d w]. by destruct (NOTIFICATIONS G).
Qed.

Definition any_event (ev : event) : Prop := True.

(** The engine was called with handle [h] on file [p] between two states. *)
Definition called (h : nat) (p : nat) (s s' : state) : Prop :=
  ∃ kw pre post, log s'.2 = log s.2 ++ pre ++ Transcribe h p kw :: post.

Lemma called_grows h p s s1 s2 :
  called h p s s1 → log_grows any_event s1 s2 → called h p s s2.
Proof.
  intros (kw & pre & post & H1) (new & H2 & _).
  exists kw, pre, (post ++ new). rewrite H2, H1. by rewrite <- !app_assoc.
Qed.

(** The way to the wait: the session fields and the files stay, no
    delivering call is made, and the cache is only used as a cache. *)
Definition waiting (s s' : state) : Prop :=
  around s s' ∧ cache_reach E G s s'.

Lemma wp_waiting (m : M unit) s0 s (Q : outcome unit → state → Prop) :
  waiting s0 s → (m s).1 = Ret tt → around s (m s).2 → cache_safe E G m →
  (∀ s', waiting s0 s' → Q (Ret tt) s') → wp m s Q.
Proof.
  intros [Ha Hc] Ho Ha' Hs HQ. unfold wp. rewrite Ho. apply HQ. split.
  - by eapply around_trans.
  - eapply reach_trans; [exact Hc|apply Hs].
Qed.

Lemma language_kwarg_returns s m :
  active_model_name s.1 = Some m → ∃ hint, language_kwarg s = (Ret hint, s).
Proof.
  destruct s as [d w]. cbn [fst]. intros Hm.
  unfold language_kwarg, mbind, M_bind, bind, get_self. cbn [fst snd].
  rewrite Hm. destruct (active_language d) as [lang|]; [|by eexists].
  destruct (truthy lang && negb (pystr_eqb lang (str "auto"))); [|by eexists].
  destruct (negb (endswith m (str ".en"))); by eexists.
Qed.

Ltac grows_step :=
  keeps_step (log_grows_refl any_event) (log_grows_trans any_event)
             ltac:(log_side).

(** [stop_recording] gets to its decision with the loaded entry of the
    active model, the session fields and the files as they were. *)
Lemma stop_recording_decides s m l (Q : outcome unit → state → Prop) :
  cache_inv E G s → recording s.1 = true →
  active_model_name s.1 = Some m → models s.1 !! Some m = Some l →
  (∀ s3, around (set_recording false s.1, s.2) s3 →
     wp (let model_info := terminal E G (Some m) in
         if error_set model_info then
           print (str "Cannot transcribe: model failed to load");;
           notify E G (str "Error") (str "Model failed to load")
                  (str "dialog-error") 3000
         else
           try_finally
             (try_except (transcribe_and_deliver E G model_info)
                         (report_error E G))
             cleanup_temp_file) s3 Q) →
  wp (stop_recording E G) s Q.
Proof.
  destruct s as [d w]. cbn [fst snd]. intros Hinv Hrec Hm Hl HQ.
  unfold stop_recording.
  wp_prim. wp_prim. rewrite Hrec. cbn [negb]. wp_prim. wp_prim.
  set (s1 := (set_recording false d, w)) in *.
  assert (cache_inv E G s1) as Hinv1.
  { apply (cache_inv_same E G (d, w)); [|done]. by repeat split. }
  assert (waiting s1 s1) as Hw
    by (split; [apply around_refl|apply cache_reach_refl]).
  (* the capture process is stopped *)
  apply wp_bind, (wp_waiting _ s1 s1); [exact Hw| | | |].
  { by destruct (record_process d). }
  { destruct (record_process d) as [pid|]; [|apply around_refl].
    repeat split. exists [Terminate pid]. by split. }
  { destruct (record_process d) as [pid|]; [|apply cache_safe_ret].
    apply cache_safe_bind; [by apply cache_safe_emit|]. intros _.
    apply cache_safe_bind; [|intros _; by apply cache_safe_upd_self].
    apply cache_safe_upd_world. by intros w0. }
  clear Hw. intros s2 Hw. cbn [after_bind].
  (* the two reports *)
  apply wp_bind, (wp_waiting _ s1); [exact Hw|done| |apply cache_safe_print|].
  { by apply around_emit. }
  clear s2 Hw. intros s2 Hw. cbn [after_bind].
  apply wp_bind, (wp_waiting _ s1); [exact Hw| | |apply cache_safe_notify|].
  { by rewrite notify_returns. }
  { rewrite notify_returns. by apply around_notified. }
  clear s2 Hw. intros s2 [Ha Hc]. cbn [after_bind].
  (* the model *)
  wp_prim. wp_prim.
  assert (active_model_name s2.1 = Some m) as Hm2.
  { destruct Ha as (_ & _ & -> & _). exact Hm. }
  assert (models s2.1 !! Some m = Some l) as Hl2.
  { by apply (cache_reach_models E G s1 s2). }
  pose proof (cache_reach_inv E G s1 s2 Hc Hinv1) as Hinv2.
  rewrite Hm2. apply wp_bind. unfold wp at 1.
  rewrite (_get_or_load_model_hit (Some m) l s2 Hl2). cbn [after_bind fst snd].
  apply wp_bind. unfold wp at 1.
  pose proof (Event_wait_terminal E G s2 (Some m) l Hinv2 Hl2) as Hret.
  pose proof (Event_wait_around E G l s2) as Ha3. unfold wp in Ha3.
  destruct Ha3 as (Ha3 & _).
  destruct (Event_wait E G l s2) as [o3 s3]. cbn [fst snd] in *. subst o3.
  apply (around_trans _ _ _ Ha) in Ha3.
  cbn [after_bind]. by apply HQ.
Qed.

Lemma cleanup_grows : keeps (log_grows any_event) cleanup_temp_file.
Proof. unfold cleanup_temp_file. repeat grows_step. Qed.

Lemma report_error_grows e : keeps (log_grows any_event) (report_error E G e).
Proof. unfold report_error. repeat grows_step. Qed.

(** With the engine of the active model constructed, [stop_recording]
    reaches the engine call. *)
Lemma stop_recording_calls_engine s m l h p :
  cache_inv E G s → recording s.1 = true →
  active_model_name s.1 = Some m → models s.1 !! Some m = Some l →
  WhisperModel E (Some m) (DEVICE G) (COMPUTE_TYPE G) = Ok h →
  temp_file s.1 = Some p →
  called h p s (stop_recording E G s).2.
Proof.
  intros Hinv Hrec Hm Hl HW Hp.
  change (wp (stop_recording E G) s (λ _ s', called h p s s')).
  apply (stop_recording_decides s m l); [done..|].
  intros s3 (_ & _ & Hm3 & Hp3 & _ & pre & Hlog & _). cbn [fst snd] in *.
  assert (active_model_name s3.1 = Some m) as Hm3'
    by (rewrite Hm3; exact Hm).
  assert (temp_file s3.1 = Some p) as Hp3' by (rewrite Hp3; exact Hp).
  clear Hm3 Hp3.
  cbn zeta. unfold terminal, error_set. rewrite HW. cbn [e_error].
  assert (∀ s4, called h p s s4 →
    wp cleanup_temp_file s4 (λ o' s'',
      match o' with
      | Ret _ => called h p s s''
      | Exc e => called h p s s''
      | Blocked => called h p s s''
      end)) as Hfin.
  { intros s4 H4. apply (keeps_wp (log_grows any_event)); [apply cleanup_grows|].
    intros o s5 H5. pose proof (called_grows _ _ _ _ _ H4 H5). by destruct o. }
  apply wp_try_finally, wp_try_except. unfold transcribe_and_deliver.
  apply wp_bind. unfold wp at 1.
  destruct (language_kwarg_returns s3 m Hm3') as (hint & ->).
  cbn [after_bind fst snd e_model]. repeat wp_prim. rewrite Hp3'.
  do 3 wp_prim.
  assert (called h p s (s3.1, emit (Transcribe h p (kwargs_with hint)) s3.2))
    as Hcall.
  { exists (kwargs_with hint), pre, []. cbn [fst snd log emit].
    by rewrite Hlog, <- app_assoc. }
  revert Hcall. fold (kwargs_with hint).
  generalize (s3.1, emit (Transcribe h p (kwargs_with hint)) s3.2).
  intros s4 H4. apply (keeps_wp (log_grows any_event)).
  { repeat grows_step. }
  intros o s5 H5. pose proof (called_grows _ _ _ _ _ H4 H5) as Hc5.
  destruct o as [[]|e|]; [by apply Hfin| |done].
  apply (keeps_wp (log_grows any_event)); [apply report_error_grows|].
  intros o s6 H6. pose proof (called_grows _ _ _ _ _ Hc5 H6) as Hc6.
  destruct o as [[]|e'|]; [by apply Hfin..|done].
Qed.

Lemma start_recording_no_delivery language model_name hotkey s :
  log_grows (λ ev, is_delivery ev = false) s
    (start_recording E G language model_name hotkey s).2.
Proof.
  assert (keeps (log_grows (λ ev, is_delivery ev = false))
            (start_recording E G language model_name hotkey)) as H; [|apply H].
  unfold start_recording.
  repeat keeps_step (log_grows_refl (λ ev, is_delivery ev = false))
                    (log_grows_trans (λ ev, is_delivery ev = false))
                    ltac:(log_side).
Qed.

(** A press of a bound key while no recording runs, and the release that
    follows: the release stops the session that the press started. *)
Lemma press_release_steps (acts : list action) (k : key) (b : binding) :
  let s := run E G acts initial in
  recording s.1 = false →
  dict_get k (HOTKEY_TO_LANG G) = Some b →
  ∃ s1 l new0,
    run E G [Press k; Release k] s = (stop_recording E G s1).2
    ∧ cache_inv E G s1
    ∧ recording s1.1 = true
    ∧ active_model_name s1.1 = Some (b_model b)
    ∧ models s1.1 !! Some (b_model b) = Some l
    ∧ temp_file s1.1 = Some (fresh (files s.2))
    ∧ ¬ (fresh (files s.2) ∈ files s.2)
    ∧ files s1.2 = {[fresh (files s.2)]} ∪ files s.2
    ∧ log s1.2 = log s.2 ++ new0
    ∧ deliveries new0 = [].
Proof.
  intros s Hrec Hk.
  set (s1 := (start_recording E G (b_lang b) (b_model b) k s).2).
  assert (step E G (Press k) s = s1) as Hs1.
  { unfold s1. simpl. unfold on_press. by rewrite Hk. }
  destruct (start_recording_idle_spec E G (b_lang b) (b_model b) k s Hrec)
    as (_ & Hr1 & _ & Hm1 & [l Hl1] & Hp1 & Hfresh & Hf1 & _).
  fold s1 in Hr1, Hm1, Hl1, Hp1, Hf1.
  destruct (start_recording_no_delivery (b_lang b) (b_model b) k s)
    as (new0 & Hlog0 & Hnew0). fold s1 in Hlog0.
  apply deliveries_none in Hnew0.
  exists s1, l, new0. split; [|split; [|done]].
  - change (run E G [Press k; Release k] s)
      with (step E G (Release k) (step E G (Press k) s)).
    rewrite Hs1. simpl. unfold on_release, mbind, M_bind, bind, get_self.
    cbn [fst snd]. unfold dict_in. by rewrite Hk, Hr1.
  - rewrite <- Hs1. unfold s.
    change (cache_inv E G (run E G [Press k] (run E G acts initial))).
    unfold run. rewrite <- foldl_app. apply run_inv.
Qed.

(** With the engine constructed, the release calls it on the temporary
    file of the press, and the file is gone afterwards. *)
Lemma press_release_calls_engine (acts : list action) (k : key) (b : binding)
    (h : nat) :
  let s := run E G acts initial in
  let s' := run E G [Press k; Release k] s in
  recording s.1 = false →
  dict_get k (HOTKEY_TO_LANG G) = Some b →
  WhisperModel E (Some (b_model b)) (DEVICE G) (COMPUTE_TYPE G) = Ok h →
  recording s'.1 = false
  ∧ files s'.2 = files s.2
  ∧ ∃ s1 new kw,
      deliveries (new_events s s') = deliveries new
      ∧ delivered E G s1 new
      ∧ Transcribe h (fresh (files s.2)) kw ∈ deliveries new.
Proof.
  intros s s' Hrec Hk HW.
  destruct (press_release_steps acts k b Hrec Hk)
    as (s1 & l & new0 & Hs' & Hinv1 & Hr1 & Hm1 & Hl1 & Hp1 & Hfresh & Hf1
        & Hlog0 & Hnew0).
  fold s in Hs', Hp1, Hfresh, Hf1, Hlog0. fold s' in Hs'.
  set (p := fresh (files s.2)) in *.
  pose proof (stop_recording_spec E G s1 Hr1) as Hpost. unfold wp in Hpost.
  rewrite <- Hs' in Hpost.
  destruct Hpost as (Hr' & _ & _ & _ & Hf' & new & Hlog & Hd & Hgone).
  pose proof (stop_recording_calls_engine s1 (b_model b) l h p
                Hinv1 Hr1 Hm1 Hl1 HW Hp1) as (kw & pre & post & Hcall).
  rewrite <- Hs' in Hcall. rewrite Hlog in Hcall.
  apply app_inv_head in Hcall.
  assert (Transcribe h p kw ∈ deliveries new) as Hin.
  { apply deliveries_elem; [|done]. rewrite Hcall, elem_of_app.
    right. apply elem_of_cons. by left. }
  assert (deliveries new ≠ []) as Hne.
  { intros Hnil. rewrite Hnil in Hin. by apply elem_of_nil in Hin. }
  specialize (Hgone Hne p Hp1).
  split; [exact Hr'|]. split.
  { destruct Hf' as [Hf'|(p' & Hp' & Hf')].
    - exfalso. apply Hgone. rewrite Hf', Hf1.
      apply elem_of_union. left. by apply elem_of_singleton.
    - rewrite Hp1 in Hp'. injection Hp' as <-. rewrite Hf', Hf1.
      apply set_eq. intros x.
      rewrite elem_of_difference, elem_of_union, elem_of_singleton.
      split; [by intros [[->|Hx] Hnx]|].
      intros Hx. split; [by right|]. by intros ->. }
  assert (new_events s s' = new0 ++ new) as Hnew.
  { apply new_events_app. by rewrite Hlog, Hlog0, app_assoc. }
  exists s1, new, kw. split; [|done].
  by rewrite Hnew, deliveries_app, Hnew0.
Qed.

(** X21.  A press and a release of a bound key, with no recording running
    before, the engine of the key's model constructed and a transcript that
    is not empty: the engine is called once, on the temporary file made at
    the press, and the transcript goes to the clipboard; it is typed only
    when typing is switched on.  Afterwards no recording runs and the files
    are those from before the press: the temporary file is gone. *)
Theorem press_release_round_trip (acts : list action) (k : key) (b : binding)
    (h : nat) (segments : list pystr) :
  let s := run E G acts initial in
  let s' := run E G [Press k; Release k] s in
  recording s.1 = false →
  dict_get k (HOTKEY_TO_LANG G) = Some b →
  WhisperModel E (Some (b_model b)) (DEVICE G) (COMPUTE_TYPE G) = Ok h →
  (∀ p kw, engine_transcribe E h p kw = Ok segments) →
  transcript segments ≠ [] →
  recording s'.1 = false
  ∧ files s'.2 = files s.2
  ∧ ∃ kw rest,
      deliveries (new_events s s')
      = Transcribe h (fresh (files s.2)) kw
        :: Xclip (transcript segments) :: rest
      ∧ (rest = []
         ∨ (AUTO_TYPE G = true ∧ rest = [Xdotool (transcript segments)])).
Proof.
  intros s s' Hrec Hk HW Heng Htext.
  destruct (press_release_calls_engine acts k b h Hrec Hk HW)
    as (Hr' & Hf' & s1 & new & kw & Hnew & Hd & Hin).
  fold s s' in Hr', Hf', Hnew, Hin.
  split; [exact Hr'|]. split; [exact Hf'|]. rewrite Hnew.
  set (p := fresh (files s.2)) in *.
  destruct Hd as [H|hint h' p' e H1 H2 H3|hint h' p' segs H1 H2 H3 H4 H5 H6
                  |hint h' p' segs rest H1 H2 H3 H4 H5].
  - rewrite H in Hin. by apply elem_of_nil in Hin.
  - rewrite H3 in Hin. apply list_elem_of_singleton in Hin.
    injection Hin as -> -> ->. by rewrite Heng in H2.
  - rewrite H4 in Hin. apply list_elem_of_singleton in Hin.
    injection Hin as -> -> ->. rewrite Heng in H2. injection H2 as ->.
    done.
  - assert (h' = h ∧ p' = p) as [-> ->].
    { rewrite H4 in Hin.
      apply elem_of_cons in Hin as [Heq|Hin]; [by injection Heq|].
      apply elem_of_cons in Hin as [Heq|Hin]; [done|].
      destruct H5 as [->|[_ ->]].
      - by apply elem_of_nil in Hin.
      - by apply list_elem_of_singleton in Hin. }
    rewrite Heng in H2. injection H2 as <-. rewrite H4.
    exists (kwargs_with hint), rest. by split.
Qed.

(** X24.  A press and a release of a bound key, with the engine of the
    key's model constructed and a transcription that raises: the engine
    call is the only delivering call, nothing goes to the clipboard and
    nothing is typed.  Afterwards no recording runs and the temporary file
    is gone. *)
Theorem press_release_engine_error (acts : list action) (k : key)
    (b : binding) (h : nat) (e : pystr) :
  let s := run E G acts initial in
  let s' := run E G [Press k; Release k] s in
  recording s.1 = false →
  dict_get k (HOTKEY_TO_LANG G) = Some b →
  WhisperModel E (Some (b_model b)) (DEVICE G) (COMPUTE_TYPE G) = Ok h →
  (∀ p kw, engine_transcribe E h p kw = Raise e) →
  recording s'.1 = false
  ∧ files s'.2 = files s.2
  ∧ ∃ kw, deliveries (new_events s s')
          = [Transcribe h (fresh (files s.2)) kw].
Proof.
  intros s s' Hrec Hk HW Heng.
  destruct (press_release_calls_engine acts k b h Hrec Hk HW)
    as (Hr' & Hf' & s1 & new & kw & Hnew & Hd & Hin).
  fold s s' in Hr', Hf', Hnew, Hin.
  split; [exact Hr'|]. split; [exact Hf'|]. rewrite Hnew.
  destruct Hd as [H|hint h' p' e' H1 H2 H3|hint h' p' segs H1 H2 H3 H4 H5 H6
                  |hint h' p' segs rest H1 H2 H3 H4 H5].
  - rewrite H in Hin. by apply elem_of_nil in Hin.
  - rewrite H3 in Hin. apply list_elem_of_singleton in Hin.
    exists kw. by rewrite H3, Hin.
  - rewrite H4 in Hin. apply list_elem_of_singleton in Hin.
    injection Hin as -> -> ->. by rewrite Heng in H2.
  - assert (h' = h) as ->; [|by rewrite Heng in H2].
    rewrite H4 in Hin.
    apply elem_of_cons in Hin as [Heq|Hin]; [by injection Heq|].
    apply elem_of_cons in Hin as [Heq|Hin]; [done|].
    destruct H5 as [->|[_ ->]].
    + by apply elem_of_nil in Hin.
    + by apply list_elem_of_singleton in Hin.
Qed.

Definition cannot_transcribe_line : pystr :=
  str "Cannot transcribe: model failed to load".

(** X22.  A press and a release of a bound key whose model could not be
    constructed, the error having a message: the failure is reported, no
    engine, clipboard or typing call is made, and the temporary file made
    at the press is still there afterwards. *)
Theorem press_release_failed_model (acts : list action) (k : key)
    (b : binding) (e : pystr) :
  let s := run E G acts initial in
  let s' := run E G [Press k; Release k] s in
  recording s.1 = false →
  dict_get k (HOTKEY_TO_LANG G) = Some b →
  WhisperModel E (Some (b_model b)) (DEVICE G) (COMPUTE_TYPE G) = Raise e →
  e ≠ [] →
  recording s'.1 = false
  ∧ files s'.2 = {[fresh (files s.2)]} ∪ files s.2
  ∧ deliveries (new_events s s') = []
  ∧ Stdout cannot_transcribe_line ∈ new_events s s'.
Proof.
  intros s s' Hrec Hk HW He.
  destruct (press_release_steps acts k b Hrec Hk)
    as (s1 & l & new0 & Hs' & Hinv1 & Hr1 & Hm1 & Hl1 & Hp1 & Hfresh & Hf1
        & Hlog0 & Hnew0).
  fold s in Hs', Hp1, Hfresh, Hf1, Hlog0. fold s' in Hs'.
  pose proof (stop_recording_keeps_session_spec E G s1) as (Hr' & _).
  rewrite <- Hs' in Hr'. split; [exact Hr'|]. clear Hr'.
  assert (files s'.2 = files s1.2
          ∧ ∃ new, log s'.2 = log s1.2 ++ new ∧ deliveries new = []
                   ∧ Stdout cannot_transcribe_line ∈ new)
    as (Hf' & new & Hlog & Hnew & Hin).
  { rewrite Hs'.
    change (wp (stop_recording E G) s1 (λ _ s2,
      files s2.2 = files s1.2
      ∧ ∃ new, log s2.2 = log s1.2 ++ new ∧ deliveries new = []
               ∧ Stdout cannot_transcribe_line ∈ new)).
    apply (stop_recording_decides s1 (b_model b) l); [done..|].
    intros s3 (_ & _ & _ & _ & Hf3 & pre & Hlog3 & Hpre).
    cbn [fst snd] in Hf3, Hlog3.
    cbn zeta. unfold terminal, error_set. rewrite HW. cbn [e_error].
    apply truthy_nonempty in He. rewrite He.
    wp_prim. wp_prim. unfold wp. rewrite notify_returns.
    unfold notified. cbn [fst snd].
    fold cannot_transcribe_line.
    destruct (NOTIFICATIONS G); cbn [files log emit]; (split; [done|]);
      rewrite Hlog3, <- !app_assoc; eexists; (split; [reflexivity|]);
      rewrite !elem_of_app, list_elem_of_singleton;
      (split; [by rewrite deliveries_app, Hpre|auto]). }
  split; [by rewrite Hf', Hf1|].
  assert (new_events s s' = new0 ++ new) as Hnews.
  { apply new_events_app. by rewrite Hlog, Hlog0, app_assoc. }
  rewrite Hnews, deliveries_app, Hnew0, Hnew, elem_of_app. auto.
Qed.

Definition no_engine_error : pystr :=
  str "'NoneType' object has no attribute 'transcribe'".

(** X23.  A press and a release of a bound key whose model could not be
    constructed, the error having no message, on a machine where
    [notify-send] can be run: the failure is not seen as one.  The [try] block is entered with no engine, the attribute error
    is reported instead, and the temporary file is removed. *)
Theorem press_release_empty_error (acts : list action) (k : key)
    (b : binding) :
  let s := run E G acts initial in
  let s' := run E G [Press k; Release k] s in
  recording s.1 = false →
  dict_get k (HOTKEY_TO_LANG G) = Some b →
  WhisperModel E (Some (b_model b)) (DEVICE G) (COMPUTE_TYPE G) = Raise [] →
  recording s'.1 = false
  ∧ files s'.2 = files s.2
  ∧ deliveries (new_events s s') = []
  ∧ Stdout (str "Error: " ++ no_engine_error) ∈ new_events s s'.
Proof.
  intros s s' Hrec Hk HW.
  destruct (press_release_steps acts k b Hrec Hk)
    as (s1 & l & new0 & Hs' & Hinv1 & Hr1 & Hm1 & Hl1 & Hp1 & Hfresh & Hf1
        & Hlog0 & Hnew0).
  fold s in Hs', Hp1, Hfresh, Hf1, Hlog0. fold s' in Hs'.
  set (p := fresh (files s.2)) in *.
  pose proof (stop_recording_keeps_session_spec E G s1) as (Hr' & _).
  rewrite <- Hs' in Hr'. split; [exact Hr'|]. clear Hr'.
  assert (files s'.2 = files s1.2 ∖ {[p]}
          ∧ ∃ new, log s'.2 = log s1.2 ++ new ∧ deliveries new = []
                   ∧ Stdout (str "Error: " ++ no_engine_error) ∈ new)
    as (Hf' & new & Hlog & Hnew & Hin).
  { rewrite Hs'.
    change (wp (stop_recording E G) s1 (λ _ s2,
      files s2.2 = files s1.2 ∖ {[p]}
      ∧ ∃ new, log s2.2 = log s1.2 ++ new ∧ deliveries new = []
               ∧ Stdout (str "Error: " ++ no_engine_error) ∈ new)).
    apply (stop_recording_decides s1 (b_model b) l); [done..|].
    intros s3 (_ & _ & Hm3 & Hp3 & Hf3 & pre & Hlog3 & Hpre).
    cbn [fst snd] in Hm3, Hp3, Hf3, Hlog3.
    assert (active_model_name s3.1 = Some (b_model b)) as Hm3'
      by (rewrite Hm3; exact Hm1).
    assert (temp_file s3.1 = Some p) as Hp3' by (rewrite Hp3; exact Hp1).
    clear Hm3 Hp3.
    cbn zeta. unfold terminal, error_set. rewrite HW. cbn [e_error truthy].
    apply wp_try_finally, wp_try_except. unfold transcribe_and_deliver.
    apply wp_bind. unfold wp at 1.
    destruct (language_kwarg_returns s3 _ Hm3') as (hint & ->).
    cbn [after_bind fst snd e_model]. wp_prim. wp_prim.
    fold no_engine_error. unfold report_error. wp_prim. wp_prim.
    unfold wp at 1. rewrite notify_returns. cbn [fst snd].
    unfold cleanup_temp_file. wp_prim. wp_prim. wp_prim. wp_prim.
    unfold notified. cbn [fst snd]. rewrite Hp3'.
    assert (∀ w : World, files w = files s3.2 →
      (∃ post, log w = log s3.2
                       ++ Stdout (str "Error: " ++ no_engine_error) :: post
               ∧ deliveries post = []) →
      wp (if bool_decide (p ∈ files w)
          then upd_world (set_files (λ fs, fs ∖ {[p]}));;
               upd_world (emit (Unlink p))
          else ret ()) (s3.1, w)
         (λ o' s'',
            match o' with
            | Ret _ | _ =>
                files s''.2 = files s1.2 ∖ {[p]}
                ∧ ∃ new, log s''.2 = log s1.2 ++ new ∧ deliveries new = []
                  ∧ Stdout (str "Error: " ++ no_engine_error) ∈ new
            end)) as Hfin.
    { intros w0 Hfw (post & Hlw & Hpost).
      destruct (bool_decide (p ∈ files w0)) eqn:Hin; repeat wp_prim.
      - split; [cbn [files set_files emit]; by rewrite Hfw, Hf3|].
        exists (pre ++ Stdout (str "Error: " ++ no_engine_error)
                      :: post ++ [Unlink p]).
        cbn [log set_files emit]. rewrite Hlw, Hlog3, <- !app_assoc.
        split; [done|]. split.
        + rewrite deliveries_app, Hpre, app_nil_l.
          rewrite deliveries_cons_false by done.
          by rewrite deliveries_app, Hpost.
        + rewrite elem_of_app. right. apply elem_of_cons. by left.
      - apply bool_decide_eq_false in Hin. split.
        + rewrite <- Hf3, <- Hfw. apply set_eq. intros x.
          rewrite elem_of_difference, elem_of_singleton.
          split; [|by intros [Hx _]].
          intros Hx. split; [done|]. by intros ->.
        + exists (pre ++ Stdout (str "Error: " ++ no_engine_error) :: post).
          rewrite Hlw, Hlog3, <- !app_assoc.
          split; [done|]. split.
          * rewrite deliveries_app, Hpre, app_nil_l.
            by rewrite deliveries_cons_false.
          * rewrite elem_of_app. right. apply elem_of_cons. by left. }
    destruct (NOTIFICATIONS G); apply Hfin; try done.
    - eexists. split; [cbn [log emit]; by rewrite <- app_assoc|done].
    - exists []. by split. }
  split.
  { rewrite Hf', Hf1. apply set_eq. intros x.
    rewrite elem_of_difference, elem_of_union, elem_of_singleton.
    split; [by intros [[->|Hx] Hnx]|].
    intros Hx. split; [by right|]. by intros ->. }
  assert (new_events s s' = new0 ++ new) as Hnews.
  { apply new_events_app. by rewrite Hlog, Hlog0, app_assoc. }
  rewrite Hnews, deliveries_app, Hnew0, Hnew, elem_of_app. auto.
Qed.

End Round_trip.

Lemma press_release_round_trip_witness :
  let E := machine (Ok 0%nat) (Ok [str " hello "; str "world"]) in
  let G := two_languages_globals in
  let s' := run E G [Press f10; Release f10] initial in
  recording s'.1 = false
  ∧ files s'.2 = files initial.2
  ∧ ∃ kw rest,
      deliveries (new_events initial s')
      = Transcribe 0%nat (fresh (files initial.2)) kw
        :: Xclip (transcript [str " hello "; str "world"]) :: rest
      ∧ (rest = []
         ∨ (AUTO_TYPE G = true
            ∧ rest = [Xdotool (transcript [str " hello "; str "world"])])).
Proof.
  refine (press_release_round_trip
    (machine (Ok 0%nat) (Ok [str " hello "; str "world"]))
    two_languages_globals (λ _ _ _ _, eq_refl) [] f10
    {| b_lang := str "de"; b_model := str "base" |} 0%nat
    [str " hello "; str "world"] eq_refl eq_refl eq_refl (λ _ _, eq_refl) _).
  by vm_compute.
Defined.

Lemma press_release_failed_model_witness :
  let E := machine (Raise (str "out of memory")) (Ok []) in
  let G := two_languages_globals in
  let s' := run E G [Press f9; Release f9] initial in
  recording s'.1 = false
  ∧ files s'.2 = {[fresh (files initial.2)]} ∪ files initial.2
  ∧ deliveries (new_events initial s') = []
  ∧ Stdout cannot_transcribe_line ∈ new_events initial s'.
Proof.
  refine (press_release_failed_model
    (machine (Raise (str "out of memory")) (Ok []))
    two_languages_globals (λ _ _ _ _, eq_refl) [] f9
    {| b_lang := str "en"; b_model := str "base.en" |}
    (str "out of memory") eq_refl eq_refl eq_refl _).
  by vm_compute.
Defined.

Lemma press_release_empty_error_witness :
  let E := machine (Raise []) (Ok []) in
  let G := two_languages_globals in
  let s' := run E G [Press f9; Release f9] initial in
  recording s'.1 = false
  ∧ files s'.2 = files initial.2
  ∧ deliveries (new_events initial s') = []
  ∧ Stdout (str "Error: " ++ no_engine_error) ∈ new_events initial s'.
Proof.
  exact (press_release_empty_error
    (machine (Raise []) (Ok []))
    two_languages_globals (λ _ _ _ _, eq_refl) [] f9
    {| b_lang := str "en"; b_model := str "base.en" |}
    eq_refl eq_refl eq_refl).
Defined.

Lemma press_release_engine_error_witness :
  let E := machine (Ok 0%nat) (Raise (str "bad audio")) in
  let G := two_languages_globals in
  let s' := run E G [Press f9; Release f9] initial in
  recording s'.1 = false
  ∧ files s'.2 = files initial.2
  ∧ ∃ kw, deliveries (new_events initial s')
          = [Transcribe 0%nat (fresh (files initial.2)) kw].
Proof.
  exact (press_release_engine_error
    (machine (Ok 0%nat) (Raise (str "bad audio")))
    two_languages_globals (λ _ _ _ _, eq_refl) [] f9
    {| b_lang := str "en"; b_model := str "base.en" |} 0%nat
    (str "bad audio") eq_refl eq_refl eq_refl (λ _ _, eq_refl)).
Defined.

(** ** The language argument in a run *)

Section Language_hint.
Variable E : Env.
Variable G : Globals.

(** No language of [HOTKEY_TO_LANG] is the empty string: a language is an
    option name of the settings file, which is never empty, or [auto]. *)
Hypothesis languages_named :
  Forall (λ kb, b_lang kb.2 ≠ []) (HOTKEY_TO_LANG G).

(** While a recording runs, the active language is one of the table and
    the active model is set. *)
Definition session_named (s : state) : Prop :=
  recording s.1 = true →
  ∃ lang m, active_language s.1 = Some lang ∧ lang ≠ []
            ∧ active_model_name s.1 = Some m.

Lemma step_session_named a s :
  session_named s → session_named (step E G a s).
Proof.
  intros Hs. destruct a as [k|k|m|i]; simpl.
  - unfold on_press. destruct (dict_get k (HOTKEY_TO_LANG G)) as [b|] eqn:Hk;
      [|done].
    destruct (recording s.1) eqn:Hrec.
    + by rewrite start_recording_busy.
    + intros _.
      destruct (start_recording_idle_spec E G (b_lang b) (b_model b) k s Hrec)
        as (_ & _ & Hl & Hm & _).
      exists (b_lang b), (b_model b). split; [done|]. split; [|done].
      apply dict_get_elem in Hk. rewrite Forall_forall in languages_named.
      apply (languages_named (k, b) Hk).
  - unfold on_release, mbind, M_bind, bind, get_self. cbn [fst snd].
    destruct (_ && _); [|done].
    destruct (stop_recording_keeps_session_spec E G s) as (Hr & _).
    intros Hrec. congruence.
  - pose proof (_get_or_load_model_around m s) as H. unfold wp in H.
    destruct H as ((Hr & Hl & Hm & _) & _).
    unfold session_named. by rewrite Hr, Hl, Hm.
  - unfold session_named.
    by rewrite (proj1 (loader_action_frame E G i s)).
Qed.

Lemma run_session_named acts : session_named (run E G acts initial).
Proof.
  assert (∀ s, session_named s → session_named (run E G acts s)) as H.
  { induction acts as [|a acts IH]; intros s Hs; [done|].
    simpl. by apply IH, step_session_named. }
  apply H. by intros Hrec.
Qed.

(** Only a release makes a delivering call. *)
Lemma step_call_release a s h p kw :
  Transcribe h p kw ∈ new_events s (step E G a s) →
  recording s.1 = true
  ∧ Transcribe h p kw ∈ new_events s (stop_recording E G s).2.
Proof.
  assert (∀ s' : state, around s s' → Transcribe h p kw ∈ new_events s s' →
                        False) as Hno.
  { intros s' (_ & _ & _ & _ & _ & new & Hlog & Hnew) Hin.
    rewrite (new_events_app _ _ _ Hlog) in Hin.
    apply deliveries_elem in Hin; [|done]. rewrite Hnew in Hin.
    by apply elem_of_nil in Hin. }
  destruct a as [k|k|m|i]; simpl.
  - unfold on_press. destruct (dict_get k (HOTKEY_TO_LANG G)) as [b|].
    + intros Hin. exfalso.
      destruct (start_recording_no_delivery E G (b_lang b) (b_model b) k s)
        as (new & Hlog & Hnew).
      rewrite (new_events_app _ _ _ Hlog) in Hin.
      rewrite Forall_forall in Hnew. by specialize (Hnew _ Hin).
    + intros Hin. exfalso. apply (Hno s); [apply around_refl|done].
  - unfold on_release, mbind, M_bind, bind, get_self. cbn [fst snd].
    destruct (recording s.1) eqn:Hrec.
    + destruct (dict_in k (HOTKEY_TO_LANG G)); cbn [andb]; [done|].
      intros Hin. exfalso. apply (Hno s); [apply around_refl|done].
    + rewrite andb_false_r. intros Hin. exfalso.
      apply (Hno s); [apply around_refl|done].
  - intros Hin. exfalso.
    pose proof (_get_or_load_model_around m s) as H. unfold wp in H.
    apply (Hno _ (proj1 H) Hin).
  - intros Hin. exfalso.
    destruct (loader_action_frame E G i s) as [Hd Hf].
    apply (Hno (loader_action E G i s)); [|done].
    destruct s as [d w], (loader_action E G i (d, w)) as [d' w'].
    cbn [fst snd] in *. subst d'. by apply around_loader_frame.
Qed.

(** C4.  In every run of the program a [transcribe] call is made only by a
    release that ends a recording, and its language argument is the active
    language or is left out: a language argument is given if and only if
    the active language is not [auto] and the active model name does not
    end with [.en].  So a [.en] model never gets a language argument, also
    when the active language is [de]. *)
Theorem language_hint_rule (acts : list action) (a : action) (h p : nat)
    (kw : transcribe_kwargs) :
  let s := run E G acts initial in
  Transcribe h p kw ∈ new_events s (step E G a s) →
  ∃ lang m,
    active_language s.1 = Some lang
    ∧ active_model_name s.1 = Some m
    ∧ (language kw = Some lang ∨ language kw = None)
    ∧ (language kw ≠ None
       ↔ lang ≠ str "auto" ∧ ¬ (str ".en" `suffix_of` m)).
Proof.
  intros s Hin. apply step_call_release in Hin as [Hrec Hin].
  destruct (run_session_named acts Hrec) as (lang & m & Hl & Hne & Hm).
  fold s in Hl, Hm. exists lang, m. split; [done|]. split; [done|].
  destruct (language_hint_of_call E G s lang m h p kw Hl Hm Hin) as [H1 H2].
  split; [done|]. rewrite H2. tauto.
Qed.

End Language_hint.

Lemma language_hint_rule_witness :
  let E := machine (Ok 0%nat) (Ok [str " hallo "]) in
  let G := two_languages_globals in
  let s := run E G [Press f10] initial in
  let kw := kwargs_with (Some (str "de")) in
  ∃ lang m,
    active_language s.1 = Some lang
    ∧ active_model_name s.1 = Some m
    ∧ (language kw = Some lang ∨ language kw = None)
    ∧ (language kw ≠ None
       ↔ lang ≠ str "auto" ∧ ¬ (str ".en" `suffix_of` m)).
Proof.
  refine (language_hint_rule (machine (Ok 0%nat) (Ok [str " hallo "]))
    two_languages_globals _ [Press f10] (Release f10) 0%nat 0%nat
    (kwargs_with (Some (str "de"))) _).
  - repeat constructor; by vm_compute.
  - apply (bool_decide_unpack _). by vm_compute.
Defined.
